(** * FuzzySearch: a shallow embedding of the scoring and matching kernel

    The development follows the JavaScript sources:
    - [FuzzySearch.js] with token packing ([score_map], [score_pack],
      [pack_tokens], [llcs_large], [_scoreField], [_searchIndex], [search]);
    - the earlier [src/FuzzySearch.js] for the token assignment solver
      ([_buildScoreTree], [_matchScoreGrid]).

    Numbers.  JavaScript numbers that hold lengths, positions and bit
    vectors are modelled by [Z]; the bitwise operators convert their operands
    to 32-bit integers, which is written out in module [Int32].  Scores are
    IEEE doubles in the source; they are modelled by exact rationals [Q]. *)

From Stdlib Require Import ZArith QArith Qround Lia Lqa List Ascii String Bool.
From stdpp Require Import base option list gmap strings.

Local Open Scope Z_scope.

(** ** 32-bit integer operators of JavaScript *)

Module Int32.

(** [ToInt32]: reduction modulo 2^32 into [-2^31, 2^31). *)
Definition to_int32 (z : Z) : Z := (z + 2 ^ 31) mod 2 ^ 32 - 2 ^ 31.

(** [ToUint32]: reduction modulo 2^32 into [0, 2^32). *)
Definition to_uint32 (z : Z) : Z := z mod 2 ^ 32.

(** [a << b] *)
Definition shl (a b : Z) : Z := to_int32 (Z.shiftl (to_int32 a) (b mod 32)).

(** [a >> b] *)
Definition sar (a b : Z) : Z := Z.shiftr (to_int32 a) (b mod 32).

(** [a >>> b] *)
Definition shr (a b : Z) : Z := Z.shiftr (to_uint32 a) (b mod 32).

(** [a & b] *)
Definition band (a b : Z) : Z := Z.land (to_int32 a) (to_int32 b).

(** [a | b] *)
Definition bor (a b : Z) : Z := Z.lor (to_int32 a) (to_int32 b).

(** [~a] *)
Definition bnot (a : Z) : Z := Z.lnot (to_int32 a).

End Int32.

Import Int32.

(** Number of bits in an int ([var INT_SIZE = 32]). *)
Definition INT_SIZE : Z := 32.

(** ** Tokens and alphabet maps *)

(** A token is a JavaScript string, seen as the sequence of its code units. *)
Abbreviation Token := (list ascii).

Definition tok (s : string) : Token := list_ascii_of_string s.

(** Positions held by the arrays of [posVector] and by [Block]s: a number,
    [Infinity], or the result of reading past the end of an array /
    computing [Infinity - Infinity] (every comparison with it is false). *)
Inductive pos : Type :=
| Fin (z : Z)
| Inf
| NaN.

(** A value stored in an alphabet map: an int used as a bit array
    ([bitVector]) or an array of positions ([posVector]). *)
Inductive mapval : Type :=
| MBits (x : Z)
| MPos (l : list pos).

Abbreviation amap := (gmap ascii mapval).

(** The number a map value is converted to by a bitwise operator.  An array
    goes through its string form: only a one-element array of a finite number
    converts to something else than 0. *)
Definition bits_of (v : mapval) : Z :=
  match v with
  | MBits x => x
  | MPos [Fin z] => z
  | MPos _ => 0
  end.

(** The array a map value is indexed as by [llcs_large]; indexing a number
    yields [undefined] at every index, like the empty array. *)
Definition positions_of (v : mapval) : list pos :=
  match v with
  | MBits _ => []
  | MPos l => l
  end.

(** [FuzzySearch.bitVector(token, map, offset)] *)
Fixpoint bitVector (token : Token) (map : amap) (offset : Z) : amap :=
  match token with
  | [] => map
  | c :: rest =>
      let map' :=
        match map !! c with
        | Some v => <[c := MBits (bor (bits_of v) (shl 1 offset))]> map
        | None => <[c := MBits (shl 1 offset)]> map
        end in
      bitVector rest map' (offset + 1)
  end.

(** The first loop of [FuzzySearch.posVector]: record every position. *)
Fixpoint posVector_scan (pattern : Token) (i : Z) (map : gmap ascii (list pos))
  : gmap ascii (list pos) :=
  match pattern with
  | [] => map
  | c :: rest =>
      let map' :=
        match map !! c with
        | Some l => <[c := l ++ [Fin i]]> map
        | None => <[c := [Fin i]]> map
        end in
      posVector_scan rest (i + 1) map'
  end.

(** [FuzzySearch.posVector(pattern)]: positions, then [Infinity] as a stop
    marker on every list. *)
Definition posVector (pattern : Token) : amap :=
  (fun l => MPos (l ++ [Inf])) <$> posVector_scan pattern 0 ∅.

(** [FuzzySearch.alphabet(token)] *)
Definition alphabet (token : Token) : amap :=
  if Z.of_nat (length token) >? INT_SIZE then posVector token
  else bitVector token ∅ 0.

(** ** Options *)

Record Options : Type := {
  minimum_match : Q;
  thresh_include : Q;
  thresh_relative_to_best : Q;
  field_good_enough : Q;
  bonus_match_start : Q;
  bonus_token_order : Q;
  bonus_position_decay : Q;
  score_per_token : bool;
  score_test_fused : bool;
  score_round : Q;
  output_limit : Z;
  token_query_min_length : Z;
  token_field_min_length : Z;
  token_query_max_length : Z;
  token_field_max_length : Z;
  token_fused_max_length : Z;
  token_min_rel_size : Q;
  token_max_rel_size : Q
}.

(** [FuzzySearch.defaultOptions] *)
Definition defaultOptions : Options := {|
  minimum_match := 1;
  thresh_include := 2;
  thresh_relative_to_best := 5 # 10;
  field_good_enough := 20;
  bonus_match_start := 5 # 10;
  bonus_token_order := 2;
  bonus_position_decay := 7 # 10;
  score_per_token := true;
  score_test_fused := false;
  score_round := 1 # 10;
  output_limit := 0;
  token_query_min_length := 2;
  token_field_min_length := 3;
  token_query_max_length := 64;
  token_field_max_length := 64;
  token_fused_max_length := 64;
  token_min_rel_size := 6 # 10;
  token_max_rel_size := 6
|}.

(** Comparisons of scores, as booleans. *)
Definition Qltb (x y : Q) : bool := negb (Qle_bool y x).
Definition Qgtb (x y : Q) : bool := Qltb y x.

Definition QofN (n : nat) : Q := inject_Z (Z.of_nat n).

(** ** Scoring a single query token: [score_map] *)

(** Length of the common prefix, the value of [prefix] after
    [while ((a[prefix] === b[prefix]) && (++prefix < k)) {}] with
    [k = min(m, n) > 0]. *)
Fixpoint common_prefix (a b : Token) : nat :=
  match a, b with
  | x :: a', y :: b' => if decide (x = y) then S (common_prefix a' b') else 0%nat
  | _, _ => 0%nat
  end.

(** One turn of the bit-parallel loop:
    [if (c in aMap) { U = S & aMap[c]; S = (S + U) | (S - U); }] *)
Definition lcs_step (aMap : amap) (S : Z) (c : ascii) : Z :=
  match aMap !! c with
  | Some v => let U := band S (bits_of v) in bor (S + U) (S - U)
  | None => S
  end.

(** The 32-bit population count at the end of [score_map]. *)
Definition popcount32 (S : Z) : Z :=
  let S1 := S - band (sar S 1) 0x55555555 in
  let S2 := band S1 0x33333333 + band (sar S1 2) 0x33333333 in
  sar (band (S2 + sar S2 4) 0x0F0F0F0F * 0x01010101) 24.

(** The bit-parallel branch of [score_map]: value of [lcs_len] for a common
    prefix of length [prefix]. *)
Definition lcs_bits (m : Z) (b : Token) (aMap : amap) (prefix : nat) : Z :=
  let mask := shl 1 m - 1 in
  let S := fold_left (lcs_step aMap) (drop prefix b) mask in
  let mask' := band mask (bnot (shl 1 (Z.of_nat prefix) - 1)) in
  popcount32 (band (bnot S) mask') + Z.of_nat prefix.

(** ** Long tokens: [llcs_large] *)

Definition pos_lt (a b : pos) : bool :=
  match a, b with
  | Fin x, Fin y => x <? y
  | Fin _, Inf => true
  | _, _ => false
  end.

Definition pos_le (a b : pos) : bool :=
  match a, b with
  | Fin x, Fin y => x <=? y
  | Fin _, Inf => true
  | Inf, Inf => true
  | _, _ => false
  end.

(** [a === b] on numbers *)
Definition pos_eq (a b : pos) : bool :=
  match a, b with
  | Fin x, Fin y => x =? y
  | Inf, Inf => true
  | _, _ => false
  end.

(** [a + 1] *)
Definition pos_succ (a : pos) : pos :=
  match a with
  | Fin x => Fin (x + 1)
  | Inf => Inf
  | NaN => NaN
  end.

(** [function Block(start, end)] *)
Record Block : Type := mkBlock { b_start : pos; b_end : pos }.

(** [block_size = block_end - block_start], as it is used: compared with 1.
    [Infinity - Infinity] is [NaN] and a number minus [Infinity] is
    [-Infinity]; neither is [=== 1] nor [> 1]. *)
Definition block_size_is_1 (b : Block) : bool :=
  match b_start b, b_end b with
  | Fin s, Fin e => e - s =? 1
  | _, _ => false
  end.

Definition block_size_gt_1 (b : Block) : bool :=
  match b_start b, b_end b with
  | Fin s, Fin e => e - s >? 1
  | Fin _, Inf => true
  | _, _ => false
  end.

(** [while (match_pos < last_end) match_pos = match_list[++match_index];]
    [ms] holds the entries of [match_list] after [match_index]; reading past
    the end gives [undefined], which compares like [NaN]. *)
Fixpoint next_match (ms : list pos) (match_pos last_end : pos) : pos * list pos :=
  match ms with
  | [] => if pos_lt match_pos last_end then (NaN, []) else (match_pos, [])
  | x :: ms' =>
      if pos_lt match_pos last_end then next_match ms' x last_end
      else (match_pos, ms)
  end.

(** State of the walk over the blocks of the last line.  [r_line] is
    [current_line] with its last entry first; [r_block] is the object held by
    [block] (with the fields it has now), [r_block_start] the local
    variable. *)
Record RowState : Type := mkRow {
  r_match_pos : pos;
  r_ms : list pos;
  r_block_end : pos;
  r_line : list Block;
  r_block : option Block;
  r_block_start : pos
}.

(** [current_line[line_index].end++] *)
Definition incr_last_end (line : list Block) : list Block :=
  match line with
  | [] => []
  | b :: rest => mkBlock (b_start b) (pos_succ (b_end b)) :: rest
  end.

(** The body of [while (++block_index < nblock)], over the blocks of
    [last_line] from left to right. *)
Fixpoint row_loop (last_line : list Block) (st : RowState) : RowState :=
  match last_line with
  | [] => st
  | block :: rest =>
      let last_end := r_block_end st in
      let block_start := b_start block in
      let block_end := b_end block in
      let '(match_pos, ms) := next_match (r_ms st) (r_match_pos st) last_end in
      if pos_le block_start match_pos then
        row_loop rest
          (mkRow match_pos ms block_end (block :: r_line st) (Some block) block_start)
      else
        let '(line1, block1) :=
          if pos_eq match_pos last_end then (incr_last_end (r_line st), block)
          else if block_size_is_1 block then
            let reused := mkBlock match_pos (pos_succ match_pos) in
            (reused :: r_line st, reused)
          else (mkBlock match_pos (pos_succ match_pos) :: r_line st, block) in
        let '(line2, block2) :=
          if block_size_gt_1 block then
            let moved := mkBlock (pos_succ (b_start block1)) (b_end block1) in
            (moved :: line1, moved)
          else (line1, block1) in
        row_loop rest (mkRow match_pos ms block_end line2 (Some block2) block_start)
  end.

(** One turn of [for (j = prefix; j < n; j++)]: a line of the table for the
    character [c] of [b]. *)
Definition llcs_row (aMap : amap) (st : list Block * Z) (c : ascii) : list Block * Z :=
  let '(last_line, lcs_len) := st in
  match aMap !! c with
  | None => st
  | Some v =>
      let match_list := positions_of v in
      let match_pos := match match_list with [] => NaN | x :: _ => x end in
      let r := row_loop last_line
                 (mkRow match_pos (tail match_list) (Fin (-1)) [] None NaN) in
      if pos_lt (r_match_pos r) (r_block_start r) then
        (rev (match r_block r with Some b => b :: r_line r | None => r_line r end),
         lcs_len + 1)
      else (rev (r_line r), lcs_len)
  end.

(** [FuzzySearch.llcs_large(a, b, aMap, prefix)] *)
Definition llcs_large (a b : Token) (aMap : amap) (prefix : nat) : Z :=
  let last_line :=
    if (0 <? Z.of_nat prefix) then [mkBlock (Fin 0) (Fin (Z.of_nat prefix)); mkBlock Inf Inf]
    else [mkBlock Inf Inf] in
  snd (fold_left (llcs_row aMap) (drop prefix b) (last_line, Z.of_nat prefix)).

(** [FuzzySearch.score_map(a, b, aMap, options)].  The three [return]
    statements after the size gate evaluate the same expression on the
    [lcs_len] of their branch, given by [lcs_len_map]. *)
Definition lcs_len_map (a b : Token) (aMap : amap) (prefix k : nat) : Z :=
  if (prefix =? k)%nat then Z.of_nat prefix
  else if Z.of_nat (length a) >? INT_SIZE then llcs_large a b aMap prefix
  else lcs_bits (Z.of_nat (length a)) b aMap prefix.

Definition prefix_map (a b : Token) (k : nat) : nat :=
  if decide (a = b) then k else common_prefix a b.

Definition size_gate (options : Options) (m n : nat) : bool :=
  Qltb (QofN n) (token_min_rel_size options * QofN m)
  || Qgtb (QofN n) (token_max_rel_size options * QofN m).

Definition score_map (a b : Token) (aMap : amap) (options : Options) : Q :=
  let m := length a in
  let n := length b in
  let bonus_prefix := bonus_match_start options in
  let k := if (m <? n)%nat then m else n in
  if (k =? 0)%nat || size_gate options m n then 0%Q
  else
    let sz_score := ((QofN m + QofN n) / (2 * QofN m * QofN n))%Q in
    let prefix := prefix_map a b k in
    let lcs_len := inject_Z (lcs_len_map a b aMap prefix k) in
    (sz_score * lcs_len * lcs_len + bonus_prefix * QofN prefix)%Q.

(** [FuzzySearch.prototype.score(a, b)] *)
Definition score (options : Options) (a b : Token) : Q :=
  score_map a b (alphabet a) options.

(** ** Packed tokens *)

(** [function PackInfo(group_tokens, group_map, gate)]: the three score
    arrays start filled with 0. *)
Record PackInfo : Type := mkPackInfo {
  tokens : list Token;
  map : amap;
  gate : Z;
  score_item : list Q;
  score_field : list Q;
  field_pos : list Z
}.

Definition new_PackInfo (group_tokens : list Token) (group_map : amap) (gate : Z)
  : PackInfo :=
  let t := length group_tokens in
  mkPackInfo group_tokens group_map gate
    (replicate t 0%Q) (replicate t 0%Q) (replicate t 0).

(** The group under construction is pushed when it holds a token. *)
Definition close_group (groups : list PackInfo) (group_tokens : list Token)
    (group_map : amap) (gate : Z) : list PackInfo :=
  match group_tokens with
  | [] => groups
  | _ => groups ++ [new_PackInfo group_tokens group_map gate]
  end.

(** The last branch of the inner loop of [pack_tokens]: the token joins the
    group. *)
Definition add_to_group (token : Token) (group_tokens : list Token)
    (group_map : amap) (offset gate : Z) : list Token * amap * Z * Z :=
  let l := Z.of_nat (length token) in
  (group_tokens ++ [token],
   bitVector token group_map offset,
   offset + l,
   bor gate (shl (shl 1 (l - 1) - 1) offset)).

(** The two loops of [FuzzySearch.pack_tokens] as one walk over the tokens.
    When a token does not fit ([token_index--; break]) the group is closed
    and the token is read again by the next group, with [offset = 0]: there
    it is neither large nor too long, and joins the empty group. *)
Fixpoint pack_loop (toks : list Token) (groups : list PackInfo)
    (group_tokens : list Token) (group_map : amap) (offset gate : Z)
  : list PackInfo :=
  match toks with
  | [] => close_group groups group_tokens group_map gate
  | token :: rest =>
      let l := Z.of_nat (length token) in
      if l >=? INT_SIZE then
        let large := new_PackInfo [token] (posVector token) 0xFFFFFFFF in
        pack_loop rest (close_group groups group_tokens group_map gate ++ [large])
          [] ∅ 0 0
      else if l + offset >=? INT_SIZE then
        let '(gt, gm, off, g) := add_to_group token [] ∅ 0 0 in
        pack_loop rest (close_group groups group_tokens group_map gate) gt gm off g
      else
        let '(gt, gm, off, g) := add_to_group token group_tokens group_map offset gate in
        pack_loop rest groups gt gm off g
  end.

Definition pack_tokens (toks : list Token) : list PackInfo :=
  pack_loop toks [] [] ∅ 0 0.

(** One turn of the sweep of [score_pack]:
    [U = S & aMap[c]; S = ((S & ZM) + (U & ZM)) | (S - U);] *)
Definition pack_step (aMap : amap) (ZM : Z) (S : Z) (c : ascii) : Z :=
  match aMap !! c with
  | Some v =>
      let U := band S (bits_of v) in
      bor (band S ZM + band U ZM) (S - U)
  | None => S
  end.

(** [while (Sm) { Sm &= Sm - 1; lcs_len++ }]; a 32-bit value has at most 32
    bits to clear. *)
Fixpoint count_bits (fuel : nat) (Sm lcs_len : Z) : Z :=
  match fuel with
  | O => lcs_len
  | S fuel' =>
      if Sm =? 0 then lcs_len
      else count_bits fuel' (band Sm (Sm - 1)) (lcs_len + 1)
  end.

(** The body of [while (++k < nb_packed)]: score of the token at [offset]. *)
Definition score_lane (options : Options) (S : Z) (field_token : Token)
    (offset : Z) (query_tok : Token) : Q :=
  let n := length field_token in
  let m := length query_tok in
  if size_gate options m n then 0%Q
  else
    let '(prefix, lcs_len) :=
      if decide (query_tok = field_token) then (m, Z.of_nat m)
      else
        let prefix := common_prefix query_tok field_token in
        let Sm := shr (band (shr S offset) (shl 1 (Z.of_nat m) - 1))
                      (Z.of_nat prefix) in
        (prefix, count_bits 33 Sm (Z.of_nat prefix)) in
    let sz := ((QofN m + QofN n) / (2 * QofN m * QofN n))%Q in
    (sz * inject_Z lcs_len * inject_Z lcs_len
     + bonus_match_start options * QofN prefix)%Q.

Fixpoint score_lanes (options : Options) (S : Z) (field_token : Token)
    (offset : Z) (packed_tokens : list Token) : list Q :=
  match packed_tokens with
  | [] => []
  | query_tok :: rest =>
      score_lane options S field_token offset query_tok
      :: score_lanes options S field_token
           (offset + Z.of_nat (length query_tok)) rest
  end.

(** [FuzzySearch.score_pack(packinfo, field_token, options)] *)
Definition score_pack (packinfo : PackInfo) (field_token : Token)
    (options : Options) : list Q :=
  let ZM := bor (gate packinfo) 0 in
  let S := fold_left (pack_step (map packinfo) ZM) field_token 0xFFFFFFFF in
  score_lanes options (bnot S) field_token 0 (tokens packinfo).

(** ** Reference: length of the longest common subsequence *)

Fixpoint llcs (a b : Token) : nat :=
  match a with
  | [] => 0%nat
  | x :: a' =>
      (fix inner (b : Token) : nat :=
         match b with
         | [] => 0%nat
         | y :: b' =>
             if decide (x = y) then S (llcs a' b')
             else Nat.max (llcs a' b) (inner b')
         end) b
  end.


(** ** Queries and the index *)

(** [str.split(" ")] *)
Fixpoint split_space (s : Token) : list Token :=
  match s with
  | [] => [[]]
  | c :: rest =>
      if decide (c = " "%char) then [] :: split_space rest
      else
        match split_space rest with
        | [] => [[c]]
        | h :: t => (c :: h) :: t
        end
  end.

(** [array.join(" ")] *)
Fixpoint join_space (l : list Token) : Token :=
  match l with
  | [] => []
  | [x] => x
  | x :: rest => x ++ " "%char :: join_space rest
  end.

(** [FuzzySearch.filterSize(array, minSize, maxSize)] *)
Fixpoint filterSize (array : list Token) (minSize maxSize : Z) : list Token :=
  match array with
  | [] => []
  | str :: rest =>
      let slen := Z.of_nat (length str) in
      if slen >=? minSize then
        (if slen <? maxSize then str else take (Z.to_nat maxSize) str)
        :: filterSize rest minSize maxSize
      else filterSize rest minSize maxSize
  end.

(** [function Query(normalized, tokens_groups, fused_str, fused_map, single)] *)
Record Query : Type := mkQuery {
  normalized : Token;
  tokens_groups : list PackInfo;
  fused_str : Token;
  fused_score : Q;
  fused_map : amap;
  single : bool
}.

Definition new_Query (normalized : Token) (tokens_groups : list PackInfo)
    (fused_str : Token) (fused_map : amap) (single : bool) : Query :=
  mkQuery normalized tokens_groups fused_str 0 fused_map single.

(** [FuzzySearch.prototype._prepQuery], from the normalized query string
    ([FuzzySearch.normalize] is applied by the caller, see [search]). *)
Definition _prepQuery (this : Options) (norm_query : Token) : Query :=
  let toks :=
    if score_per_token this then
      filterSize (split_space norm_query)
        (token_query_min_length this) (token_query_max_length this)
    else [] in
  let single := (length toks <? 2)%nat in
  let groups := if single then [] else pack_tokens toks in
  let fused :=
    take (Z.to_nat (if single then token_field_max_length this
                    else token_fused_max_length this)) norm_query in
  let map :=
    if score_test_fused this || negb (score_per_token this) || single
    then alphabet fused else ∅ in
  new_Query norm_query groups fused map single.

(** [function Indexed(original, fields)]: an item of the source with its
    fields, each one normalized and split in tokens. *)
Record Indexed (Item : Type) : Type := mkIndexed {
  item : Item;
  fields : list (list Token)
}.
Arguments mkIndexed {Item}.
Arguments item {Item}.
Arguments fields {Item}.

(** [function SearchResult(item, fields, item_score, matched_field_index, sortkey)] *)
Record SearchResult (Item : Type) : Type := mkSearchResult {
  sr_item : Item;
  sr_fields : list (list Token);
  sr_score : Q;
  sr_matchIndex : Z;
  sr_sortKey : Token
}.
Arguments mkSearchResult {Item}.
Arguments sr_item {Item}.
Arguments sr_fields {Item}.
Arguments sr_score {Item}.
Arguments sr_matchIndex {Item}.
Arguments sr_sortKey {Item}.

(** ** Scoring a field *)

(** [if (sc > best_of_field[i]) { best_of_field[i] = sc; best_index[i] = field_tk_index; }]
    for every [i]: the arrays of a [PackInfo] have one entry per token, and
    so has the array returned by [score_pack]. *)
Fixpoint update_best (scores : list Q) (field_tk_index : Z)
    (best_of_field : list Q) (best_index : list Z) : list Q * list Z :=
  match scores, best_of_field, best_index with
  | sc :: scores', b :: best', ix :: index' =>
      let '(bs, ixs) := update_best scores' field_tk_index best' index' in
      if Qgtb sc b then (sc :: bs, field_tk_index :: ixs)
      else (b :: bs, ix :: ixs)
  | _, _, _ => (best_of_field, best_index)
  end.

(** The loop over the tokens of the field, for one group. *)
Fixpoint best_of_tokens (this : Options) (group_info : PackInfo)
    (field_tokens : list Token) (field_tk_index : Z)
    (best_of_field : list Q) (best_index : list Z) : list Q * list Z :=
  match field_tokens with
  | [] => (best_of_field, best_index)
  | token :: rest =>
      let scores :=
        if (length (tokens group_info) =? 1)%nat then
          [score_map (hd [] (tokens group_info)) token (map group_info) this]
        else score_pack group_info token this in
      let '(bs, ixs) := update_best scores field_tk_index best_of_field best_index in
      best_of_tokens this group_info rest (field_tk_index + 1) bs ixs
  end.

(** The loop that adds the best scores of a group to the field score,
    records them for the item and gives the bonus for tokens in order.
    State: [field_score], [last_index] and the new [score_item]. *)
Fixpoint add_group_scores (this : Options) (best_of_field : list Q)
    (best_index : list Z) (best_match_this_item : list Q)
    (field_score : Q) (last_index : Z) : Q * Z * list Q :=
  match best_of_field, best_index, best_match_this_item with
  | sc :: bs, tmp :: ixs, old :: olds =>
      let field_score1 := (field_score + sc)%Q in
      let kept := if Qgtb sc old then sc else old in
      let '(field_score2, last_index2) :=
        if Qgtb sc (minimum_match this) then
          ((if tmp >? last_index then field_score1 + bonus_token_order this
            else field_score1)%Q, tmp)
        else (field_score1, last_index) in
      let '(fs, li, items) :=
        add_group_scores this bs ixs olds field_score2 last_index2 in
      (fs, li, kept :: items)
  | _, _, _ => (field_score, last_index, best_match_this_item)
  end.

(** The body of [for (var group_index = -1; ++group_index < nb_groups;)]. *)
Definition score_group (this : Options) (field_tokens : list Token)
    (group_info : PackInfo) (field_score : Q) (last_index : Z)
  : PackInfo * Q * Z :=
  let nb_scores := length (tokens group_info) in
  let '(best_of_field, best_index) :=
    best_of_tokens this group_info field_tokens 0
      (replicate nb_scores 0%Q) (replicate nb_scores 0) in
  let '(fs, li, items) :=
    add_group_scores this best_of_field best_index (score_item group_info)
      field_score last_index in
  (mkPackInfo (tokens group_info) (map group_info) (gate group_info)
     items best_of_field best_index, fs, li).

Fixpoint score_groups (this : Options) (field_tokens : list Token)
    (groups : list PackInfo) (field_score : Q) (last_index : Z)
  : list PackInfo * Q :=
  match groups with
  | [] => ([], field_score)
  | g :: rest =>
      let '(g', fs, li) := score_group this field_tokens g field_score last_index in
      let '(rest', fs') := score_groups this field_tokens rest fs li in
      (g' :: rest', fs')
  end.

(** The test of the fused query at the end of [_scoreField] and
    [_scoreFieldSingle]. *)
Definition test_fused (this : Options) (field_tokens : list Token)
    (query : Query) (groups : list PackInfo) (field_score : Q) : Q * Query :=
  if score_test_fused this then
    let fused := score_map (fused_str query) (join_space field_tokens)
                   (fused_map query) this in
    (if Qgtb fused field_score then fused else field_score,
     mkQuery (normalized query) groups (fused_str query)
       (if Qgtb fused (fused_score query) then fused else fused_score query)
       (fused_map query) (single query))
  else
    (field_score,
     mkQuery (normalized query) groups (fused_str query) (fused_score query)
       (fused_map query) (single query)).

(** [FuzzySearch.prototype._scoreField(field_tokens, query)]: the score of
    the field and the query with its scores updated. *)
Definition _scoreField (this : Options) (field_tokens : list Token)
    (query : Query) : Q * Query :=
  let '(groups, field_score) :=
    score_groups this field_tokens (tokens_groups query) 0 (-1) in
  test_fused this field_tokens query groups field_score.

(** [FuzzySearch.prototype._scoreFieldSingle(field_tokens, query)] *)
Definition _scoreFieldSingle (this : Options) (field_tokens : list Token)
    (query : Query) : Q * Query :=
  let field_score :=
    fold_left
      (fun field_score token =>
         let sc := score_map (fused_str query) token (fused_map query) this in
         if Qgtb sc field_score then sc else field_score)
      field_tokens 0%Q in
  test_fused this field_tokens query (tokens_groups query) field_score.

(** ** Scoring an item *)

(** The score of one field, by the three cases of [_searchIndex]. *)
Definition field_score_of (this : Options) (field : list Token) (query : Query)
  : Q * Query :=
  if score_per_token this then
    if single query then _scoreFieldSingle this field query
    else _scoreField this field query
  else
    (score_map (fused_str query) (join_space field) (fused_map query) this, query).

(** State of the loop over the fields of an item. *)
Record FieldLoop : Type := mkFieldLoop {
  fl_query : Query;
  fl_item_score : Q;
  fl_matched_field_index : Z;
  fl_position_bonus : Q
}.

(** [for (var field_index = -1, ...; ++field_index < nb_fields;)], with its
    [break]. *)
Fixpoint field_loop (this : Options) (item_fields : list (list Token))
    (field_index : Z) (st : FieldLoop) : FieldLoop :=
  match item_fields with
  | [] => st
  | field :: rest =>
      let '(fs, query) := field_score_of this field (fl_query st) in
      let field_score := (fs * (1 + fl_position_bonus st))%Q in
      let position_bonus := (fl_position_bonus st * bonus_position_decay this)%Q in
      if Qgtb field_score (fl_item_score st) then
        let st' := mkFieldLoop query field_score field_index position_bonus in
        if Qgtb field_score (field_good_enough this) then st'
        else field_loop this rest (field_index + 1) st'
      else
        field_loop this rest (field_index + 1)
          (mkFieldLoop query (fl_item_score st) (fl_matched_field_index st)
             position_bonus)
  end.

(** The reset at the start of each item: every [score_item] entry and
    [fused_score] are set to 0. *)
Definition reset_group (g : PackInfo) : PackInfo :=
  mkPackInfo (tokens g) (map g) (gate g)
    (replicate (length (score_item g)) 0%Q) (score_field g) (field_pos g).

Definition reset_scores (query : Query) : Query :=
  mkQuery (normalized query) (reset_group <$> tokens_groups query)
    (fused_str query) 0 (fused_map query) (single query).

(** [query_score]: the sum of every [score_item] entry of every group, in
    order. *)
Definition sum_scores (groups : list PackInfo) : Q :=
  fold_left (fun acc g => fold_left Qplus (score_item g) acc) groups 0%Q.

(** The score of an item: the part of the body of the loop of
    [_searchIndex] before the bookkeeping of the best score. *)
Definition item_score_of (this : Options) (query : Query)
    (item_fields : list (list Token)) : Q * Z * Query :=
  let st := field_loop this item_fields 0 (mkFieldLoop (reset_scores query) 0 (-1) 1) in
  let query' := fl_query st in
  if score_per_token this && negb (single query) then
    let query_score := sum_scores (tokens_groups query') in
    let query_score :=
      if Qgtb (fused_score query') query_score then fused_score query'
      else query_score in
    (((5 # 10) * fl_item_score st + (5 # 10) * query_score)%Q,
     fl_matched_field_index st, query')
  else (fl_item_score st, fl_matched_field_index st, query').

(** [Math.round(x)] *)
Definition Math_round (x : Q) : Q := inject_Z (Qfloor (x + (1 # 2))).

(** State of the loop over the items. *)
Record SearchLoop (Item : Type) : Type := mkSearchLoop {
  sl_query : Query;
  sl_thresh_include : Q;
  sl_best_item_score : Q;
  sl_results : list (SearchResult Item)
}.
Arguments mkSearchLoop {Item}.
Arguments sl_query {Item}.
Arguments sl_thresh_include {Item}.
Arguments sl_best_item_score {Item}.
Arguments sl_results {Item}.

(** The body of the loop of [_searchIndex], with a flag that tells whether
    it threw: [item_fields[0].join(" ")] throws when the item has no field,
    after the item was scored and the thresholds were updated. *)
Definition search_item {Item : Type} (this : Options) (st : SearchLoop Item)
    (it : Indexed Item) : SearchLoop Item * bool :=
  let item_fields := fields it in
  let '(item_score, matched_field_index, query) :=
    item_score_of this (sl_query st) item_fields in
  let '(best_item_score, thresh) :=
    if Qgtb item_score (sl_best_item_score st) then
      let tmp := (item_score * thresh_relative_to_best this)%Q in
      (item_score, if Qgtb tmp (sl_thresh_include st) then tmp else sl_thresh_include st)
    else (sl_best_item_score st, sl_thresh_include st) in
  if Qgtb item_score thresh then
    let rounded := (Math_round (item_score / score_round this) * score_round this)%Q in
    match item_fields with
    | [] => (mkSearchLoop query thresh best_item_score (sl_results st), true)
    | first :: _ =>
        (mkSearchLoop query thresh best_item_score
           (sl_results st ++
            [mkSearchResult (item it) item_fields rounded matched_field_index
               (join_space first)]),
         false)
    end
  else (mkSearchLoop query thresh best_item_score (sl_results st), false).

Fixpoint search_items {Item : Type} (this : Options) (source : list (Indexed Item))
    (st : SearchLoop Item) : SearchLoop Item * bool :=
  match source with
  | [] => (st, false)
  | it :: rest =>
      let '(st', threw) := search_item this st it in
      if threw then (st', true) else search_items this rest st'
  end.

(** [FuzzySearch.prototype._searchIndex(query, source, results)]: the
    results pushed, [thresh_include] after the run and the query as the run
    leaves it; the flag tells whether the run threw. *)
Definition _searchIndex {Item : Type} (this : Options) (query : Query)
    (source : list (Indexed Item)) (results : list (SearchResult Item))
  : SearchLoop Item * bool :=
  search_items this source (mkSearchLoop query (thresh_include this) 0 results).

(** [FuzzySearch.filterGTE(array, "score", compareto)] *)
Definition filterGTE {Item : Type} (array : list (SearchResult Item)) (compareto : Q)
  : list (SearchResult Item) :=
  List.filter (fun obj => Qle_bool compareto (sr_score obj)) array.

(** ** The engine and [search] *)

(** Lexicographic comparison of strings by code unit ([ak > bk], [ak < bk]). *)
Fixpoint str_lt (a b : Token) : bool :=
  match a, b with
  | _, [] => false
  | [], _ :: _ => true
  | x :: a', y :: b' =>
      if (nat_of_ascii x <? nat_of_ascii y)%nat then true
      else if (nat_of_ascii y <? nat_of_ascii x)%nat then false
      else str_lt a' b'
  end.

(** [compareResults(a, b)]: by decreasing score, then by sort key. *)
Definition compareResults {Item : Type} (a b : SearchResult Item) : Q :=
  let d := (sr_score b - sr_score a)%Q in
  if negb (Qeq_bool d 0) then d
  else
    let ak := sr_sortKey a in
    let bk := sr_sortKey b in
    if str_lt bk ak then 1%Q else if str_lt ak bk then (-1)%Q else 0%Q.

(** [array.sort(sorter)], as a stable insertion sort: [b] goes before [a]
    when [sorter(a, b) > 0]. *)
Fixpoint sort_insert {A : Type} (sorter : A -> A -> Q) (x : A) (l : list A) : list A :=
  match l with
  | [] => [x]
  | y :: rest =>
      if Qgtb (sorter x y) 0 then y :: sort_insert sorter x rest
      else x :: l
  end.

Definition array_sort {A : Type} (sorter : A -> A -> Q) (l : list A) : list A :=
  fold_right (sort_insert sorter) [] l.

(** The number of entries kept by [FuzzySearch.map] and
    [FuzzySearch.mapField]: [if (max_out > 0 && max_out < n) n = max_out]. *)
Definition output_count (n : nat) (max_out : Z) : nat :=
  if (0 <? max_out) && (max_out <? Z.of_nat n) then Z.to_nat max_out else n.

Section Engine.

(** The items of the source are opaque.  Field extraction
    ([FuzzySearch.generateFields]) and normalization are taken as functions
    that return: a run in which [generateFields] throws (a null value under
    a key) is outside this model. *)
Context {Item Out : Type}.
Variable normalize : string -> Token.
Variable generateFields : Item -> list string -> list string.

(** The fields of the engine object that [search] reads or writes.  The
    option [output_map], a path or a function, is held as the function it
    denotes on a result, its position and the array of results, for the
    runs in which it returns (a path that goes through a primitive makes
    [FuzzySearch.mapField] throw, which is outside this model); [sorter]
    is [None] when the option is not a function. *)
Record FuzzySearch : Type := mkFuzzySearch {
  options : Options;
  sorter : option (SearchResult Item -> SearchResult Item -> Q);
  output_map : SearchResult Item -> nat -> list (SearchResult Item) -> Out;
  source : list Item;
  keys : list string;
  dirty : bool;
  index : list (Indexed Item);
  query : option Query;
  results : list Out;
  start_time : Q;
  search_time : Q
}.

(** Code that reads and writes the engine, and may throw: the value, or
    [None] after a throw, and the engine as the code leaves it. *)
Definition M (A : Type) : Type := FuzzySearch -> option A * FuzzySearch.

#[local] Instance M_ret : MRet M := fun A x this => (Some x, this).
#[local] Instance M_bind : MBind M := fun A B f m this =>
  match m this with
  | (Some x, this') => f x this'
  | (None, this') => (None, this')
  end.

Definition get : M FuzzySearch := fun this => (Some this, this).
Definition throw {A : Type} : M A := fun this => (None, this).

(** Assignments to fields of [this]. *)
Definition set_index (v : list (Indexed Item)) : M unit := fun this =>
  (Some tt, mkFuzzySearch (options this) (sorter this) (output_map this)
              (source this) (keys this) (dirty this) v (query this)
              (results this) (start_time this) (search_time this)).
Definition set_dirty (v : bool) : M unit := fun this =>
  (Some tt, mkFuzzySearch (options this) (sorter this) (output_map this)
              (source this) (keys this) v (index this) (query this)
              (results this) (start_time this) (search_time this)).
Definition set_query (v : Query) : M unit := fun this =>
  (Some tt, mkFuzzySearch (options this) (sorter this) (output_map this)
              (source this) (keys this) (dirty this) (index this) (Some v)
              (results this) (start_time this) (search_time this)).
Definition set_results (v : list Out) : M unit := fun this =>
  (Some tt, mkFuzzySearch (options this) (sorter this) (output_map this)
              (source this) (keys this) (dirty this) (index this) (query this)
              v (start_time this) (search_time this)).
Definition set_start_time (v : Q) : M unit := fun this =>
  (Some tt, mkFuzzySearch (options this) (sorter this) (output_map this)
              (source this) (keys this) (dirty this) (index this) (query this)
              (results this) v (search_time this)).
Definition set_search_time (v : Q) : M unit := fun this =>
  (Some tt, mkFuzzySearch (options this) (sorter this) (output_map this)
              (source this) (keys this) (dirty this) (index this) (query this)
              (results this) (start_time this) v).

(** The entry of the index for an item, as [FuzzySearch.addSource] builds
    it. *)
Definition index_item (this : Options) (keys : list string) (it : Item)
  : Indexed Item :=
  mkIndexed it
    ((fun field =>
        filterSize (split_space (normalize field))
          (token_field_min_length this) (token_field_max_length this))
     <$> generateFields it keys).

(** [FuzzySearch.addSource(self, source, keys, true)] *)
Definition addSource (source : list Item) (keys : list string) : M unit :=
  this ← get;
  set_index (index_item (options this) keys <$> source).

(** [FuzzySearch.map] and [FuzzySearch.mapField]: the transform of the
    first entries. *)
Definition map_results (f : SearchResult Item -> nat -> list (SearchResult Item) -> Out)
    (source : list (SearchResult Item)) (max_out : Z) : list Out :=
  imap (fun i x => f x i source) (take (output_count (length source) max_out) source).

(** [FuzzySearch.prototype.search(querystring)]; [time_start] and
    [time_end] are the two readings of the clock. *)
Definition search (querystring : string) (time_start time_end : Q) : M (list Out) :=
  set_start_time time_start;;
  this ← get;
  (if dirty this then
     addSource (source this) (keys this);; set_dirty false
   else mret tt);;
  let query := _prepQuery (options this) (normalize querystring) in
  set_query query;;
  this ← get;
  let '(run, threw) := _searchIndex (options this) query (index this) [] in
  (* [this.query] and [query] are one object: the scores written by the
     run are in [this.query] *)
  set_query (sl_query run);;
  (if threw then throw else mret tt);;
  let results := filterGTE (sl_results run) (sl_thresh_include run) in
  let results :=
    match sorter this with
    | Some f => array_sort f results
    | None => results
    end in
  let results := map_results (output_map this) results (output_limit (options this)) in
  set_search_time (time_end - time_start)%Q;;
  set_results results;;
  mret results.

End Engine.

(** ** The token assignment solver ([src/FuzzySearch.js]) *)

Module Assign.

(** [cache_tree]: the entry [cache_tree[depth][used_mask]], a pair
    [[bestscore, bestindex]], is held at the key [(depth, used_mask)].
    [_matchScoreGrid] creates [cache_tree[i]] for every row. *)
Abbreviation cache := (gmap (nat * Z) (Q * Z)).

(** [score < include_thresh]; a missing threshold is [undefined] and the
    comparison is false. *)
Definition below (score : Q) (include_thresh : option Q) : bool :=
  match include_thresh with
  | Some t => Qltb score t
  | None => false
  end.

(** The score of the rows below [depth] for the key [child_key]: from the
    cache when it is there, else by the recursive call [build]. *)
Definition child_score (build : cache -> Z -> Q * cache) (depth : nat)
    (cache_tree : cache) (child_key : Z) : Q * cache :=
  match cache_tree !! (S depth, child_key) with
  | Some entry => (fst entry, cache_tree)
  | None => build cache_tree child_key
  end.

(** [for (j = 0; j < jlen; j++)] over the entries of the row [C[depth]]. *)
Fixpoint row_scan (child : option (cache -> Z -> Q * cache))
    (include_thresh : option Q) (used_mask : Z) (row : list Q) (j : Z)
    (bestscore : Q) (bestindex : Z) (cache_tree : cache) : Q * Z * cache :=
  match row with
  | [] => (bestscore, bestindex, cache_tree)
  | score :: row' =>
      let bit := shl 1 j in
      if negb (band used_mask bit =? 0) then
        row_scan child include_thresh used_mask row' (j + 1) bestscore bestindex cache_tree
      else if below score include_thresh then
        row_scan child include_thresh used_mask row' (j + 1) bestscore bestindex cache_tree
      else
        let '(score, cache_tree) :=
          match child with
          | Some f =>
              let '(s, c) := f cache_tree (bor used_mask bit) in ((score + s)%Q, c)
          | None => (score, cache_tree)
          end in
        if Qgtb score bestscore then
          row_scan child include_thresh used_mask row' (j + 1) score j cache_tree
        else
          row_scan child include_thresh used_mask row' (j + 1) bestscore bestindex cache_tree
  end.

(** [FuzzySearch._buildScoreTree(C, cache_tree, used_mask, depth, score_thresholds)].
    [rows] and [thresholds] are the rows [C[depth]], [C[depth+1]], ... and
    their thresholds. *)
Fixpoint _buildScoreTree (rows : list (list Q)) (thresholds : list Q)
    (cache_tree : cache) (used_mask : Z) (depth : nat) {struct rows} : Q * cache :=
  match rows with
  | [] => (0%Q, cache_tree)
  | row :: rest =>
      let include_thresh := head thresholds in
      let child :=
        match rest with
        | [] => None
        | _ :: _ =>
            Some (child_score
                    (fun c key => _buildScoreTree rest (tail thresholds) c key (S depth))
                    depth)
        end in
      let '(bestscore, bestindex, cache_tree) :=
        row_scan child include_thresh used_mask (take 32 row) 0 0 (-1) cache_tree in
      let '(bestscore, bestindex, cache_tree) :=
        match child with
        | Some f =>
            let '(score, c) := f cache_tree used_mask in
            if Qgtb score bestscore then (score, -1, c)
            else (bestscore, bestindex, c)
        | None => (bestscore, bestindex, cache_tree)
        end in
      (bestscore, <[(depth, used_mask) := (bestscore, bestindex)]> cache_tree)
  end.

(** [match[i] = j] *)
Definition array_set (l : list Z) (i : nat) (v : Z) : list Z :=
  if (i <? length l)%nat then <[i := v]> l else l ++ [v].

(** The walk that reads the best permutation back from the cache. *)
Fixpoint read_match (scoretree : cache) (n : nat) (i : nat) (used : Z)
    (match_ : list Z) : list Z :=
  match n with
  | O => match_
  | S n' =>
      match scoretree !! (i, used) with
      | None => match_
      | Some entry =>
          let j := snd entry in
          read_match scoretree n' (S i)
            (if j >? -1 then bor used (shl 1 j) else used)
            (array_set match_ i j)
      end
  end.

(** [FuzzySearch._matchScoreGrid(C, match, thresholds)]: the score and the
    array [match] as the call leaves it.  With no row, [C[0].length]
    throws. *)
Definition _matchScoreGrid (C : list (list Q)) (match_ : list Z)
    (thresholds : list Q) : option (Q * list Z) :=
  match C with
  | [] => None
  | _ :: _ =>
      let '(score, scoretree) := _buildScoreTree C thresholds ∅ 0 0 in
      Some (score, read_match scoretree (length C) 0 0 match_)
  end.

End Assign.



(** ** Flipping a match ([src/FuzzySearch.js]) *)

(** The second loop of [FuzzySearch._flipmatch]:
    [j = ref[i]; if (j > -1 && j < newlen) match[j] = i]. *)
Fixpoint flip_loop (ref : list Z) (i : Z) (newlen : Z) (match_ : list Z) : list Z :=
  match ref with
  | [] => match_
  | j :: ref' =>
      flip_loop ref' (i + 1) newlen
        (if (j >? -1) && (j <? newlen) then <[Z.to_nat j := i]> match_ else match_)
  end.

(** [FuzzySearch._flipmatch(match, newlen)]: the array [match] as the call
    leaves it; it gets the length [newlen], every entry is set to -1, then
    the entries of the copy [ref] are flipped. *)
Definition _flipmatch (match_ : list Z) (newlen : nat) : list Z :=
  flip_loop match_ 0 (Z.of_nat newlen) (replicate newlen (-1)).

(** ** The scorer of [src/FuzzySearch.js] *)

Module Old.

(** [var BVMAXSIZE = 31]: one bit is kept as a buffer. *)
Definition BVMAXSIZE : Z := 31.

(** An alphabet map with its [type]: ["bitvector"] (an int for each
    character) or ["posvector"] (an array of positions for each
    character). *)
Inductive omap : Type :=
| BV (map : gmap ascii Z)
| PV (map : gmap ascii (list pos)).

(** The loop of [FuzzySearch.bitVector]: [map[token[i]] |= (1 << i)], where
    a missing entry counts as 0. *)
Fixpoint bits_loop (token : Token) (i : Z) (map : gmap ascii Z) : gmap ascii Z :=
  match token with
  | [] => map
  | c :: rest =>
      bits_loop rest (i + 1) (<[c := bor (default 0 (map !! c)) (shl 1 i)]> map)
  end.

(** [FuzzySearch.posVector(pattern)] *)
Definition posVector (pattern : Token) : gmap ascii (list pos) :=
  (fun l => l ++ [Inf]) <$> posVector_scan pattern 0 ∅.

(** [FuzzySearch.bitVector(token)] *)
Definition bitVector (token : Token) : omap :=
  if Z.of_nat (length token) >? BVMAXSIZE then PV (posVector token)
  else BV (bits_loop token 0 ∅).

(** The body of [while (++block_index < nblock)] in [llcs_large]; blocks are
    the arrays [[start, end]]. *)
Fixpoint row_loop (last_line : list Block) (st : RowState) : RowState :=
  match last_line with
  | [] => st
  | block :: rest =>
      let last_end := r_block_end st in
      let block_start := b_start block in
      let block_end := b_end block in
      let '(match_pos, ms) := next_match (r_ms st) (r_match_pos st) last_end in
      if pos_le block_start match_pos then
        row_loop rest
          (mkRow match_pos ms block_end (block :: r_line st) (Some block) block_start)
      else
        let line1 :=
          if pos_eq match_pos last_end then incr_last_end (r_line st)
          else mkBlock match_pos (pos_succ match_pos) :: r_line st in
        let '(line2, block2) :=
          if block_size_gt_1 block then
            let moved := mkBlock (pos_succ block_start) block_end in
            (moved :: line1, moved)
          else (line1, block) in
        row_loop rest (mkRow match_pos ms block_end line2 (Some block2) block_start)
  end.

(** One turn of [for (j = prefix; j < n; j++)] in [llcs_large]. *)
Definition llcs_row (aMap : gmap ascii (list pos)) (st : list Block * Z) (c : ascii)
  : list Block * Z :=
  let '(last_line, lcs_len) := st in
  match aMap !! c with
  | None => st
  | Some match_list =>
      let match_pos := match match_list with [] => NaN | x :: _ => x end in
      let r := row_loop last_line
                 (mkRow match_pos (tail match_list) (Fin (-1)) [] None NaN) in
      if pos_lt (r_match_pos r) (r_block_start r) then
        (rev (match r_block r with Some b => b :: r_line r | None => r_line r end),
         lcs_len + 1)
      else (rev (r_line r), lcs_len)
  end.

(** [FuzzySearch.llcs_large(a, b, aMap, prefix)] *)
Definition llcs_large (a b : Token) (aMap : gmap ascii (list pos)) (prefix : nat) : Z :=
  let last_line :=
    if (0 <? Z.of_nat prefix) then [mkBlock (Fin 0) (Fin (Z.of_nat prefix)); mkBlock Inf Inf]
    else [mkBlock Inf Inf] in
  snd (fold_left (llcs_row aMap) (drop prefix b) (last_line, Z.of_nat prefix)).

(** One turn of the sweep of [score_map]:
    [M = aMap[b[j]] >> prefixlen; U = S & M; S = (S + U) | (S - U)]. *)
Definition lcs_step (aMap : gmap ascii Z) (prefixlen : Z) (S : Z) (c : ascii) : Z :=
  let M := sar (default 0 (aMap !! c)) prefixlen in
  let U := band S M in
  bor (S + U) (S - U).

(** [FuzzySearch.score_map(a, b, aMap, bonus_prefix)] *)
Definition score_map (a b : Token) (aMap : omap) (bonus_prefix : Q) : Q :=
  let m := length a in
  let n := length b in
  let k := if (m <? n)%nat then m else n in
  if (k =? 0)%nat then 0%Q
  else
    let sz_score := ((QofN m + QofN n) / (2 * QofN m * QofN n))%Q in
    let prefixlen := if decide (a = b) then k else common_prefix a b in
    let lcs_len :=
      if (prefixlen =? k)%nat then Z.of_nat prefixlen
      else
        match aMap with
        | PV map => llcs_large a b map prefixlen
        | BV map =>
            let m' := Z.of_nat m - Z.of_nat prefixlen in
            let mask := shl 1 m' - 1 in
            let S := fold_left (lcs_step map (Z.of_nat prefixlen))
                       (drop prefixlen b) mask in
            count_bits 33 (band (bnot S) mask) 0 + Z.of_nat prefixlen
        end in
    (sz_score * inject_Z lcs_len * inject_Z lcs_len
     + bonus_prefix * QofN prefixlen)%Q.

(** [FuzzySearch.score(a, b, options)], with the option it reads: the
    longer token of the two, when it has a bit vector, is the one whose
    alphabet map is built. *)
Definition score (a b : Token) (bonus_match_start : Q) : Q :=
  let '(a, b) :=
    if (length a <? length b)%nat && (Z.of_nat (length b) <? BVMAXSIZE)
    then (b, a) else (a, b) in
  score_map a b (bitVector a) bonus_match_start.

End Old.
(** * Specification-side definitions *)

(** What the single-token scorer is claimed to return: 0 outside the size
    gate, else [sz * llcs(a,b)^2 + bonus_match_start * p] with [p] the length
    of the common prefix and [llcs] the length of the longest common
    subsequence. *)
Definition claimed_score (options : Options) (a b : Token) : Q :=
  let m := length a in
  let n := length b in
  if size_gate options m n then 0%Q
  else
    let sz := ((QofN m + QofN n) / (2 * QofN m * QofN n))%Q in
    (sz * QofN (llcs a b) * QofN (llcs a b)
     + bonus_match_start options * QofN (common_prefix a b))%Q.

(** The value of [lcs_len] in the bit-parallel branch of [score_map], for
    the alphabet map of [a] and the common prefix of [a] and [b]. *)
Definition lcs_len_short (a b : Token) : Z :=
  lcs_bits (Z.of_nat (length a)) b (bitVector a ∅ 0) (common_prefix a b).

(** The value returned by [llcs_large] on the same strings and prefix. *)
Definition lcs_len_long (a b : Token) : Z :=
  llcs_large a b (posVector a) (common_prefix a b).


(** ** Lanes of a packed group *)

(** Sum of the lengths of the tokens. *)
Definition total_length (toks : list Token) : Z :=
  fold_right (fun t acc => Z.of_nat (length t) + acc) 0 toks.

(** First bit of the lane of the token at index [k]: the value of [offset]
    when [score_pack] reaches it. *)
Fixpoint lane_offset (toks : list Token) (k : nat) : Z :=
  match k, toks with
  | S k', t :: rest => Z.of_nat (length t) + lane_offset rest k'
  | _, _ => 0
  end.

(** The int an alphabet map gives for a character (0 when it is not a key). *)
Definition map_bits (m : amap) (c : ascii) : Z :=
  match m !! c with
  | Some v => bits_of v
  | None => 0
  end.

(** The bit [b] of the map entry of [c] is set exactly when [c] is the
    character at some position [i] of some token [k] and [b] is the bit
    [i] of the lane of [k]. *)
Definition lanes_hold (toks : list Token) (m : amap) : Prop :=
  forall c b, 0 <= b ->
    Z.testbit (map_bits m c) b = true <->
    exists k t i, toks !! k = Some t /\ t !! i = Some c
                  /\ b = lane_offset toks k + Z.of_nat i.

(** No bit belongs to two lanes, or twice to one. *)
Definition lanes_disjoint (toks : list Token) : Prop :=
  forall k k' t t' (i i' : nat),
    toks !! k = Some t -> toks !! k' = Some t' ->
    (i < length t)%nat -> (i' < length t')%nat ->
    lane_offset toks k + Z.of_nat i = lane_offset toks k' + Z.of_nat i' ->
    k = k' /\ i = i'.

(** The gate has ones on the bits of a lane, except on its top bit. *)
Definition gate_holds (toks : list Token) (gate : Z) : Prop :=
  forall k t, toks !! k = Some t ->
    Z.testbit gate (lane_offset toks k + Z.of_nat (length t) - 1) = false
    /\ forall i, 0 <= i < Z.of_nat (length t) - 1 ->
         Z.testbit gate (lane_offset toks k + i) = true.

(** A group of short tokens packed in one int. *)
Record packed_group (g : PackInfo) : Prop := {
  pg_nonempty : tokens g <> [];
  pg_total : total_length (tokens g) < INT_SIZE;
  pg_disjoint : lanes_disjoint (tokens g);
  pg_lanes : lanes_hold (tokens g) (map g);
  pg_gate : gate_holds (tokens g) (gate g)
}.

(** A group made of one long token, with the position-vector alphabet. *)
Definition large_group (g : PackInfo) : Prop :=
  exists t, INT_SIZE <= Z.of_nat (length t)
            /\ g = new_PackInfo [t] (posVector t) 0xFFFFFFFF.

(** ** The fixed part of a query *)

(** Two groups with the same tokens, alphabet map and gate: they differ at
    most by the arrays [score_item], [score_field] and [field_pos]. *)
Definition same_group (g g' : PackInfo) : Prop :=
  tokens g = tokens g' /\ map g = map g' /\ gate g = gate g'.

(** Two queries that differ at most by [fused_score] and by the score
    arrays of their groups. *)
Definition same_static (q q' : Query) : Prop :=
  normalized q = normalized q'
  /\ fused_str q = fused_str q'
  /\ fused_map q = fused_map q'
  /\ single q = single q'
  /\ Forall2 same_group (tokens_groups q) (tokens_groups q').

(** Two engines with the same options, source, keys, index and [dirty]
    flag: they differ at most by [query], [results], [start_time] and
    [search_time]. *)
Definition same_engine {Item Out : Type} (this this' : @FuzzySearch Item Out) : Prop :=
  options this' = options this
  /\ sorter this' = sorter this
  /\ output_map this' = output_map this
  /\ source this' = source this
  /\ keys this' = keys this
  /\ dirty this' = dirty this
  /\ index this' = index this.

(** ** Scores kept for an item *)



(** ** Assignments of columns to rows *)

(** The score of the pair made of a row and the column [j]; the column [-1]
    stands for "no column" and gives 0. *)
Definition pair_score (row : list Q) (j : Z) : Q :=
  if j =? -1 then 0%Q else default 0%Q (row !! Z.to_nat j).

(** The sum of the scores of the matched pairs. *)
Fixpoint total_score (C : list (list Q)) (assignment : list Z) : Q :=
  match C, assignment with
  | row :: C', j :: assignment' => (pair_score row j + total_score C' assignment')%Q
  | _, _ => 0%Q
  end.

(** A mapping gives every row a column or [-1]; a matched pair is in the
    grid, below column 32, and its score is not under the threshold of the
    row; no column is given to two rows. *)
Definition valid_mapping (C : list (list Q)) (thresholds : list Q)
    (assignment : list Z) : Prop :=
  length assignment = length C
  /\ (forall i j, assignment !! i = Some j -> j <> -1 ->
        exists row s, C !! i = Some row /\ 0 <= j < 32
                      /\ row !! Z.to_nat j = Some s
                      /\ forall t, thresholds !! i = Some t -> (t <= s)%Q)
  /\ (forall i i' j, assignment !! i = Some j -> assignment !! i' = Some j ->
        j <> -1 -> i = i').

(** ** Auxiliary definitions used by the proofs *)

(** Number of bits set among the [n] low bits of [x]. *)
Fixpoint bitcount (n : nat) (x : Z) : Z :=
  match n with
  | O => 0
  | S n' => Z.b2z (Z.odd x) + bitcount n' (x / 2)
  end.

(** The steps of [popcount32] on a 16-bit half. *)
Definition pop_half1 (h : Z) : Z := h - Z.land (h / 2) 0x5555.
Definition pop_half2 (h : Z) : Z := Z.land h 0x3333 + Z.land (h / 4) 0x3333.
Definition pop_half3 (h : Z) : Z := Z.land (h + h / 16) 0x0F0F.

(** What is checked of every 16-bit value [h]. *)
Definition pop_half_ok (h : Z) : bool :=
  let a := pop_half1 h in
  let b := pop_half2 a in
  let c := pop_half3 b in
  (0 <=? a) && (a <=? h)
  && (0 <=? b) && (b <=? 0x4444) && (b mod 16 <=? 4)
  && (0 <=? c) && (c mod 256 <=? 8) && (c / 256 <=? 8)
  && (c mod 256 + c / 256 =? bitcount 16 h).

(** [P] holds of [x * 2^n + h] for every [h] of [n] bits. *)
Fixpoint forall_bits (n : nat) (P : Z -> bool) (x : Z) : bool :=
  match n with
  | O => P x
  | S n' => forall_bits n' P (2 * x) && forall_bits n' P (2 * x + 1)
  end.

(** ** Example engines *)

(** A source of strings indexed directly ([keys = []]): every item is its
    own single field; the normalization of these lowercase ASCII strings
    leaves them as they are. *)
Definition example_fields (it : string) (keys : list string) : list string := [it].

Definition example_engine (options : Options) (source : list string)
  : @FuzzySearch string (SearchResult string) :=
  mkFuzzySearch options (Some compareResults) (fun r _ _ => r) source [] false
    (index_item tok example_fields options [] <$> source) None [] 0 0.


(** The default options, with a negative [thresh_include]. *)
Definition options_negative_threshold : Options := {|
  minimum_match := 1;
  thresh_include := -1;
  thresh_relative_to_best := 5 # 10;
  field_good_enough := 20;
  bonus_match_start := 5 # 10;
  bonus_token_order := 2;
  bonus_position_decay := 7 # 10;
  score_per_token := true;
  score_test_fused := false;
  score_round := 1 # 10;
  output_limit := 0;
  token_query_min_length := 2;
  token_field_min_length := 3;
  token_query_max_length := 64;
  token_field_max_length := 64;
  token_fused_max_length := 64;
  token_min_rel_size := 6 # 10;
  token_max_rel_size := 6
|}.

(** ** The assignment solver without its cache *)

(** A child that computes its score with [f] and leaves the cache alone. *)
Definition pure_child (f : Z -> Q) : Assign.cache -> Z -> Q * Assign.cache :=
  fun c key => (f key, c).

(** [_buildScoreTree] when no call finds its key in the cache: the best
    score and the best index for the rows, given the columns in use. *)
Fixpoint solve (rows : list (list Q)) (thresholds : list Q) (used_mask : Z)
  : Q * Z :=
  match rows with
  | [] => (0%Q, -1)
  | row :: rest =>
      let child :=
        match rest with
        | [] => None
        | _ :: _ =>
            Some (pure_child (fun key => fst (solve rest (tail thresholds) key)))
        end in
      let '(bestscore, bestindex, _) :=
        Assign.row_scan child (head thresholds) used_mask (take 32 row) 0 0 (-1) ∅ in
      match child with
      | Some f =>
          let '(score, _) := f ∅ used_mask in
          if Qgtb score bestscore then (score, -1) else (bestscore, bestindex)
      | None => (bestscore, bestindex)
      end
  end.

(** [used |= (1 << j)] when [j > -1]. *)
Definition next_used (used : Z) (j : Z) : Z :=
  if j >? -1 then bor used (shl 1 j) else used.

(** The columns chosen by [solve], row after row. *)
Fixpoint best_path (rows : list (list Q)) (thresholds : list Q) (used : Z)
  : list Z :=
  match rows with
  | [] => []
  | _ :: rest =>
      let j := snd (solve rows thresholds used) in
      j :: best_path rest (tail thresholds) (next_used used j)
  end.

(** A mapping for the rows that avoids the columns in use: the recursive
    form of [valid_mapping]. *)
Fixpoint valid_from (rows : list (list Q)) (thresholds : list Q) (used : Z)
    (assignment : list Z) : Prop :=
  match rows, assignment with
  | [], [] => True
  | row :: rest, j :: assignment' =>
      (j = -1 /\ valid_from rest (tail thresholds) used assignment')
      \/ (0 <= j /\ (exists s, row !! Z.to_nat j = Some s
                               /\ Assign.below s (head thresholds) = false)
          /\ Z.testbit used j = false
          /\ valid_from rest (tail thresholds) (Z.lor used (2 ^ j)) assignment')
  | _, _ => False
  end.

(** The entries of the cache are the values of [solve], and the entry that
    the best index of an entry leads to is in the cache. *)
Definition cache_inv (C : list (list Q)) (thresholds : list Q)
    (c : Assign.cache) : Prop :=
  forall d u e, c !! (d, u) = Some e ->
    e = solve (drop d C) (drop d thresholds) u
    /\ ((S d < length C)%nat -> is_Some (c !! (S d, next_used u (snd e)))).

(** No key leaves the cache. *)
Definition grows (c c' : Assign.cache) : Prop :=
  forall k, is_Some (c !! k) -> is_Some (c' !! k).

(** The scan of a row with children that do not use the cache. *)
Definition pure_scan (h : option (Z -> Q)) (include_thresh : option Q)
    (used_mask : Z) (row : list Q) (j : Z) (bestscore : Q) (bestindex : Z)
  : Q * Z :=
  let '(bs, bi, _) :=
    Assign.row_scan (pure_child <$> h) include_thresh used_mask row j
      bestscore bestindex ∅ in
  (bs, bi).

(** The score of the candidate column [j]: its own score plus the score of
    the rows below, with [j] in use. *)
Definition cand_value (h : option (Z -> Q)) (used_mask : Z) (j : Z) (score : Q) : Q :=
  match h with
  | Some f => (score + f (bor used_mask (shl 1 j)))%Q
  | None => score
  end.

(** The score of the rows below a row, as a function of the columns in use
    ([None] under the last row). *)
Definition below_rows (rest : list (list Q)) (thresholds : list Q)
  : option (Z -> Q) :=
  match rest with
  | [] => None
  | _ :: _ => Some (fun key => fst (solve rest thresholds key))
  end.

(** A child that uses the cache agrees with the function [h]: same score,
    and it leaves a cache that satisfies the invariant and holds the key. *)
Definition child_ok (C : list (list Q)) (thresholds : list Q) (depth : nat)
    (f : Assign.cache -> Z -> Q * Assign.cache) (h : Z -> Q) : Prop :=
  forall c key, cache_inv C thresholds c ->
    fst (f c key) = h key
    /\ cache_inv C thresholds (snd (f c key))
    /\ grows c (snd (f c key))
    /\ is_Some (snd (f c key) !! (S depth, key)).

(** ** Inputs of the examples *)

(** A grid of scores with two rows that prefer the same column, and the
    thresholds of its rows. *)
Definition example_grid : list (list Q) := [[3; 1]; [2; 0]]%Q.
Definition example_thresholds : list Q := [1; 1]%Q.

(** The first row takes the second column and leaves the first column to
    the second row. *)
Definition example_mapping : list Z := [1; 0].


(** ** Statements about the code outside the claims *)

(** No column is matched by two rows. *)
Definition injective_match (match_ : list Z) : Prop :=
  forall i i' j, match_ !! i = Some j -> match_ !! i' = Some j -> j <> -1 -> i = i'.

(** Every entry is -1 or a column under [n]. *)
Definition match_within (match_ : list Z) (n : nat) : Prop :=
  forall i j, match_ !! i = Some j -> j = -1 \/ 0 <= j < Z.of_nat n.

(** ** The table of the longest common subsequence, by differences *)

(** The entry [i] of the row of [b] in the table of [a]: [true] when the
    prefix of length [i + 1] of [a] has no longer common subsequence with
    [b] than the prefix of length [i]. *)
Definition row_bit (a b : Token) (i : nat) : bool :=
  (llcs (take (S i) a) b =? llcs (take i a) b)%nat.

(** Whether a character added to [b] makes the common subsequence of the
    prefix of length [i] of [a] longer. *)
Definition column_bit (a b : Token) (c : ascii) (i : nat) : bool :=
  negb (llcs (take i a) (b ++ [c]) =? llcs (take i a) b)%nat.

(** The bits of [S] from [o] on hold the row of [b] in the table of [a]. *)
Definition lane_inv (S o : Z) (a b : Token) : Prop :=
  forall i : nat, (i < length a)%nat ->
    Z.testbit S (o + Z.of_nat i) = row_bit a b i.

(** The bits from [o] on of the entry of every character hold the places of
    the character in [a]. *)
Definition lane_map (m : amap) (o : Z) (a : Token) : Prop :=
  forall (c : ascii) (i : nat), (i < length a)%nat ->
    Z.testbit (map_bits m c) (o + Z.of_nat i) = bool_decide (a !! i = Some c).

(** The gate lets the carries through inside the lane, and no carry enters
    the lane. *)
Definition lane_gate (ZM o : Z) (a : Token) : Prop :=
  (forall i : nat, (S i < length a)%nat -> Z.testbit ZM (o + Z.of_nat i) = true)
  /\ (o = 0 \/ Z.testbit ZM (o - 1) = false).

(** One turn of the sweep of [score_pack] on the int [M] of the character;
    with a gate of ones it is the turn of [score_map]. *)
Definition step_val (ZM S M : Z) : Z :=
  let U := band S M in
  bor (band S ZM + band U ZM) (S - U).

(** Number of [i] in [start, start + n) with [f i = true]. *)
Fixpoint count_from (f : nat -> bool) (start n : nat) : Z :=
  match n with
  | O => 0
  | S n' => Z.b2z (f start) + count_from f (S start) n'
  end.

(** The factor [(m + n) / (2 m n)] that normalizes a score against the
    lengths of the two tokens. *)
Definition sz_score (a b : Token) : Q :=
  ((QofN (length a) + QofN (length b)) / (2 * QofN (length a) * QofN (length b)))%Q.

(** What the bit-parallel branch of [score_map] counts for the alphabet map
    of [a]: the sweep starts after the common prefix of length [p] in [b],
    but on the whole of [a]. *)
Definition short_path_value (a b : Token) : Z :=
  let p := common_prefix a b in
  Z.of_nat (llcs a (drop p b)) - Z.of_nat (llcs (take p a) (drop p b)) + Z.of_nat p.

(** ** What the score of an item reads *)

(** Two groups that differ at most by the arrays [score_field] and
    [field_pos], which scoring writes before it reads them. *)
Definition same_scores_group (g g' : PackInfo) : Prop :=
  tokens g = tokens g' /\ map g = map g' /\ gate g = gate g'
  /\ score_item g = score_item g'.

(** Two queries that differ at most by these arrays. *)
Definition same_scores (q q' : Query) : Prop :=
  normalized q = normalized q'
  /\ fused_str q = fused_str q'
  /\ fused_score q = fused_score q'
  /\ fused_map q = fused_map q'
  /\ single q = single q'
  /\ Forall2 same_scores_group (tokens_groups q) (tokens_groups q').

(** The lengths of the [score_item] arrays of a query. *)
Definition score_shape (q : Query) : list nat :=
  (fun g => length (score_item g)) <$> tokens_groups q.

(** The score of an item of the index for a query, and the index of its
    best field. *)
Definition item_score {Item : Type} (this : Options) (q : Query)
    (it : Indexed Item) : Q * Z :=
  fst (item_score_of this q (fields it)).

(** The results that [search] keeps: the ones pushed by [_searchIndex],
    filtered by the threshold it returns. *)
Definition kept_results {Item : Type} (this : Options) (q : Query)
    (index : list (Indexed Item)) : list (SearchResult Item) :=
  let run := fst (_searchIndex this q index []) in
  filterGTE (sl_results run) (sl_thresh_include run).

Section EngineSpec.

Context {Item Out : Type}.
Variable normalize : string -> Token.
Variable generateFields : Item -> list string -> list string.

(** The index that [search] runs on: built anew when the engine is dirty. *)
Definition current_index (this : @FuzzySearch Item Out) : list (Indexed Item) :=
  if dirty this then
    index_item normalize generateFields (options this) (keys this) <$> source this
  else index this.

(** The results after [results.sort(this.sorter)], when [sorter] is a
    function. *)
Definition sorted_results (this : @FuzzySearch Item Out)
    (l : list (SearchResult Item)) : list (SearchResult Item) :=
  match sorter this with
  | Some f => array_sort f l
  | None => l
  end.

End EngineSpec.

(** The result that [_searchIndex] pushes for an item that it admits: the
    score is rounded to a multiple of [score_round], the sort key is the
    first field. *)
Definition result_of {Item : Type} (this : Options) (q : Query)
    (it : Indexed Item) : SearchResult Item :=
  mkSearchResult (item it) (fields it)
    (Math_round (fst (item_score this q it) / score_round this) * score_round this)%Q
    (snd (item_score this q it))
    (join_space (hd [] (fields it))).

(** A list of results by decreasing score. *)
Fixpoint sorted_desc {Item : Type} (l : list (SearchResult Item)) : Prop :=
  match l with
  | [] => True
  | a :: rest => Forall (fun b => (sr_score b <= sr_score a)%Q) rest /\ sorted_desc rest
  end.

(** The example engine with a limit on the number of results. *)
Definition options_limit_1 : Options := {|
  minimum_match := 1;
  thresh_include := 2;
  thresh_relative_to_best := 5 # 10;
  field_good_enough := 20;
  bonus_match_start := 5 # 10;
  bonus_token_order := 2;
  bonus_position_decay := 7 # 10;
  score_per_token := true;
  score_test_fused := false;
  score_round := 1 # 10;
  output_limit := 1;
  token_query_min_length := 2;
  token_field_min_length := 3;
  token_query_max_length := 64;
  token_field_max_length := 64;
  token_fused_max_length := 64;
  token_min_rel_size := 6 # 10;
  token_max_rel_size := 6
|}.

(** The positions of a character in a string, in increasing order, counted
    from [i]. *)
Fixpoint positions (c : ascii) (pattern : Token) (i : Z) : list pos :=
  match pattern with
  | [] => []
  | x :: rest =>
      if decide (x = c) then Fin i :: positions c rest (i + 1)
      else positions c rest (i + 1)
  end.

(** A string of a length between two bounds. *)
Definition within_size (minSize maxSize : Z) (s : Token) : Prop :=
  minSize <= Z.of_nat (length s) <= maxSize.

(** The score of two tokens by their longest common subsequence, without a
    size gate: what the scorer of [src/FuzzySearch.js] is meant to return. *)
Definition llcs_score (bonus : Q) (a b : Token) : Q :=
  (sz_score a b * QofN (llcs a b) * QofN (llcs a b)
   + bonus * QofN (common_prefix a b))%Q.


(** ** The results of a search, by the running threshold *)

(** The larger of two scores. *)
Definition Qmaxb (x y : Q) : Q := if Qgtb y x then y else x.







(** ** The score of an item, by the best scores of the lanes *)

(** The scores of the tokens of a group against a token of a field, one per
    lane. *)
Definition group_scores (this : Options) (g : PackInfo) (token : Token) : list Q :=
  if (length (tokens g) =? 1)%nat then
    [score_map (hd [] (tokens g)) token (map g) this]
  else score_pack g token this.

(** The score of the lane [i] of a group against a token of a field. *)
Definition lane_score (this : Options) (g : PackInfo) (i : nat) (token : Token) : Q :=
  default 0%Q (group_scores this g token !! i).

(** The best score of a lane in a field, and across fields; a best score
    is never under 0. *)
Definition lane_best_field (this : Options) (g : PackInfo) (i : nat)
    (field : list Token) : Q :=
  fold_left (fun best token => Qmaxb best (lane_score this g i token)) field 0%Q.

Definition lane_best (this : Options) (g : PackInfo) (i : nat)
    (fields : list (list Token)) : Q :=
  fold_left (fun best field => Qmaxb best (lane_best_field this g i field)) fields 0%Q.

(** The best scores of the lanes of a group across fields. *)
Definition lanes_best (this : Options) (g : PackInfo) (fields : list (list Token))
  : list Q :=
  (fun i => lane_best this g i fields) <$> seq 0 (length (tokens g)).

(** The best score of the fused query across fields, when the fused query
    is tested. *)
Definition fused_best (this : Options) (q : Query) (fields : list (list Token)) : Q :=
  if score_test_fused this then
    fold_left
      (fun best field =>
         Qmaxb best (score_map (fused_str q) (join_space field) (fused_map q) this))
      fields 0%Q
  else 0%Q.

(** [query_score] as the specification gives it: the sum over the groups
    of the best score of each lane across the fields, or the best fused
    score when it is greater. *)
Definition lanes_query_score (this : Options) (q : Query)
    (fields : list (list Token)) : Q :=
  let lanes :=
    fold_left (fun acc g => fold_left Qplus (lanes_best this g fields) acc)
      (tokens_groups q) 0%Q in
  if Qgtb (fused_best this q fields) lanes then fused_best this q fields else lanes.

(** The score of a field for a query, before the position bonus. *)
Definition field_value (this : Options) (q : Query) (field : list Token) : Q :=
  fst (field_score_of this field q).

(** The best position-boosted field score: the field at position [k] is
    boosted by [1 + bonus_position_decay ^ k]. *)
Fixpoint best_boosted (this : Options) (q : Query) (fields : list (list Token))
    (position_bonus best : Q) : Q :=
  match fields with
  | [] => best
  | field :: rest =>
      best_boosted this q rest (position_bonus * bonus_position_decay this)
        (Qmaxb best (field_value this q field * (1 + position_bonus)))
  end.

(** The score of an item as the specification gives it, from a list of
    fields. *)
Definition mixed_score (this : Options) (q : Query) (fields : list (list Token)) : Q :=
  let best := best_boosted this q fields 1 0 in
  if score_per_token this && negb (single q) then
    ((5 # 10) * best + (5 # 10) * lanes_query_score this q fields)%Q
  else best.

(** The fields that the loop of [_searchIndex] evaluates: the fields up to
    the first one whose boosted score is a new best over
    [field_good_enough]. *)
Fixpoint evaluated_fields (this : Options) (q : Query) (fields : list (list Token))
    (position_bonus best : Q) : list (list Token) :=
  match fields with
  | [] => []
  | field :: rest =>
      let boosted := (field_value this q field * (1 + position_bonus))%Q in
      if Qgtb boosted best && Qgtb boosted (field_good_enough this) then [field]
      else
        field :: evaluated_fields this q rest
                   (position_bonus * bonus_position_decay this) (Qmaxb best boosted)
  end.

(** The score arrays of a query have one entry per token. *)
Definition well_shaped (q : Query) : Prop :=
  Forall (fun g => length (score_item g) = length (tokens g)) (tokens_groups q).

(** The best scores of all the lanes of a group, kept as a list: the
    running list of best scores against the lists of scores [F x]. *)
Definition pointwise_best {A : Type} (F : A -> list Q) (xs : list A) (acc : list Q)
  : list Q :=
  fold_left (fun acc x => zip_with Qmaxb acc (F x)) xs acc.

(** The best scores of the lanes of a group in one field. *)
Definition field_lanes (this : Options) (g : PackInfo) (field : list Token) : list Q :=
  (fun i => lane_best_field this g i field) <$> seq 0 (length (tokens g)).

(** The lists of best scores of the groups after a field, and after a list
    of fields. *)
Definition lanes_after_field (this : Options) (q : Query) (field : list Token)
    (lanes : list (list Q)) : list (list Q) :=
  zip_with (fun olds g0 => zip_with Qmaxb olds (field_lanes this g0 field))
    lanes (tokens_groups q).

Definition lanes_after (this : Options) (q : Query) (fields : list (list Token))
    (lanes : list (list Q)) : list (list Q) :=
  zip_with (fun olds g0 => pointwise_best (field_lanes this g0) fields olds)
    lanes (tokens_groups q).

(** The best fused score after a list of fields, from the best so far. *)
Definition fused_after (this : Options) (q : Query) (fields : list (list Token))
    (best : Q) : Q :=
  if score_test_fused this then
    fold_left
      (fun best field =>
         Qmaxb best (score_map (fused_str q) (join_space field) (fused_map q) this))
      fields best
  else best.

(** The sum of lists of scores, list after list. *)
Definition sum_lists (lanes : list (list Q)) : Q :=
  fold_left (fun acc l => fold_left Qplus l acc) lanes 0%Q.
(** * Theorems *)

(** ** Single-token scorer *)

(** C1.  On ["aa"] against ["axa"] the size gate is passed, the common
    prefix has length 1 and the longest common subsequence has length 2, so
    the claimed score is [5/12 * 2^2 + 0.5 * 1 = 13/6]; [score_map] computes
    [lcs_len = 1] in its bit-parallel branch and returns
    [5/12 * 1^2 + 0.5 * 1 = 11/12]. *)
Theorem score_map_aa_axa :
  let a := tok "aa" in
  let b := tok "axa" in
  size_gate defaultOptions (length a) (length b) = false
  /\ common_prefix a b = 1%nat
  /\ llcs a b = 2%nat
  /\ lcs_len_map a b (alphabet a) 1 2 = 1
  /\ (score_map a b (alphabet a) defaultOptions == 11 # 12)%Q
  /\ (claimed_score defaultOptions a b == 13 # 6)%Q.
Proof. vm_compute. repeat split; congruence. Qed.

(** C2.  The two algorithms give different values on ["aa"] / ["axa"] (common
    prefix 1: the bit-parallel branch gives 1, [llcs_large] gives 2, which is
    the LLCS) and on ["aba"] / ["baa"] (no common prefix: the bit-parallel
    branch gives 2, which is the LLCS, [llcs_large] gives 3); both give 5 on
    ["surgery"] / ["gsurvey"]. *)
Theorem llcs_short_long_differ :
  (lcs_len_short (tok "aa") (tok "axa") = 1
   /\ lcs_len_long (tok "aa") (tok "axa") = 2
   /\ llcs (tok "aa") (tok "axa") = 2%nat)
  /\ (lcs_len_short (tok "aba") (tok "baa") = 2
      /\ lcs_len_long (tok "aba") (tok "baa") = 3
      /\ llcs (tok "aba") (tok "baa") = 2%nat)
  /\ (lcs_len_short (tok "surgery") (tok "gsurvey") = 5
      /\ lcs_len_long (tok "surgery") (tok "gsurvey") = 5
      /\ llcs (tok "surgery") (tok "gsurvey") = 5%nat).
Proof. vm_compute. repeat split. Qed.

(** C3.  The tokens ["aa"] and ["bb"] are packed in one group; against the
    field token ["axa"] the packed scorer gives [13/6] to the lane of ["aa"]
    (LLCS 2), and the single-token scorer gives [11/12] to the pair
    (["aa"], ["axa"]). *)
Theorem score_pack_aa_axa :
  exists g,
    pack_tokens [tok "aa"; tok "bb"] = [g]
    /\ tokens g = [tok "aa"; tok "bb"]
    /\ Forall2 Qeq (score_pack g (tok "axa") defaultOptions) [13 # 6; 0]%Q
    /\ (score_map (tok "aa") (tok "axa") (alphabet (tok "aa")) defaultOptions
        == 11 # 12)%Q
    /\ (score_map (tok "bb") (tok "axa") (alphabet (tok "bb")) defaultOptions
        == 0)%Q.
Proof.
  eexists. split; [reflexivity|]. split; [reflexivity|].
  split; [|split; vm_compute; reflexivity].
  vm_compute. repeat constructor.
Qed.

(** ** 32-bit operators on small values *)

Lemma to_int32_id z : - 2 ^ 31 <= z < 2 ^ 31 -> to_int32 z = z.
Proof. intros H. unfold to_int32. rewrite Z.mod_small; lia. Qed.

Lemma pow2_lt_mono (a b : Z) : 0 <= a < b -> 2 ^ a < 2 ^ b.
Proof. intros H. apply Z.pow_lt_mono_r; lia. Qed.

Lemma pow2_le_mono (a b : Z) : 0 <= a <= b -> 2 ^ a <= 2 ^ b.
Proof. intros H. apply Z.pow_le_mono_r; lia. Qed.

Lemma shl_small a b :
  0 <= a -> 0 <= b < 32 -> a * 2 ^ b < 2 ^ 31 -> shl a b = a * 2 ^ b.
Proof.
  intros Ha Hb Hlt. unfold shl.
  assert (H2 : 0 < 2 ^ b) by (apply Z.pow_pos_nonneg; lia).
  rewrite (Z.mod_small b 32) by lia.
  rewrite (to_int32_id a) by nia.
  rewrite Z.shiftl_mul_pow2 by lia.
  apply to_int32_id. nia.
Qed.

Lemma shl_1 b : 0 <= b < 31 -> shl 1 b = 2 ^ b.
Proof.
  intros Hb. rewrite shl_small; [lia|lia|lia|].
  rewrite Z.mul_1_l. apply pow2_lt_mono. lia.
Qed.

Lemma bor_small a b :
  0 <= a < 2 ^ 31 -> 0 <= b < 2 ^ 31 -> bor a b = Z.lor a b.
Proof. intros Ha Hb. unfold bor. rewrite !to_int32_id; lia. Qed.

Lemma testbit_pow2 (b i : Z) :
  0 <= b -> Z.testbit (2 ^ b) i = bool_decide (i = b).
Proof.
  intros Hb. case_bool_decide as H.
  - subst. apply Z.pow2_bits_true. lia.
  - apply Z.pow2_bits_false. lia.
Qed.

Lemma lor_bounded (k a b : Z) :
  0 <= k -> 0 <= a < 2 ^ k -> 0 <= b < 2 ^ k -> 0 <= Z.lor a b < 2 ^ k.
Proof.
  intros Hk Ha Hb.
  assert (H0 : 0 <= Z.lor a b) by (apply Z.lor_nonneg; lia).
  split; [exact H0|].
  apply (Z.bounded_iff_bits_nonneg k); [lia|exact H0|].
  intros l Hl. rewrite Z.lor_spec.
  rewrite (proj1 (Z.bounded_iff_bits_nonneg k a ltac:(lia) ltac:(lia)) ltac:(lia) l Hl).
  rewrite (proj1 (Z.bounded_iff_bits_nonneg k b ltac:(lia) ltac:(lia)) ltac:(lia) l Hl).
  reflexivity.
Qed.

(** ** The alphabet map of packed tokens *)

(** Every value of the map is an int below [2 ^ k]. *)
Definition map_below (m : amap) (k : Z) : Prop :=
  forall c v, m !! c = Some v -> exists x, v = MBits x /\ 0 <= x < 2 ^ k.

Lemma map_below_mono m k k' : 0 <= k <= k' -> map_below m k -> map_below m k'.
Proof.
  intros Hk H c v Hc. destruct (H c v Hc) as (x & -> & Hx).
  exists x. split; [reflexivity|]. pose proof (pow2_le_mono k k' Hk). lia.
Qed.

Lemma map_bits_below m k c : 0 <= k -> map_below m k -> 0 <= map_bits m c < 2 ^ k.
Proof.
  intros Hk H. unfold map_bits. destruct (m !! c) as [v|] eqn:E.
  - destruct (H c v E) as (x & -> & Hx). exact Hx.
  - split; [lia|]. apply Z.pow_pos_nonneg; lia.
Qed.

(** One character recorded at the bit [offset]. *)
Definition record_char (c : ascii) (m : amap) (offset : Z) : amap :=
  match m !! c with
  | Some v => <[c := MBits (bor (bits_of v) (shl 1 offset))]> m
  | None => <[c := MBits (shl 1 offset)]> m
  end.

Lemma bitVector_cons c rest m offset :
  bitVector (c :: rest) m offset = bitVector rest (record_char c m offset) (offset + 1).
Proof. reflexivity. Qed.

Lemma record_char_bits c0 m offset :
  0 <= offset < 31 -> map_below m offset ->
  map_below (record_char c0 m offset) (offset + 1)
  /\ forall c, map_bits (record_char c0 m offset) c
               = if decide (c = c0) then Z.lor (map_bits m c) (2 ^ offset)
                 else map_bits m c.
Proof.
  intros Hoff Hm.
  assert (Hp : 0 <= 2 ^ offset < 2 ^ (offset + 1)).
  { split; [apply Z.pow_nonneg; lia | apply pow2_lt_mono; lia]. }
  assert (Hp31 : 2 ^ (offset + 1) <= 2 ^ 31) by (apply pow2_le_mono; lia).
  assert (Hval : exists x, 0 <= x < 2 ^ (offset + 1)
                 /\ x = Z.lor (map_bits m c0) (2 ^ offset)
                 /\ record_char c0 m offset = <[c0 := MBits x]> m).
  { pose proof (map_bits_below m offset c0 ltac:(lia) Hm) as Hb.
    assert (Hlo : 0 <= Z.lor (map_bits m c0) (2 ^ offset) < 2 ^ (offset + 1)).
    { apply lor_bounded; lia. }
    exists (Z.lor (map_bits m c0) (2 ^ offset)). split; [exact Hlo|].
    split; [reflexivity|].
    unfold record_char, map_bits in *. rewrite shl_1 by lia.
    destruct (m !! c0) as [v|] eqn:E.
    - rewrite bor_small by lia. reflexivity.
    - rewrite Z.lor_0_l. reflexivity. }
  destruct Hval as (x & Hx & Hxeq & ->). split.
  - intros c v Hc. destruct (decide (c = c0)) as [->|Hne].
    + rewrite lookup_insert_eq in Hc. inversion Hc; subst v. eauto.
    + rewrite lookup_insert_ne in Hc by congruence.
      eapply (map_below_mono m offset); [lia|exact Hm|exact Hc].
  - intros c. unfold map_bits at 1. destruct (decide (c = c0)) as [->|Hne].
    + rewrite lookup_insert_eq. simpl. exact Hxeq.
    + rewrite lookup_insert_ne by congruence. reflexivity.
Qed.

Lemma bitVector_bits t :
  forall m offset,
    0 <= offset -> offset + Z.of_nat (length t) <= 31 -> map_below m offset ->
    map_below (bitVector t m offset) (offset + Z.of_nat (length t))
    /\ forall c b, 0 <= b ->
         (Z.testbit (map_bits (bitVector t m offset) c) b = true <->
          Z.testbit (map_bits m c) b = true
          \/ exists i : nat, t !! i = Some c /\ b = offset + Z.of_nat i).
Proof.
  induction t as [|c0 rest IH]; intros m offset Hoff Hlen Hm.
  - simpl. rewrite Z.add_0_r. split; [exact Hm|].
    intros c b Hb. split; [auto|]. intros [H|(i & Hi & _)]; [exact H|].
    rewrite lookup_nil in Hi. discriminate.
  - rewrite bitVector_cons. cbn [length] in *.
    destruct (record_char_bits c0 m offset ltac:(lia) Hm) as [Hbelow Hbits].
    destruct (IH (record_char c0 m offset) (offset + 1) ltac:(lia) ltac:(lia) Hbelow)
      as [Hbelow' Hbits'].
    split.
    + replace (offset + Z.of_nat (S (length rest)))
        with (offset + 1 + Z.of_nat (length rest)) by lia.
      exact Hbelow'.
    + intros c b Hb. rewrite (Hbits' c b Hb), Hbits.
      destruct (decide (c = c0)) as [->|Hne].
      * rewrite Z.lor_spec, testbit_pow2 by lia. rewrite orb_true_iff.
        rewrite bool_decide_eq_true. split.
        -- intros [[H|H]|(i & Hi & Hbi)].
           ++ left. exact H.
           ++ right. exists 0%nat. split; [reflexivity|lia].
           ++ right. exists (S i). split; [exact Hi|lia].
        -- intros [H|(i & Hi & Hbi)].
           ++ left. left. exact H.
           ++ destruct i as [|i].
              ** left. right. lia.
              ** right. exists i. split; [exact Hi|lia].
      * split.
        -- intros [H|(i & Hi & Hbi)].
           ++ left. exact H.
           ++ right. exists (S i). split; [exact Hi|lia].
        -- intros [H|(i & Hi & Hbi)].
           ++ left. exact H.
           ++ destruct i as [|i].
              ** simpl in Hi. congruence.
              ** right. exists i. split; [exact Hi|lia].
Qed.

(** ** Lanes *)

Lemma total_length_app l l' :
  total_length (l ++ l') = total_length l + total_length l'.
Proof. induction l as [|t l IH]; simpl; [reflexivity|]. rewrite IH. lia. Qed.

Lemma total_length_nonneg l : 0 <= total_length l.
Proof. induction l as [|t l IH]; simpl; lia. Qed.

Lemma lane_offset_nonneg toks k : 0 <= lane_offset toks k.
Proof.
  revert k. induction toks as [|t toks IH]; intros [|k]; simpl; try lia.
  specialize (IH k). lia.
Qed.

Lemma lane_offset_app_l l l' k :
  (k <= length l)%nat -> lane_offset (l ++ l') k = lane_offset l k.
Proof.
  revert k. induction l as [|t l IH]; intros [|k] Hk; simpl in *; try lia.
  - destruct l'; reflexivity.
  - rewrite IH by lia. reflexivity.
Qed.

Lemma lane_offset_length l : lane_offset l (length l) = total_length l.
Proof. induction l as [|t l IH]; simpl; [reflexivity|]. rewrite IH. reflexivity. Qed.

Lemma lane_offset_end toks k t :
  toks !! k = Some t ->
  lane_offset toks k + Z.of_nat (length t) = lane_offset toks (S k).
Proof.
  revert k. induction toks as [|t0 toks IH]; intros [|k] Hk; simpl in *; try discriminate.
  - inversion Hk; subst. destruct toks; simpl; lia.
  - rewrite <- (IH k Hk). simpl. lia.
Qed.

Lemma lane_offset_mono toks k k' :
  (k <= k')%nat -> lane_offset toks k <= lane_offset toks k'.
Proof.
  revert k k'. induction toks as [|t toks IH]; intros [|k] [|k'] Hk; simpl; try lia.
  - pose proof (lane_offset_nonneg toks k'). lia.
  - specialize (IH k k'). lia.
Qed.

Lemma lane_offset_le_total toks k : lane_offset toks k <= total_length toks.
Proof.
  revert k. induction toks as [|t toks IH]; intros [|k]; simpl; try lia.
  - pose proof (total_length_nonneg toks). lia.
  - specialize (IH k). lia.
Qed.

Lemma lanes_disjoint_all toks : lanes_disjoint toks.
Proof.
  intros k k' t t' i i' Hk Hk' Hi Hi' Heq.
  pose proof (lane_offset_end toks k t Hk) as Ek.
  pose proof (lane_offset_end toks k' t' Hk') as Ek'.
  destruct (Nat.lt_trichotomy k k') as [Hlt|[->|Hgt]].
  - pose proof (lane_offset_mono toks (S k) k' ltac:(lia)). lia.
  - split; [reflexivity|lia].
  - pose proof (lane_offset_mono toks (S k') k ltac:(lia)). lia.
Qed.

(** ** The gate *)

Lemma gate_mask_bits (l offset b : Z) :
  1 <= l -> 0 <= offset -> offset + l <= 31 -> 0 <= b ->
  shl (shl 1 (l - 1) - 1) offset = Z.shiftl (Z.ones (l - 1)) offset
  /\ 0 <= Z.shiftl (Z.ones (l - 1)) offset < 2 ^ (offset + l)
  /\ Z.testbit (Z.shiftl (Z.ones (l - 1)) offset) b
     = (offset <=? b) && (b <? offset + l - 1).
Proof.
  intros Hl Hoff Hsum Hb.
  assert (Hones : Z.ones (l - 1) = 2 ^ (l - 1) - 1).
  { rewrite Z.ones_equiv. lia. }
  assert (Hp1 : 0 < 2 ^ (l - 1)) by (apply Z.pow_pos_nonneg; lia).
  assert (Hp2 : 0 < 2 ^ offset) by (apply Z.pow_pos_nonneg; lia).
  assert (Hprod : 2 ^ (l - 1) * 2 ^ offset = 2 ^ (offset + l - 1)).
  { rewrite <- Z.pow_add_r by lia. f_equal. lia. }
  assert (Hlt : 2 ^ (offset + l - 1) < 2 ^ (offset + l)) by (apply pow2_lt_mono; lia).
  assert (Hle : 2 ^ (offset + l) <= 2 ^ 31) by (apply pow2_le_mono; lia).
  assert (Hbound : 0 <= (2 ^ (l - 1) - 1) * 2 ^ offset < 2 ^ (offset + l)) by nia.
  split; [|split].
  - rewrite shl_1 by lia. rewrite shl_small by (try lia; nia).
    rewrite Z.shiftl_mul_pow2 by lia. rewrite Hones. reflexivity.
  - rewrite Z.shiftl_mul_pow2 by lia. rewrite Hones. exact Hbound.
  - rewrite Z.shiftl_spec by lia.
    destruct (Z.leb_spec offset b) as [H1|H1]; simpl.
    + destruct (Z.ltb_spec b (offset + l - 1)) as [H2|H2].
      * apply Z.ones_spec_low. lia.
      * apply Z.ones_spec_high. lia.
    + apply Z.testbit_neg_r. lia.
Qed.

(** ** Invariant of the packing loop *)

(** The group under construction: [offset] is the sum of the lengths, every
    recorded bit and every gate bit is below [offset]. *)
Record acc_ok (gt : list Token) (gm : amap) (offset gate : Z) : Prop := {
  acc_offset : offset = total_length gt;
  acc_bound : offset < INT_SIZE;
  acc_below : map_below gm offset;
  acc_lanes : lanes_hold gt gm;
  acc_gate_bound : 0 <= gate < 2 ^ offset;
  acc_gate : gate_holds gt gate
}.

Definition group_ok (g : PackInfo) : Prop := large_group g \/ packed_group g.

Lemma acc_ok_empty : acc_ok [] ∅ 0 0.
Proof.
  split; try reflexivity; try (simpl; lia).
  - intros c v Hc. rewrite lookup_empty in Hc. discriminate.
  - intros c b Hb. unfold map_bits. rewrite lookup_empty, Z.testbit_0_l.
    split; [discriminate|]. intros (k & t & i & Hk & _). rewrite lookup_nil in Hk.
    discriminate.
  - intros k t Hk. rewrite lookup_nil in Hk. discriminate.
Qed.

Lemma add_to_group_ok token gt gm offset gate :
  token <> [] ->
  Z.of_nat (length token) + offset < INT_SIZE ->
  acc_ok gt gm offset gate ->
  let '(gt', gm', offset', gate') := add_to_group token gt gm offset gate in
  acc_ok gt' gm' offset' gate' /\ gt' = gt ++ [token].
Proof.
  intros Hne Hfit [Hoff Hbound Hbelow Hlanes Hgb Hgate]. unfold add_to_group.
  unfold INT_SIZE in *.
  set (l := Z.of_nat (length token)) in *.
  assert (Hl : 1 <= l) by (destruct token; [congruence|subst l; simpl; lia]).
  pose proof (total_length_nonneg gt) as Hnn.
  destruct (bitVector_bits token gm offset ltac:(lia) ltac:(fold l; lia) Hbelow)
    as [Hbelow' Hbits'].
  fold l in Hbelow'.
  assert (Hmask : forall b, 0 <= b ->
            shl (shl 1 (l - 1) - 1) offset = Z.shiftl (Z.ones (l - 1)) offset
            /\ 0 <= Z.shiftl (Z.ones (l - 1)) offset < 2 ^ (offset + l)
            /\ Z.testbit (Z.shiftl (Z.ones (l - 1)) offset) b
               = (offset <=? b) && (b <? offset + l - 1)).
  { intros b Hb. apply gate_mask_bits; lia. }
  destruct (Hmask 0 ltac:(lia)) as (Hshl & Hmb & _).
  assert (Hp : 2 ^ offset <= 2 ^ (offset + l)) by (apply pow2_le_mono; lia).
  assert (Hp31 : 2 ^ (offset + l) <= 2 ^ 31) by (apply pow2_le_mono; lia).
  assert (Hgate' : bor gate (shl (shl 1 (l - 1) - 1) offset)
                   = Z.lor gate (Z.shiftl (Z.ones (l - 1)) offset)).
  { rewrite Hshl. apply bor_small; lia. }
  split; [|reflexivity]. split.
  - rewrite total_length_app. simpl. lia.
  - unfold INT_SIZE. lia.
  - exact Hbelow'.
  - intros c b Hb. rewrite (Hbits' c b Hb), (Hlanes c b Hb). split.
    + intros [(k & t & i & Hk & Hi & Hbi)|(i & Hi & Hbi)].
      * exists k, t, i. split; [|split; [exact Hi|]].
        -- apply lookup_app_l_Some. exact Hk.
        -- rewrite lane_offset_app_l; [exact Hbi|].
           apply lookup_lt_Some in Hk. lia.
      * exists (length gt), token, i. split; [|split; [exact Hi|]].
        -- rewrite lookup_app_r by lia. rewrite Nat.sub_diag. reflexivity.
        -- rewrite lane_offset_app_l by lia. rewrite lane_offset_length. lia.
    + intros (k & t & i & Hk & Hi & Hbi).
      destruct (decide (k < length gt)%nat) as [Hlt|Hge].
      * left. exists k, t, i. rewrite lookup_app_l in Hk by lia.
        rewrite lane_offset_app_l in Hbi by lia. auto.
      * right. exists i. rewrite lookup_app_r in Hk by lia.
        assert (k = length gt) as ->.
        { apply lookup_lt_Some in Hk. simpl in Hk. lia. }
        rewrite Nat.sub_diag in Hk. inversion Hk; subst t.
        split; [exact Hi|].
        rewrite lane_offset_app_l, lane_offset_length in Hbi by lia. lia.
  - rewrite Hgate'. apply lor_bounded; lia.
  - rewrite Hgate'. intros k t Hk.
    destruct (decide (k < length gt)%nat) as [Hlt|Hge].
    + rewrite lookup_app_l in Hk by lia. rewrite lane_offset_app_l by lia.
      destruct (Hgate k t Hk) as [Htop Hin].
      pose proof (lane_offset_end gt k t Hk) as Hend.
      pose proof (lane_offset_le_total gt (S k)) as Hle.
      pose proof (lane_offset_nonneg gt k) as Hk0.
      assert (Ht : 1 <= Z.of_nat (length t) \/ Z.of_nat (length t) = 0) by lia.
      split.
      * destruct Ht as [Ht|Ht].
        -- rewrite Z.lor_spec, Htop.
           destruct (Hmask (lane_offset gt k + Z.of_nat (length t) - 1) ltac:(lia))
             as (_ & _ & ->).
           destruct (Z.leb_spec offset (lane_offset gt k + Z.of_nat (length t) - 1));
             [lia|reflexivity].
        -- rewrite Ht in *. destruct (decide (lane_offset gt k = 0)) as [E|E].
           ++ rewrite E. apply Z.testbit_neg_r. lia.
           ++ rewrite Z.lor_spec.
              replace (lane_offset gt k + 0 - 1) with (lane_offset gt k + 0 - 1) in Htop
                by reflexivity.
              rewrite Htop.
              destruct (Hmask (lane_offset gt k + 0 - 1) ltac:(lia)) as (_ & _ & ->).
              destruct (Z.leb_spec offset (lane_offset gt k + 0 - 1)); [lia|reflexivity].
      * intros i Hi. rewrite Z.lor_spec, (Hin i Hi). reflexivity.
    + rewrite lookup_app_r in Hk by lia.
      assert (k = length gt) as ->.
      { apply lookup_lt_Some in Hk. simpl in Hk. lia. }
      rewrite Nat.sub_diag in Hk. inversion Hk; subst t. fold l.
      rewrite lane_offset_app_l, lane_offset_length by lia. rewrite <- Hoff.
      split.
      * rewrite Z.lor_spec.
        destruct (Hmask (offset + l - 1) ltac:(lia)) as (_ & _ & ->).
        rewrite (proj1 (Z.bounded_iff_bits_nonneg offset gate ltac:(lia) ltac:(lia))
                   ltac:(lia) (offset + l - 1) ltac:(lia)).
        rewrite Z.ltb_irrefl, andb_false_r. reflexivity.
      * intros i Hi. rewrite Z.lor_spec.
        destruct (Hmask (offset + i) ltac:(lia)) as (_ & _ & ->).
        destruct (Z.leb_spec offset (offset + i)); [|lia].
        destruct (Z.ltb_spec (offset + i) (offset + l - 1)); [|lia].
        apply orb_true_r.
Qed.

Lemma acc_ok_packed gt gm offset gate :
  gt <> [] -> acc_ok gt gm offset gate -> packed_group (new_PackInfo gt gm gate).
Proof.
  intros Hne [Hoff Hbound Hbelow Hlanes Hgb Hgate]. split; simpl.
  - exact Hne.
  - rewrite <- Hoff. exact Hbound.
  - apply lanes_disjoint_all.
  - exact Hlanes.
  - exact Hgate.
Qed.

Lemma close_group_ok groups gt gm offset gate :
  Forall group_ok groups -> acc_ok gt gm offset gate ->
  Forall group_ok (close_group groups gt gm gate)
  /\ concat (tokens <$> close_group groups gt gm gate)
     = concat (tokens <$> groups) ++ gt.
Proof.
  intros Hg Hacc. unfold close_group. destruct gt as [|t gt].
  - rewrite app_nil_r. auto.
  - split.
    + apply Forall_app. split; [exact Hg|]. constructor; [|constructor].
      right. eapply acc_ok_packed; [discriminate|exact Hacc].
    + rewrite fmap_app, concat_app. simpl. rewrite app_nil_r. reflexivity.
Qed.

Lemma pack_loop_ok toks :
  forall groups gt gm offset gate,
    Forall (fun t => t <> []) toks ->
    Forall group_ok groups -> acc_ok gt gm offset gate ->
    Forall group_ok (pack_loop toks groups gt gm offset gate)
    /\ concat (tokens <$> pack_loop toks groups gt gm offset gate)
       = concat (tokens <$> groups) ++ gt ++ toks.
Proof.
  induction toks as [|token rest IH]; intros groups gt gm offset gate Hne Hg Hacc.
  - simpl. rewrite app_nil_r. eapply close_group_ok; eauto.
  - inversion Hne as [|? ? Hne1 Hne2]; subst. cbn [pack_loop].
    destruct (close_group_ok groups gt gm offset gate Hg Hacc) as [Hclose Hcat].
    destruct (Z.geb_spec (Z.of_nat (length token)) INT_SIZE) as [Hlarge|Hsmall].
    + edestruct (IH (close_group groups gt gm gate
                      ++ [new_PackInfo [token] (posVector token) 4294967295])
                   [] ∅ 0 0 Hne2) as [H1 H2].
      * apply Forall_app. split; [exact Hclose|]. constructor; [|constructor].
        left. exists token. split; [exact Hlarge|reflexivity].
      * apply acc_ok_empty.
      * split; [exact H1|]. rewrite H2, fmap_app, concat_app, Hcat. simpl.
        rewrite <- !app_assoc. reflexivity.
    + destruct (Z.geb_spec (Z.of_nat (length token) + offset) INT_SIZE) as [Hover|Hfit].
      * pose proof (add_to_group_ok token [] ∅ 0 0 Hne1 ltac:(lia) acc_ok_empty) as Hadd.
        destruct (add_to_group token [] ∅ 0 0) as [[[gt' gm'] off'] g'].
        destruct Hadd as [Hacc' ->].
        destruct (IH (close_group groups gt gm gate) _ gm' off' g' Hne2 Hclose Hacc')
          as [H1 H2].
        split; [exact H1|]. rewrite H2, Hcat. simpl. rewrite <- !app_assoc.
        reflexivity.
      * pose proof (add_to_group_ok token gt gm offset gate Hne1 Hfit Hacc) as Hadd.
        destruct (add_to_group token gt gm offset gate) as [[[gt' gm'] off'] g'].
        destruct Hadd as [Hacc' ->].
        destruct (IH groups _ gm' off' g' Hne2 Hg Hacc') as [H1 H2].
        split; [exact H1|]. rewrite H2. rewrite <- !app_assoc. reflexivity.
Qed.





(** ** The population count of [score_map] *)

Lemma add_pow2_mod (k lo hi : Z) :
  0 <= k -> 0 <= lo < 2 ^ k -> (lo + 2 ^ k * hi) mod 2 ^ k = lo.
Proof.
  intros Hk Hlo. replace (lo + 2 ^ k * hi) with (lo + hi * 2 ^ k) by lia.
  rewrite Z.mod_add by lia. apply Z.mod_small. lia.
Qed.

Lemma add_pow2_div (k lo hi : Z) :
  0 <= k -> 0 <= lo < 2 ^ k -> (lo + 2 ^ k * hi) / 2 ^ k = hi.
Proof.
  intros Hk Hlo. replace (lo + 2 ^ k * hi) with (lo + hi * 2 ^ k) by lia.
  rewrite Z.div_add by lia. rewrite (Z.div_small lo) by lia. lia.
Qed.

Lemma testbit_split (k lo hi i : Z) :
  0 <= k -> 0 <= lo < 2 ^ k -> 0 <= i ->
  Z.testbit (lo + 2 ^ k * hi) i
  = if i <? k then Z.testbit lo i else Z.testbit hi (i - k).
Proof.
  intros Hk Hlo Hi. destruct (Z.ltb_spec i k) as [H|H].
  - rewrite <- (Z.mod_pow2_bits_low (lo + 2 ^ k * hi) k i) by lia.
    rewrite add_pow2_mod by lia. reflexivity.
  - replace i with ((i - k) + k) at 1 by lia.
    rewrite <- Z.div_pow2_bits by lia. rewrite add_pow2_div by lia. reflexivity.
Qed.

Lemma land_split (k lo hi mlo mhi : Z) :
  0 <= k -> 0 <= lo < 2 ^ k -> 0 <= mlo < 2 ^ k ->
  Z.land (lo + 2 ^ k * hi) (mlo + 2 ^ k * mhi)
  = Z.land lo mlo + 2 ^ k * Z.land hi mhi.
Proof.
  intros Hk Hlo Hmlo.
  assert (Hl : 0 <= Z.land lo mlo < 2 ^ k).
  { split; [apply Z.land_nonneg; lia|].
    apply (Z.bounded_iff_bits_nonneg k); [lia|apply Z.land_nonneg; lia|].
    intros l Hl. rewrite Z.land_spec.
    rewrite (proj1 (Z.bounded_iff_bits_nonneg k lo ltac:(lia) ltac:(lia)) ltac:(lia) l Hl).
    reflexivity. }
  apply Z.bits_inj'. intros i Hi.
  rewrite Z.land_spec, !testbit_split by lia.
  destruct (i <? k); rewrite Z.land_spec; reflexivity.
Qed.

Lemma land_add_high (k y c m : Z) :
  0 <= k -> 0 <= m < 2 ^ k -> Z.land (y + 2 ^ k * c) m = Z.land y m.
Proof.
  intros Hk Hm. apply Z.bits_inj'. intros i Hi. rewrite !Z.land_spec.
  destruct (Z.ltb_spec i k) as [H|H].
  - f_equal. rewrite <- (Z.mod_pow2_bits_low (y + 2 ^ k * c) k i) by lia.
    rewrite <- (Z.mod_pow2_bits_low y k i) by lia. f_equal.
    replace (y + 2 ^ k * c) with (y + c * 2 ^ k) by lia.
    apply Z.mod_add. apply Z.pow_nonzero; lia.
  - rewrite (proj1 (Z.bounded_iff_bits_nonneg k m ltac:(lia) ltac:(lia)) ltac:(lia) i H).
    rewrite !andb_false_r. reflexivity.
Qed.

Lemma forall_bits_spec n P :
  forall x h, forall_bits n P x = true -> 0 <= h < 2 ^ Z.of_nat n ->
    P (x * 2 ^ Z.of_nat n + h) = true.
Proof.
  induction n as [|n IH]; intros x h Hall Hh.
  - change (2 ^ Z.of_nat 0) with 1 in *. simpl in Hall.
    replace (x * 1 + h) with x by lia. exact Hall.
  - cbn [forall_bits] in Hall. apply andb_prop in Hall as [H0 H1].
    rewrite Nat2Z.inj_succ, Z.pow_succ_r in * by lia.
    assert (Hp : 0 < 2 ^ Z.of_nat n) by (apply Z.pow_pos_nonneg; lia).
    destruct (Z.ltb_spec h (2 ^ Z.of_nat n)) as [Hlt|Hge].
    + specialize (IH (2 * x) h H0 ltac:(lia)).
      replace (x * (2 * 2 ^ Z.of_nat n) + h) with (2 * x * 2 ^ Z.of_nat n + h) by lia.
      exact IH.
    + specialize (IH (2 * x + 1) (h - 2 ^ Z.of_nat n) H1 ltac:(lia)).
      replace (x * (2 * 2 ^ Z.of_nat n) + h)
        with ((2 * x + 1) * 2 ^ Z.of_nat n + (h - 2 ^ Z.of_nat n)) by lia.
      exact IH.
Qed.

(** The table of the 16-bit halves. *)
Lemma pop_half_table : forall_bits 16 pop_half_ok 0 = true.
Proof. vm_compute. reflexivity. Qed.

Lemma pop_half_ok_all h : 0 <= h < 65536 -> pop_half_ok h = true.
Proof.
  intros Hh. apply (forall_bits_spec 16 pop_half_ok 0 h pop_half_table).
  change (2 ^ Z.of_nat 16) with 65536. lia.
Qed.

Lemma div_halves (s A B : Z) :
  0 <= s <= 16 -> 0 <= A -> 0 <= B ->
  (A + 2 ^ 16 * B) / 2 ^ s
  = (A / 2 ^ s + 2 ^ (16 - s) * (B mod 2 ^ s)) + 2 ^ 16 * (B / 2 ^ s)
  /\ 0 <= B mod 2 ^ s < 2 ^ s.
Proof.
  intros Hs HA HB.
  assert (Hps : 0 < 2 ^ s) by (apply Z.pow_pos_nonneg; lia).
  assert (Hsplit : 2 ^ 16 = 2 ^ (16 - s) * 2 ^ s).
  { rewrite <- Z.pow_add_r by lia. f_equal. lia. }
  split; [|apply Z.mod_pos_bound; lia].
  replace (A + 2 ^ 16 * B) with (A + (2 ^ (16 - s) * B) * 2 ^ s) by (rewrite Hsplit; lia).
  rewrite Z.div_add by lia.
  pose proof (Z.div_mod B (2 ^ s) ltac:(lia)) as HBdm.
  rewrite Hsplit. nia.
Qed.

(** A shift right by [s] followed by a mask that repeats a [16 - s]-bit
    pattern works on the two halves separately. *)
Lemma land_shift_halves (s M A B : Z) :
  0 <= s <= 16 -> 0 <= M < 2 ^ (16 - s) ->
  0 <= A < 2 ^ 16 -> 0 <= B ->
  Z.land ((A + 2 ^ 16 * B) / 2 ^ s) (M + 2 ^ 16 * M)
  = Z.land (A / 2 ^ s) M + 2 ^ 16 * Z.land (B / 2 ^ s) M.
Proof.
  intros Hs HM HA HB.
  destruct (div_halves s A B Hs ltac:(lia) HB) as [-> Hmod].
  assert (Hps : 0 < 2 ^ s) by (apply Z.pow_pos_nonneg; lia).
  assert (Hp : 0 < 2 ^ (16 - s)) by (apply Z.pow_pos_nonneg; lia).
  assert (Hsplit : 2 ^ 16 = 2 ^ (16 - s) * 2 ^ s).
  { rewrite <- Z.pow_add_r by lia. f_equal. lia. }
  assert (HAs : 0 <= A / 2 ^ s < 2 ^ (16 - s)).
  { split; [apply Z.div_pos; lia|]. apply Z.div_lt_upper_bound; [lia|]. nia. }
  assert (HM16 : 2 ^ (16 - s) <= 2 ^ 16) by (apply pow2_le_mono; lia).
  rewrite land_split by (try lia; nia).
  rewrite land_add_high by lia. reflexivity.
Qed.

Lemma bitcount_mod n : forall x, bitcount n (x mod 2 ^ Z.of_nat n) = bitcount n x.
Proof.
  induction n as [|n IH]; intros x; [reflexivity|].
  cbn [bitcount]. rewrite Nat2Z.inj_succ, Z.pow_succ_r by lia.
  assert (Hp : 0 < 2 ^ Z.of_nat n) by (apply Z.pow_pos_nonneg; lia).
  rewrite Z.rem_mul_r by lia.
  assert (Hm : 0 <= x mod 2 < 2) by (apply Z.mod_pos_bound; lia).
  f_equal.
  - f_equal. rewrite Z.odd_add_mul_2. rewrite !Zodd_mod.
    rewrite Z.mod_mod by lia. reflexivity.
  - rewrite <- (IH (x / 2)). f_equal.
    replace (x mod 2 + 2 * ((x / 2) mod 2 ^ Z.of_nat n))
      with (x mod 2 + ((x / 2) mod 2 ^ Z.of_nat n) * 2) by lia.
    rewrite Z.div_add by lia. rewrite (Z.div_small (x mod 2)); lia.
Qed.

Lemma bitcount_split n k :
  forall x, bitcount (n + k) x = bitcount n x + bitcount k (x / 2 ^ Z.of_nat n).
Proof.
  induction n as [|n IH]; intros x.
  - simpl. rewrite Z.div_1_r. reflexivity.
  - cbn [Nat.add bitcount]. rewrite IH.
    rewrite Nat2Z.inj_succ, Z.pow_succ_r by lia.
    rewrite Z.div_div by (try lia; apply Z.pow_pos_nonneg; lia). lia.
Qed.

Lemma bitcount_halves lo hi :
  0 <= lo < 2 ^ 16 ->
  bitcount 32 (lo + 2 ^ 16 * hi) = bitcount 16 lo + bitcount 16 hi.
Proof.
  intros Hlo. rewrite (bitcount_split 16 16).
  change (2 ^ Z.of_nat 16) with (2 ^ 16).
  rewrite add_pow2_div by lia. f_equal.
  rewrite <- (bitcount_mod 16 (lo + 2 ^ 16 * hi)).
  change (2 ^ Z.of_nat 16) with (2 ^ 16). rewrite add_pow2_mod by lia. reflexivity.
Qed.

Lemma band_sar_halves (s M A B : Z) :
  0 <= s <= 16 -> 0 <= M < 2 ^ (16 - s) -> M < 2 ^ 15 ->
  0 <= A < 2 ^ 16 -> 0 <= B < 2 ^ 15 ->
  band (sar (A + 2 ^ 16 * B) s) (M + 2 ^ 16 * M)
  = Z.land (A / 2 ^ s) M + 2 ^ 16 * Z.land (B / 2 ^ s) M.
Proof.
  intros Hs HM HM15 HA HB. unfold band, sar.
  assert (Hps : 0 < 2 ^ s) by (apply Z.pow_pos_nonneg; lia).
  rewrite (Z.mod_small s 32) by lia.
  rewrite (to_int32_id (A + 2 ^ 16 * B)) by lia.
  rewrite Z.shiftr_div_pow2 by lia.
  assert (Hd : 0 <= (A + 2 ^ 16 * B) / 2 ^ s <= A + 2 ^ 16 * B).
  { split; [apply Z.div_pos; lia|]. apply Z.div_le_upper_bound; [lia|]. nia. }
  rewrite (to_int32_id (_ / _)) by lia.
  rewrite (to_int32_id (M + _)) by lia.
  apply land_shift_halves; lia.
Qed.

Lemma land_small_l a m : 0 <= a -> 0 <= m -> 0 <= Z.land a m <= m.
Proof.
  intros Ha Hm. split; [apply Z.land_nonneg; lia|].
  destruct (Z.eq_dec m 0) as [->|Hne]; [rewrite Z.land_0_r; lia|].
  assert (Hlt : Z.land a m < 2 ^ (Z.log2 m + 1)).
  { apply (Z.bounded_iff_bits_nonneg (Z.log2 m + 1)).
    - pose proof (Z.log2_nonneg m). lia.
    - apply Z.land_nonneg; lia.
    - intros l Hl. rewrite Z.land_spec, (Z.bits_above_log2 m l) by lia.
      apply andb_false_r. }
  apply Z.le_ngt. intros Hgt.
  assert (Hsub : Z.land (Z.land a m) m = Z.land a m).
  { rewrite <- Z.land_assoc, Z.land_diag. reflexivity. }
  pose proof (Z.sub_nocarry_ldiff m (Z.land a m)) as Hnc.
  assert (Hld : Z.ldiff (Z.land a m) m = 0).
  { apply Z.bits_inj'. intros i Hi. rewrite Z.ldiff_spec, Z.land_spec, Z.bits_0.
    destruct (Z.testbit a i), (Z.testbit m i); reflexivity. }
  specialize (Hnc Hld).
  assert (0 <= Z.ldiff m (Z.land a m)) by (apply Z.ldiff_nonneg; lia).
  lia.
Qed.

Lemma popcount32_correct x : 0 <= x < 2 ^ 31 -> popcount32 x = bitcount 32 x.
Proof.
  intros Hx.
  set (lo := x mod 2 ^ 16). set (hi := x / 2 ^ 16).
  assert (Hlo : 0 <= lo < 2 ^ 16) by (apply Z.mod_pos_bound; lia).
  assert (Hhi : 0 <= hi < 2 ^ 15).
  { subst hi. split; [apply Z.div_pos; lia|]. apply Z.div_lt_upper_bound; lia. }
  assert (Ex : x = lo + 2 ^ 16 * hi).
  { subst lo hi. pose proof (Z.div_mod x (2 ^ 16) ltac:(lia)). lia. }
  pose proof (pop_half_ok_all lo ltac:(lia)) as Tlo.
  pose proof (pop_half_ok_all hi ltac:(lia)) as Thi.
  unfold pop_half_ok in Tlo, Thi.
  set (a1 := pop_half1 lo) in *. set (b1 := pop_half1 hi) in *.
  set (a2 := pop_half2 a1) in *. set (b2 := pop_half2 b1) in *.
  set (a3 := pop_half3 a2) in *. set (b3 := pop_half3 b2) in *.
  rewrite !andb_true_iff in Tlo, Thi. rewrite !Z.leb_le, Z.eqb_eq in Tlo, Thi.
  destruct Tlo as ((((((((La0 & La1) & La2) & La3) & La4) & La5) & La6) & La7) & La8).
  destruct Thi as ((((((((Lb0 & Lb1) & Lb2) & Lb3) & Lb4) & Lb5) & Lb6) & Lb7) & Lb8).
  rewrite Ex at 2. rewrite bitcount_halves by lia. rewrite <- La8, <- Lb8.
  unfold popcount32.
  (* first step *)
  assert (E1 : x - band (sar x 1) 1431655765 = a1 + 2 ^ 16 * b1).
  { rewrite Ex at 2. change 1431655765 with (21845 + 2 ^ 16 * 21845).
    rewrite band_sar_halves by lia. subst a1 b1. unfold pop_half1.
    change (2 ^ 1) with 2. lia. }
  rewrite E1.
  (* second step *)
  assert (E2 : band (a1 + 2 ^ 16 * b1) 858993459
               + band (sar (a1 + 2 ^ 16 * b1) 2) 858993459 = a2 + 2 ^ 16 * b2).
  { change 858993459 with (13107 + 2 ^ 16 * 13107).
    rewrite band_sar_halves by lia.
    pose proof (band_sar_halves 0 13107 a1 b1 ltac:(lia) ltac:(lia) ltac:(lia)
                  ltac:(lia) ltac:(lia)) as H0.
    unfold sar in H0. rewrite Z.mod_0_l, Z.shiftr_0_r in H0 by lia.
    unfold band in H0 at 1. rewrite to_int32_id in H0.
    2:{ rewrite to_int32_id by lia. lia. }
    unfold band at 1. rewrite H0.
    change (2 ^ 0) with 1. rewrite !Z.div_1_r.
    subst a2 b2. unfold pop_half2. change (2 ^ 2) with 4. lia. }
  rewrite E2.
  (* third step *)
  assert (E3 : band (a2 + 2 ^ 16 * b2 + sar (a2 + 2 ^ 16 * b2) 4) 252645135
               = a3 + 2 ^ 16 * b3).
  { unfold sar, band. rewrite (to_int32_id (a2 + _)) by lia.
    change (4 mod 32) with 4. rewrite Z.shiftr_div_pow2 by lia.
    destruct (div_halves 4 a2 b2 ltac:(lia) ltac:(lia) ltac:(lia)) as [Hd Hm].
    rewrite Hd. change (2 ^ (16 - 4)) with 4096 in *. change (2 ^ 4) with 16 in *.
    assert (Ha16 : 0 <= a2 / 16 < 1093).
    { split; [apply Z.div_pos; lia|]. apply Z.div_lt_upper_bound; lia. }
    assert (Hb16 : 0 <= b2 / 16 < 1093).
    { split; [apply Z.div_pos; lia|]. apply Z.div_lt_upper_bound; lia. }
    replace (a2 + 2 ^ 16 * b2 + (a2 / 16 + 4096 * (b2 mod 16) + 2 ^ 16 * (b2 / 16)))
      with ((a2 + a2 / 16 + 2 ^ 12 * (b2 mod 16)) + 2 ^ 16 * (b2 + b2 / 16)) by lia.
    rewrite (to_int32_id (_ + _)) by lia.
    change (to_int32 252645135) with (3855 + 2 ^ 16 * 3855).
    rewrite land_split by lia. rewrite land_add_high by lia.
    subst a3 b3. unfold pop_half3. reflexivity. }
  rewrite E3.
  (* the sum of the four bytes *)
  pose proof (Z.div_mod a3 256 ltac:(lia)) as Da. pose proof (Z.div_mod b3 256 ltac:(lia)) as Db.
  pose proof (Z.mod_pos_bound a3 256 ltac:(lia)) as Ma.
  pose proof (Z.mod_pos_bound b3 256 ltac:(lia)) as Mb.
  assert (Hqa : 0 <= a3 / 256) by (apply Z.div_pos; lia).
  assert (Hqb : 0 <= b3 / 256) by (apply Z.div_pos; lia).
  set (c0 := a3 mod 256) in *. set (c1 := a3 / 256) in *.
  set (d0 := b3 mod 256) in *. set (d1 := b3 / 256) in *.
  unfold sar. change (24 mod 32) with 24. rewrite Z.shiftr_div_pow2 by lia.
  set (low := c0 + 2 ^ 8 * (c0 + c1) + 2 ^ 16 * (c0 + c1 + d0)
              + 2 ^ 24 * (c0 + c1 + d0 + d1)).
  assert (Hprod : (a3 + 2 ^ 16 * b3) * 16843009
                  = low + (c1 + d0 + d1 + 2 ^ 8 * (d0 + d1) + 2 ^ 16 * d1) * 2 ^ 32).
  { subst low. rewrite Da, Db. lia. }
  assert (Hlow : 0 <= low < 2 ^ 31) by (subst low; lia).
  assert (Hto : to_int32 ((a3 + 2 ^ 16 * b3) * 16843009) = low).
  { unfold to_int32. rewrite Hprod.
    replace (low + (c1 + d0 + d1 + 2 ^ 8 * (d0 + d1) + 2 ^ 16 * d1) * 2 ^ 32 + 2 ^ 31)
      with ((low + 2 ^ 31) + (c1 + d0 + d1 + 2 ^ 8 * (d0 + d1) + 2 ^ 16 * d1) * 2 ^ 32)
      by lia.
    rewrite Z.mod_add by lia. rewrite Z.mod_small by lia. lia. }
  rewrite Hto. subst low.
  replace (c0 + 2 ^ 8 * (c0 + c1) + 2 ^ 16 * (c0 + c1 + d0) + 2 ^ 24 * (c0 + c1 + d0 + d1))
    with ((c0 + 2 ^ 8 * (c0 + c1) + 2 ^ 16 * (c0 + c1 + d0)) + (c0 + c1 + d0 + d1) * 2 ^ 24)
    by lia.
  rewrite Z.div_add by lia. rewrite Z.div_small by lia. lia.
Qed.

(** ** Comparisons of scores *)

Lemma Qltb_lt x y : Qltb x y = true <-> (x < y)%Q.
Proof.
  unfold Qltb. rewrite negb_true_iff. split.
  - intros H. apply Qnot_le_lt. intros Hle. apply Qle_bool_iff in Hle. congruence.
  - intros H. destruct (Qle_bool y x) eqn:E; [|reflexivity].
    apply Qle_bool_iff in E. exfalso. apply (Qlt_not_le _ _ H E).
Qed.

Lemma Qltb_ge x y : Qltb x y = false <-> (y <= x)%Q.
Proof.
  unfold Qltb. rewrite negb_false_iff. apply Qle_bool_iff.
Qed.

Lemma Qgtb_gt x y : Qgtb x y = true <-> (y < x)%Q.
Proof. apply Qltb_lt. Qed.

Lemma Qgtb_le x y : Qgtb x y = false <-> (x <= y)%Q.
Proof. apply Qltb_ge. Qed.

Lemma QofN_nonneg n : (0 <= QofN n)%Q.
Proof. unfold QofN. change 0%Q with (inject_Z 0). rewrite <- Zle_Qle. lia. Qed.

Lemma QofN_le n k : (n <= k)%nat -> (QofN n <= QofN k)%Q.
Proof. intros H. unfold QofN. rewrite <- Zle_Qle. lia. Qed.

Lemma QofN_lt n k : (n < k)%nat -> (QofN n < QofN k)%Q.
Proof. intros H. unfold QofN. rewrite <- Zlt_Qlt. lia. Qed.

(** ** Bits counted by the bit-parallel branch *)

Lemma bitcount_nonneg n : forall x, 0 <= bitcount n x.
Proof.
  induction n as [|n IH]; intros x; simpl; [lia|].
  specialize (IH (x / 2)). destruct (Z.odd x); simpl; lia.
Qed.

Lemma bitcount_range n :
  forall y p m, 0 <= p <= m ->
    (forall i, 0 <= i -> Z.testbit y i = true -> p <= i < m) ->
    bitcount n y <= m - p.
Proof.
  induction n as [|n IH]; intros y p m Hpm Hbits; simpl; [lia|].
  assert (Hhalf : forall (q : Z) i, 0 <= i -> Z.testbit (y / 2) i = true ->
                    Z.testbit y (i + 1) = true).
  { intros _ i Hi H. rewrite <- H. change 2 with (2 ^ 1).
    rewrite Z.div_pow2_bits by lia. reflexivity. }
  rewrite <- Z.bit0_odd.
  destruct (Z.testbit y 0) eqn:E0.
  - pose proof (Hbits 0 ltac:(lia) E0) as H0.
    assert (IH' : bitcount n (y / 2) <= (m - 1) - 0).
    { apply IH; [lia|]. intros i Hi H.
      pose proof (Hbits (i + 1) ltac:(lia) (Hhalf 0 i Hi H)). lia. }
    simpl. lia.
  - destruct (Z.eq_dec p 0) as [->|Hp].
    + destruct (Z.eq_dec m 0) as [->|Hm].
      * assert (IH' : bitcount n (y / 2) <= 0 - 0).
        { apply IH; [lia|]. intros i Hi H.
          pose proof (Hbits (i + 1) ltac:(lia) (Hhalf 0 i Hi H)). lia. }
        simpl. lia.
      * assert (IH' : bitcount n (y / 2) <= (m - 1) - 0).
        { apply IH; [lia|]. intros i Hi H.
          pose proof (Hbits (i + 1) ltac:(lia) (Hhalf 0 i Hi H)). lia. }
        simpl. lia.
    + assert (IH' : bitcount n (y / 2) <= (m - 1) - (p - 1)).
      { apply IH; [lia|]. intros i Hi H.
        pose proof (Hbits (i + 1) ltac:(lia) (Hhalf 0 i Hi H)). lia. }
      simpl. lia.
Qed.

Lemma to_int32_range z : - 2 ^ 31 <= to_int32 z < 2 ^ 31.
Proof.
  unfold to_int32. pose proof (Z.mod_pos_bound (z + 2 ^ 31) (2 ^ 32) ltac:(lia)). lia.
Qed.

Lemma mask_ones m : 0 <= m <= 31 -> to_int32 (shl 1 m - 1) = Z.ones m.
Proof.
  intros Hm. destruct (Z.eq_dec m 31) as [->|Hne]; [reflexivity|].
  rewrite shl_1 by lia. rewrite Z.ones_equiv.
  assert (H : 0 < 2 ^ m < 2 ^ 31).
  { split; [apply Z.pow_pos_nonneg; lia|apply pow2_lt_mono; lia]. }
  apply to_int32_id. lia.
Qed.

Lemma testbit_ones (n i : Z) : 0 <= n -> 0 <= i -> Z.testbit (Z.ones n) i = (i <? n).
Proof.
  intros Hn Hi. destruct (Z.ltb_spec i n).
  - apply Z.ones_spec_low. lia.
  - apply Z.ones_spec_high. lia.
Qed.

(** The bits that [score_map] counts are between the prefix and the length
    of the token. *)
Lemma lcs_bits_range m b aMap p :
  0 <= m <= 31 -> Z.of_nat p <= m ->
  Z.of_nat p <= lcs_bits m b aMap p <= m.
Proof.
  intros Hm Hp. unfold lcs_bits.
  set (S := fold_left (lcs_step aMap) (drop p b) (shl 1 m - 1)).
  set (y := band (bnot S) (band (shl 1 m - 1) (bnot (shl 1 (Z.of_nat p) - 1)))).
  set (M := Z.land (Z.ones m) (Z.lnot (Z.ones (Z.of_nat p)))).
  assert (HMbits : forall i, 0 <= i ->
            Z.testbit M i = (i <? m) && negb (i <? Z.of_nat p)).
  { intros i Hi. subst M. rewrite Z.land_spec, Z.lnot_spec by lia.
    rewrite !testbit_ones by lia. reflexivity. }
  assert (HM : 0 <= M < 2 ^ 31).
  { assert (H0 : 0 <= M).
    { subst M. apply Z.land_nonneg. left. rewrite Z.ones_equiv.
      pose proof (Z.pow_pos_nonneg 2 m ltac:(lia) ltac:(lia)). lia. }
    split; [exact H0|].
    apply (Z.bounded_iff_bits_nonneg 31); [lia|exact H0|].
    intros l Hl. rewrite HMbits by lia.
    destruct (Z.ltb_spec l m); [lia|reflexivity]. }
  assert (Ey : y = Z.land (to_int32 (bnot S)) M).
  { subst y. unfold band. rewrite mask_ones by lia.
    unfold bnot at 2. rewrite mask_ones by lia.
    rewrite (to_int32_id (Z.lnot (Z.ones (Z.of_nat p)))).
    2:{ rewrite Z.ones_equiv. unfold Z.lnot.
        assert (0 < 2 ^ Z.of_nat p <= 2 ^ 31).
        { split; [apply Z.pow_pos_nonneg; lia|apply pow2_le_mono; lia]. }
        lia. }
    fold M. rewrite (to_int32_id M) by lia. reflexivity. }
  assert (Hy : 0 <= y < 2 ^ 31
               /\ forall i, 0 <= i -> Z.testbit y i = true -> Z.of_nat p <= i < m).
  { rewrite Ey.
    assert (H0 : 0 <= Z.land (to_int32 (bnot S)) M).
    { apply Z.land_nonneg. right. lia. }
    split.
    - split; [exact H0|].
      apply (Z.bounded_iff_bits_nonneg 31); [lia|exact H0|].
      intros l Hl. rewrite Z.land_spec, HMbits by lia.
      destruct (Z.ltb_spec l m); [lia|]. apply andb_false_r.
    - intros i Hi. rewrite Z.land_spec, HMbits by lia.
      rewrite !andb_true_iff, negb_true_iff, Z.ltb_lt, Z.ltb_ge. lia. }
  destruct Hy as [Hy Hbits].
  rewrite popcount32_correct by exact Hy.
  pose proof (bitcount_nonneg 32 y).
  pose proof (bitcount_range 32 y (Z.of_nat p) m ltac:(lia) Hbits). lia.
Qed.

Lemma common_prefix_le a : forall b, (common_prefix a b <= length a)%nat.
Proof.
  induction a as [|x a IH]; intros [|y b]; simpl; try lia.
  destruct (decide (x = y)); [|lia]. specialize (IH b). lia.
Qed.

Lemma common_prefix_lt a :
  forall b, length b = length a -> b <> a -> (common_prefix a b < length a)%nat.
Proof.
  induction a as [|x a IH]; intros [|y b] Hlen Hne; simpl in *; try lia; try congruence.
  destruct (decide (x = y)) as [->|Hxy]; [|lia].
  assert (b <> a) by congruence. specialize (IH b ltac:(lia) H). lia.
Qed.

Lemma size_gate_same options m :
  (token_min_rel_size options <= 1)%Q -> (1 <= token_max_rel_size options)%Q ->
  size_gate options m m = false.
Proof.
  intros Hmin Hmax. unfold size_gate. pose proof (QofN_nonneg m) as Hm.
  apply orb_false_iff. split.
  - apply Qltb_ge.
    assert (H : (0 <= (1 - token_min_rel_size options) * QofN m)%Q)
      by (apply Qmult_le_0_compat; lra).
    lra.
  - apply Qgtb_le.
    assert (H : (0 <= (token_max_rel_size options - 1) * QofN m)%Q)
      by (apply Qmult_le_0_compat; lra).
    lra.
Qed.

Lemma score_order (sz bonus L P M : Q) :
  (0 <= sz)%Q -> (0 < bonus)%Q -> (0 <= L)%Q -> (L <= M)%Q -> (P < M)%Q ->
  (sz * L * L + bonus * P < sz * M * M + bonus * M)%Q.
Proof.
  intros Hsz Hb HL HLM HPM.
  assert (H1 : (0 <= (M - L) * (M + L))%Q) by (apply Qmult_le_0_compat; lra).
  assert (H2 : (0 <= sz * ((M - L) * (M + L)))%Q) by (apply Qmult_le_0_compat; lra).
  assert (H3 : (0 < bonus * (M - P))%Q) by (apply Qmult_lt_0_compat; lra).
  lra.
Qed.

(** C9.  With a positive prefix bonus and a size gate that lets tokens of
    equal length through (as the default options do), a token of 1 to 31
    characters scores strictly higher against itself than against any other
    string of the same length. *)
Theorem score_self_greater (options : Options) (a b : Token) :
  (1 <= length a <= 31)%nat -> length b = length a -> b <> a ->
  (0 < bonus_match_start options)%Q ->
  (token_min_rel_size options <= 1)%Q -> (1 <= token_max_rel_size options)%Q ->
  (score options a b < score options a a)%Q.
Proof.
  intros Hlen Hb Hne Hbonus Hmin Hmax. unfold score, score_map.
  rewrite Hb. set (m := length a) in *.
  rewrite Nat.ltb_irrefl.
  assert (Hk : (m =? 0)%nat = false) by (apply Nat.eqb_neq; lia).
  rewrite Hk, (size_gate_same options m Hmin Hmax). simpl orb. cbv iota.
  unfold prefix_map. destruct (decide (a = b)) as [E|_]; [congruence|].
  destruct (decide (a = a)) as [_|E]; [|congruence].
  pose proof (common_prefix_lt a b Hb Hne) as Hp. fold m in Hp.
  set (p := common_prefix a b) in *.
  unfold lcs_len_map. rewrite Nat.eqb_refl.
  assert (Hpk : (p =? m)%nat = false) by (apply Nat.eqb_neq; lia).
  rewrite Hpk. fold m.
  assert (Hbig : (Z.of_nat m >? INT_SIZE) = false).
  { unfold INT_SIZE. destruct (Z.gtb_spec (Z.of_nat m) 32); [lia|reflexivity]. }
  rewrite Hbig.
  pose proof (lcs_bits_range (Z.of_nat m) b (alphabet a) p ltac:(lia) ltac:(lia)) as Hl.
  set (l := lcs_bits (Z.of_nat m) b (alphabet a) p) in *.
  set (sz := ((QofN m + QofN m) / (2 * QofN m * QofN m))%Q).
  assert (Hm1 : (1 <= QofN m)%Q).
  { change 1%Q with (QofN 1). apply QofN_le. lia. }
  assert (Hsz : (0 <= sz)%Q).
  { subst sz. apply Qle_shift_div_l.
    - assert (H : (0 < QofN m * QofN m)%Q) by (apply Qmult_lt_0_compat; lra). lra.
    - lra. }
  apply score_order; try assumption.
  - change 0%Q with (inject_Z 0). rewrite <- Zle_Qle. lia.
  - unfold QofN. rewrite <- Zle_Qle. lia.
  - apply QofN_lt. lia.
Qed.

Lemma score_self_greater_witness :
  ((1 <= length (tok "surgery") <= 31)%nat
   /\ length (tok "gsurvey") = length (tok "surgery")
   /\ tok "gsurvey" <> tok "surgery"
   /\ (0 < bonus_match_start defaultOptions)%Q
   /\ (token_min_rel_size defaultOptions <= 1)%Q
   /\ (1 <= token_max_rel_size defaultOptions)%Q)
  /\ (score defaultOptions (tok "surgery") (tok "gsurvey")
      < score defaultOptions (tok "surgery") (tok "surgery"))%Q.
Proof.
  assert (H1 : (1 <= length (tok "surgery") <= 31)%nat) by (simpl; lia).
  assert (H2 : length (tok "gsurvey") = length (tok "surgery")) by reflexivity.
  assert (H3 : tok "gsurvey" <> tok "surgery") by discriminate.
  assert (H4 : (0 < bonus_match_start defaultOptions)%Q) by reflexivity.
  assert (H5 : (token_min_rel_size defaultOptions <= 1)%Q) by discriminate.
  assert (H6 : (1 <= token_max_rel_size defaultOptions)%Q) by discriminate.
  split; [exact (conj H1 (conj H2 (conj H3 (conj H4 (conj H5 H6)))))|].
  exact (score_self_greater defaultOptions _ _ H1 H2 H3 H4 H5 H6).
Defined.

(** ** What scoring writes *)

#[local] Instance same_group_refl : Reflexive same_group.
Proof. intros g. repeat split. Qed.

#[local] Instance same_group_trans : Transitive same_group.
Proof.
  intros g1 g2 g3 (H1 & H2 & H3) (H1' & H2' & H3').
  repeat split; congruence.
Qed.

#[local] Instance same_group_sym : Symmetric same_group.
Proof. intros g1 g2 (H1 & H2 & H3). repeat split; congruence. Qed.

#[local] Instance same_static_refl : Reflexive same_static.
Proof. intros q. repeat split. apply Forall2_same_length_lookup_2; [reflexivity|].
  intros i x y Hx Hy. rewrite Hx in Hy. inversion Hy. reflexivity. Qed.

#[local] Instance same_static_trans : Transitive same_static.
Proof.
  intros q1 q2 q3 (H1 & H2 & H3 & H4 & H5) (H1' & H2' & H3' & H4' & H5').
  repeat split; try congruence. etrans; eassumption.
Qed.

#[local] Instance same_static_sym : Symmetric same_static.
Proof.
  intros q1 q2 (H1 & H2 & H3 & H4 & H5). repeat split; try congruence.
  symmetry. exact H5.
Qed.

Lemma score_group_same this field_tokens g fs li :
  same_group (fst (fst (score_group this field_tokens g fs li))) g.
Proof.
  unfold score_group.
  destruct (best_of_tokens _ _ _ _ _ _) as [bs ixs].
  destruct (add_group_scores _ _ _ _ _ _) as [[fs' li'] items].
  repeat split.
Qed.

Lemma score_groups_same this field_tokens groups :
  forall fs li,
    Forall2 same_group (fst (score_groups this field_tokens groups fs li)) groups.
Proof.
  induction groups as [|g rest IH]; intros fs li; simpl; [constructor|].
  pose proof (score_group_same this field_tokens g fs li) as Hg.
  destruct (score_group this field_tokens g fs li) as [[g' fs'] li'].
  specialize (IH fs' li').
  destruct (score_groups this field_tokens rest fs' li') as [rest' fs''].
  constructor; assumption.
Qed.

Lemma test_fused_same this field_tokens query groups fs :
  Forall2 same_group groups (tokens_groups query) ->
  same_static (snd (test_fused this field_tokens query groups fs)) query.
Proof.
  intros H. unfold test_fused. destruct (score_test_fused this); repeat split; exact H.
Qed.

Lemma field_score_of_same this field query :
  same_static (snd (field_score_of this field query)) query.
Proof.
  unfold field_score_of. destruct (score_per_token this); [|reflexivity].
  destruct (single query).
  - unfold _scoreFieldSingle. apply test_fused_same.
    destruct (same_static_refl query) as (_ & _ & _ & _ & H). exact H.
  - unfold _scoreField.
    pose proof (score_groups_same this field (tokens_groups query) 0%Q (-1)) as H.
    destruct (score_groups _ _ _ _ _) as [groups fs]. apply test_fused_same. exact H.
Qed.

Lemma field_loop_same this item_fields :
  forall field_index st,
    same_static (fl_query (field_loop this item_fields field_index st)) (fl_query st).
Proof.
  induction item_fields as [|field rest IH]; intros field_index st; simpl; [reflexivity|].
  pose proof (field_score_of_same this field (fl_query st)) as H.
  destruct (field_score_of this field (fl_query st)) as [fs query]. simpl in H.
  repeat case_match; try exact H; (etrans; [apply IH|exact H]).
Qed.

Lemma reset_scores_same query : same_static (reset_scores query) query.
Proof.
  repeat split. simpl. apply Forall2_fmap_l.
  apply Forall2_same_length_lookup_2; [reflexivity|].
  intros i x y Hx Hy. rewrite Hx in Hy. inversion Hy; subst. repeat split.
Qed.

Lemma item_score_of_same this query item_fields :
  same_static (snd (item_score_of this query item_fields)) query.
Proof.
  unfold item_score_of.
  pose proof (field_loop_same this item_fields 0
                (mkFieldLoop (reset_scores query) 0 (-1) 1)) as H.
  simpl in H. pose proof (reset_scores_same query) as Hr.
  destruct (score_per_token this && negb (single query)); simpl; etrans; eassumption.
Qed.

Lemma search_item_same {Item : Type} this (st : SearchLoop Item) it :
  same_static (sl_query (fst (search_item this st it))) (sl_query st).
Proof.
  unfold search_item.
  pose proof (item_score_of_same this (sl_query st) (fields it)) as H.
  destruct (item_score_of this (sl_query st) (fields it)) as [[sc mi] query].
  repeat case_match; exact H.
Qed.

Lemma search_items_same {Item : Type} this (source : list (Indexed Item)) :
  forall st, same_static (sl_query (fst (search_items this source st))) (sl_query st).
Proof.
  induction source as [|it rest IH]; intros st; simpl; [reflexivity|].
  pose proof (search_item_same this st it) as H.
  destruct (search_item this st it) as [st' threw]. destruct threw; [exact H|].
  etrans; [apply IH|exact H].
Qed.

Section Frame.

Context {Item Out : Type}.
Variable normalize : string -> Token.
Variable generateFields : Item -> list string -> list string.

(** C10.  When the index is up to date, [search] leaves the options, the
    source, the keys, the index (records and their field tokens) and the
    [dirty] flag as they were, whether it returns or throws; the query it
    leaves in the engine is the prepared query up to [fused_score] and the
    score arrays of its groups. *)
Theorem search_frame (this : @FuzzySearch Item Out) (querystring : string)
    (time_start time_end : Q) :
  dirty this = false ->
  let this' := snd (search normalize generateFields querystring time_start time_end this) in
  same_engine this this'
  /\ exists q, query this' = Some q
       /\ same_static q (_prepQuery (options this) (normalize querystring)).
Proof.
  intros Hdirty. unfold search, mbind, M_bind, mret, M_ret, set_start_time, get.
  cbn. rewrite Hdirty. cbn.
  pose proof (search_items_same (options this) (index this)
                (mkSearchLoop (_prepQuery (options this) (normalize querystring))
                   (thresh_include (options this)) 0 [])) as Hq.
  unfold _searchIndex.
  destruct (search_items _ _ _) as [run threw]. cbn in Hq.
  destruct threw; cbn.
  - split; [repeat split; try reflexivity; simpl; congruence|].
    exists (sl_query run). split; [reflexivity|exact Hq].
  - split; [repeat split; try reflexivity; simpl; congruence|].
    exists (sl_query run). split; [reflexivity|exact Hq].
Qed.

End Frame.

Lemma search_frame_witness :
  dirty (example_engine defaultOptions ["survey"; "surgery"]%string) = false
  /\ (let this := example_engine defaultOptions ["survey"; "surgery"]%string in
      let this' := snd (search tok example_fields "sur" 0 1 this) in
      same_engine this this'
      /\ exists q, query this' = Some q
           /\ same_static q (_prepQuery (options this) (tok "sur"))).
Proof.
  split; [reflexivity|].
  exact (search_frame tok example_fields
           (example_engine defaultOptions ["survey"; "surgery"]%string)
           "sur" 0 1 eq_refl).
Defined.

(** ** Empty queries and empty fields *)


Lemma score_map_empty_field a aMap options : score_map a [] aMap options = 0%Q.
Proof.
  unfold score_map. simpl.
  destruct (length a <? 0)%nat eqn:E; [apply Nat.ltb_lt in E; lia|reflexivity].
Qed.













(** ** The scores kept for an item never become negative *)






(** ** An empty field in the loop over the fields *)






Section EmptyQuery.

Context {Item Out : Type}.
Variable normalize : string -> Token.
Variable generateFields : Item -> list string -> list string.


End EmptyQuery.



(** ** The token assignment solver *)

Import Assign.

Lemma land_pow2_testbit (x j : Z) :
  0 <= j -> (Z.land x (2 ^ j) =? 0) = negb (Z.testbit x j).
Proof.
  intros Hj. destruct (Z.testbit x j) eqn:E; simpl.
  - apply Z.eqb_neq. intros H.
    assert (Z.testbit (Z.land x (2 ^ j)) j = true).
    { rewrite Z.land_spec, E, Z.pow2_bits_true by lia. reflexivity. }
    rewrite H, Z.bits_0 in H0. discriminate.
  - apply Z.eqb_eq. apply Z.bits_inj'. intros i Hi.
    rewrite Z.land_spec, Z.bits_0, testbit_pow2 by lia.
    case_bool_decide; subst; [rewrite E|]; auto using andb_false_r.
Qed.

Lemma used_test (used j : Z) :
  0 <= used < 2 ^ 31 -> 0 <= j < 31 ->
  negb (band used (shl 1 j) =? 0) = Z.testbit used j.
Proof.
  intros Hu Hj. unfold band. rewrite shl_1 by lia.
  assert (H : 0 < 2 ^ j < 2 ^ 31).
  { split; [apply Z.pow_pos_nonneg; lia|apply pow2_lt_mono; lia]. }
  rewrite !to_int32_id by lia. rewrite land_pow2_testbit by lia.
  apply negb_involutive.
Qed.

Lemma used_add (used j : Z) :
  0 <= used < 2 ^ 31 -> 0 <= j < 31 ->
  bor used (shl 1 j) = Z.lor used (2 ^ j) /\ 0 <= Z.lor used (2 ^ j) < 2 ^ 31.
Proof.
  intros Hu Hj. rewrite shl_1 by lia.
  assert (H : 0 < 2 ^ j < 2 ^ 31).
  { split; [apply Z.pow_pos_nonneg; lia|apply pow2_lt_mono; lia]. }
  split; [apply bor_small; lia|apply lor_bounded; lia].
Qed.

Lemma row_scan_cache h thr used row :
  forall j bs bi c c',
    fst (row_scan (pure_child <$> h) thr used row j bs bi c)
    = fst (row_scan (pure_child <$> h) thr used row j bs bi c')
    /\ snd (row_scan (pure_child <$> h) thr used row j bs bi c) = c.
Proof.
  induction row as [|score row IH]; intros j bs bi c c'; [split; reflexivity|].
  cbn [row_scan].
  destruct (negb (band used (shl 1 j) =? 0)); [apply IH|].
  destruct (below score thr); [apply IH|].
  destruct h as [f|]; cbn [fmap option_fmap option_map pure_child];
    destruct (Qgtb _ bs); apply IH.
Qed.

Lemma row_scan_pure h thr used row j bs bi c :
  row_scan (pure_child <$> h) thr used row j bs bi c
  = (pure_scan h thr used row j bs bi, c).
Proof.
  destruct (row_scan_cache h thr used row j bs bi c ∅) as [H1 H2].
  unfold pure_scan.
  destruct (row_scan (pure_child <$> h) thr used row j bs bi c) as [[x y] c1].
  destruct (row_scan (pure_child <$> h) thr used row j bs bi ∅) as [[x' y'] c2].
  cbn in *. congruence.
Qed.

Lemma pure_scan_cons h thr used score row j bs bi :
  pure_scan h thr used (score :: row) j bs bi
  = if negb (band used (shl 1 j) =? 0) then pure_scan h thr used row (j + 1) bs bi
    else if below score thr then pure_scan h thr used row (j + 1) bs bi
    else if Qgtb (cand_value h used j score) bs
         then pure_scan h thr used row (j + 1) (cand_value h used j score) j
         else pure_scan h thr used row (j + 1) bs bi.
Proof.
  unfold pure_scan at 1. cbn [row_scan].
  destruct (negb (band used (shl 1 j) =? 0)); [reflexivity|].
  destruct (below score thr); [reflexivity|].
  destruct h as [f|]; cbn [fmap option_fmap option_map pure_child cand_value];
    destruct (Qgtb _ bs); reflexivity.
Qed.

(** What the scan of a row finds: a score that no candidate beats, and
    either the best so far or a candidate with that score. *)
Lemma pure_scan_spec h thr used row :
  0 <= used < 2 ^ 31 ->
  forall j bs bi, 0 <= j -> j + Z.of_nat (length row) <= 31 ->
    let r := pure_scan h thr used row j bs bi in
    (bs <= fst r)%Q
    /\ (forall (k : nat) s, row !! k = Some s ->
          Z.testbit used (j + Z.of_nat k) = false -> below s thr = false ->
          (cand_value h used (j + Z.of_nat k) s <= fst r)%Q)
    /\ (r = (bs, bi)
        \/ exists (k : nat) s,
             row !! k = Some s /\ snd r = j + Z.of_nat k
             /\ Z.testbit used (j + Z.of_nat k) = false /\ below s thr = false
             /\ fst r = cand_value h used (j + Z.of_nat k) s
             /\ (bs < fst r)%Q).
Proof.
  intros Hu. induction row as [|score row IH]; intros j bs bi Hj Hlen.
  - cbn. split; [lra|]. split; [|left; reflexivity].
    intros k s Hk. rewrite lookup_nil in Hk. discriminate.
  - cbn [length] in Hlen. rewrite pure_scan_cons.
    rewrite used_test by lia.
    assert (Hstep : forall bs0 bi0,
              let r := pure_scan h thr used row (j + 1) bs0 bi0 in
              (bs0 <= fst r)%Q
              /\ (forall (k : nat) s, row !! k = Some s ->
                    Z.testbit used (j + Z.of_nat (S k)) = false -> below s thr = false ->
                    (cand_value h used (j + Z.of_nat (S k)) s <= fst r)%Q)
              /\ (r = (bs0, bi0)
                  \/ exists (k : nat) s,
                       row !! k = Some s /\ snd r = j + Z.of_nat (S k)
                       /\ Z.testbit used (j + Z.of_nat (S k)) = false
                       /\ below s thr = false
                       /\ fst r = cand_value h used (j + Z.of_nat (S k)) s
                       /\ (bs0 < fst r)%Q)).
    { intros bs0 bi0. specialize (IH (j + 1) bs0 bi0 ltac:(lia) ltac:(lia)).
      cbn zeta in IH. destruct IH as (I1 & I2 & I3).
      replace (j + Z.of_nat 1) with (j + 1) in * by lia.
      split; [exact I1|]. split.
      - intros k s Hk Hfree Hthr.
        replace (j + Z.of_nat (S k)) with (j + 1 + Z.of_nat k) in * by lia. eauto.
      - destruct I3 as [I3|(k & s & ? & ? & ? & ? & ? & ?)]; [left; exact I3|].
        right. exists k, s.
        replace (j + Z.of_nat (S k)) with (j + 1 + Z.of_nat k) by lia.
        repeat split; assumption. }
    cbn zeta.
    destruct (Z.testbit used j) eqn:Eused.
    + (* column in use *)
      destruct (Hstep bs bi) as (I1 & I2 & I3). split; [exact I1|]. split.
      * intros [|k] s Hk Hfree Hthr.
        -- replace (j + Z.of_nat 0) with j in Hfree by lia. congruence.
        -- eauto.
      * destruct I3 as [I3|(k & s & ? & ? & ? & ? & ? & ?)]; [left; exact I3|].
        right. exists (S k), s. repeat split; assumption.
    + destruct (below score thr) eqn:Ethr.
      * (* under the threshold *)
        destruct (Hstep bs bi) as (I1 & I2 & I3). split; [exact I1|]. split.
        -- intros [|k] s Hk Hfree Hthr.
           ++ simpl in Hk. inversion Hk; subst. congruence.
           ++ eauto.
        -- destruct I3 as [I3|(k & s & ? & ? & ? & ? & ? & ?)]; [left; exact I3|].
           right. exists (S k), s. repeat split; assumption.
      * destruct (Qgtb (cand_value h used j score) bs) eqn:Egt.
        -- (* a new best *)
           apply Qgtb_gt in Egt.
           destruct (Hstep (cand_value h used j score) j) as (I1 & I2 & I3).
           split; [lra|]. split.
           ++ intros [|k] s Hk Hfree Hthr.
              ** simpl in Hk. inversion Hk; subst.
                 replace (j + Z.of_nat 0) with j by lia. exact I1.
              ** eauto.
           ++ right. destruct I3 as [I3|(k & s & ? & ? & ? & ? & ? & ?)].
              ** exists 0%nat, score. rewrite I3. cbn [fst snd].
                 replace (j + Z.of_nat 0) with j by lia.
                 repeat split; try assumption; reflexivity.
              ** exists (S k), s. repeat split; try assumption. lra.
        -- apply Qgtb_le in Egt.
           destruct (Hstep bs bi) as (I1 & I2 & I3). split; [exact I1|]. split.
           ++ intros [|k] s Hk Hfree Hthr.
              ** simpl in Hk. inversion Hk; subst.
                 replace (j + Z.of_nat 0) with j by lia. lra.
              ** eauto.
           ++ destruct I3 as [I3|(k & s & ? & ? & ? & ? & ? & ?)]; [left; exact I3|].
              right. exists (S k), s. repeat split; assumption.
Qed.

Lemma solve_cons row rest thrs used :
  solve (row :: rest) thrs used
  = let h := below_rows rest (tail thrs) in
    let r := pure_scan h (head thrs) used (take 32 row) 0 0 (-1) in
    match h with
    | Some f => if Qgtb (f used) (fst r) then (f used, -1) else r
    | None => r
    end.
Proof.
  cbn [solve]. unfold below_rows.
  destruct rest as [|row' rest'].
  - change (@None (cache -> Z -> Q * cache)) with (pure_child <$> @None (Z -> Q)).
    rewrite row_scan_pure. cbn zeta. destruct (pure_scan _ _ _ _ _ _ _). reflexivity.
  - set (f := fun key => fst (solve (row' :: rest') (tail thrs) key)).
    change (Some (pure_child f)) with (pure_child <$> Some f).
    rewrite row_scan_pure. cbn zeta. cbn [pure_child].
    destruct (pure_scan _ _ _ _ _ _ _) as [bs bi]. cbn [fst].
    subst f. cbn beta. destruct (Qgtb _ bs); reflexivity.
Qed.

Lemma take_32_short (row : list Q) : (length row <= 31)%nat -> take 32 row = row.
Proof. intros H. apply take_ge. lia. Qed.

(** The value of [solve] on a non-empty list of rows. *)
Lemma solve_spec row rest thrs used :
  0 <= used < 2 ^ 31 -> (length row <= 31)%nat ->
  (forall u, 0 <= fst (solve rest (tail thrs) u))%Q ->
  let h := below_rows rest (tail thrs) in
  let r := solve (row :: rest) thrs used in
  (0 <= fst r)%Q
  /\ (forall f, h = Some f -> (f used <= fst r)%Q)
  /\ (forall (k : nat) sc, row !! k = Some sc ->
        Z.testbit used (Z.of_nat k) = false -> below sc (head thrs) = false ->
        (cand_value h used (Z.of_nat k) sc <= fst r)%Q)
  /\ ((snd r = -1
       /\ ((h = None /\ fst r = 0%Q)
           \/ exists f, h = Some f /\ (fst r == f used)%Q))
      \/ exists (k : nat) sc,
           snd r = Z.of_nat k /\ row !! k = Some sc
           /\ Z.testbit used (Z.of_nat k) = false /\ below sc (head thrs) = false
           /\ fst r = cand_value h used (Z.of_nat k) sc).
Proof.
  intros Hu Hlen Hnn h r. subst r. rewrite solve_cons. fold h. cbn zeta.
  rewrite take_32_short by exact Hlen.
  pose proof (pure_scan_spec h (head thrs) used row Hu 0 0 (-1) ltac:(lia) ltac:(lia))
    as (S1 & S2 & S3).
  cbn zeta in S1, S2, S3.
  set (r := pure_scan h (head thrs) used row 0 0 (-1)) in *.
  assert (S3' : (r = (0%Q, -1))
                \/ exists (k : nat) sc,
                     snd r = Z.of_nat k /\ row !! k = Some sc
                     /\ Z.testbit used (Z.of_nat k) = false
                     /\ below sc (head thrs) = false
                     /\ fst r = cand_value h used (Z.of_nat k) sc).
  { destruct S3 as [S3|(k & s & H1 & H2 & H3 & H4 & H5 & H6)]; [left; exact S3|].
    right. exists k, s. rewrite Z.add_0_l in *. auto. }
  clear S3.
  destruct h as [f|] eqn:Eh.
  - assert (Hf : (0 <= f used)%Q).
    { unfold h, below_rows in Eh. destruct rest; [discriminate|].
      inversion Eh; subst f. apply Hnn. }
    destruct (Qgtb (f used) (fst r)) eqn:Egt.
    + apply Qgtb_gt in Egt. cbn [fst snd]. split; [lra|]. split.
      * intros f' Hf'. inversion Hf'; subst. lra.
      * split.
        -- intros k sc Hk Hfree Hthr.
           specialize (S2 k sc Hk). rewrite Z.add_0_l in S2.
           specialize (S2 Hfree Hthr). lra.
        -- left. split; [reflexivity|]. right. exists f. split; [reflexivity|lra].
    + apply Qgtb_le in Egt. split; [lra|]. split.
      * intros f' Hf'. inversion Hf'; subst. lra.
      * split.
        -- intros k sc Hk Hfree Hthr.
           specialize (S2 k sc Hk). rewrite Z.add_0_l in S2. auto.
        -- destruct S3' as [S3|S3]; [|right; exact S3].
           left. rewrite S3 in *. cbn [fst snd] in *. split; [reflexivity|].
           right. exists f. split; [reflexivity|lra].
  - split; [exact S1|]. split; [intros f' Hf'; discriminate|]. split.
    + intros k sc Hk Hfree Hthr.
      specialize (S2 k sc Hk). rewrite Z.add_0_l in S2. auto.
    + destruct S3' as [S3|S3]; [|right; exact S3].
      left. rewrite S3. cbn [fst snd]. split; [reflexivity|]. left. auto.
Qed.

Lemma pure_scan_ge h thr used row :
  forall j bs bi, (bs <= fst (pure_scan h thr used row j bs bi))%Q.
Proof.
  induction row as [|sc row IH]; intros j bs bi; [cbn; lra|].
  rewrite pure_scan_cons.
  destruct (negb (band used (shl 1 j) =? 0)); [apply IH|].
  destruct (below sc thr); [apply IH|].
  destruct (Qgtb (cand_value h used j sc) bs) eqn:E; [|apply IH].
  apply Qgtb_gt in E. specialize (IH (j + 1) (cand_value h used j sc) j). lra.
Qed.

Lemma solve_nonneg rows :
  forall thrs used, (0 <= fst (solve rows thrs used))%Q.
Proof.
  destruct rows as [|row rest]; intros thrs used; [cbn; lra|].
  rewrite solve_cons. cbn zeta.
  pose proof (pure_scan_ge (below_rows rest (tail thrs)) (head thrs) used
                (take 32 row) 0 0 (-1)) as H.
  destruct (below_rows rest (tail thrs)) as [f|]; [|exact H].
  destruct (Qgtb (f used) _) eqn:E; [|exact H].
  apply Qgtb_gt in E. cbn [fst]. lra.
Qed.

Lemma below_rows_value rest thrs :
  forall f u, below_rows rest thrs = Some f -> f u = fst (solve rest thrs u).
Proof.
  intros f u H. unfold below_rows in H. destruct rest; [discriminate|].
  inversion H. reflexivity.
Qed.

Lemma below_rows_none rest thrs : below_rows rest thrs = None -> rest = [].
Proof. unfold below_rows. destruct rest; [reflexivity|discriminate]. Qed.

Lemma pair_score_none row : pair_score row (-1) = 0%Q.
Proof. reflexivity. Qed.

Lemma pair_score_some row j s :
  0 <= j -> row !! Z.to_nat j = Some s -> pair_score row j = s.
Proof.
  intros Hj Hs. unfold pair_score.
  destruct (Z.eqb_spec j (-1)); [lia|]. rewrite Hs. reflexivity.
Qed.

Lemma valid_from_nil_rows thrs used assignment :
  valid_from [] thrs used assignment -> assignment = [].
Proof. destruct assignment; [reflexivity|intros []]. Qed.

(** No valid mapping scores more than [solve]. *)
Lemma solve_opt rows :
  forall thrs used assignment,
    0 <= used < 2 ^ 31 ->
    Forall (fun row => (length row <= 31)%nat) rows ->
    valid_from rows thrs used assignment ->
    (total_score rows assignment <= fst (solve rows thrs used))%Q.
Proof.
  induction rows as [|row rest IH]; intros thrs used assignment Hu Hrows Hvalid.
  - apply valid_from_nil_rows in Hvalid. subst. cbn. lra.
  - inversion Hrows as [|? ? Hrow Hrest]; subst.
    destruct assignment as [|c assignment]; [destruct Hvalid|].
    destruct (solve_spec row rest thrs used Hu Hrow
                (fun u => solve_nonneg rest (tail thrs) u)) as (A & B & Cc & _).
    cbn [total_score]. cbn [valid_from] in Hvalid.
    destruct Hvalid as [[-> Hv]|(Hc & (s & Hs & Hthr) & Hfree & Hv)].
    + rewrite pair_score_none.
      specialize (IH (tail thrs) used assignment Hu Hrest Hv).
      destruct (below_rows rest (tail thrs)) as [f|] eqn:Eh.
      * specialize (B f eq_refl). rewrite (below_rows_value _ _ f used Eh) in B. lra.
      * apply below_rows_none in Eh. subst rest.
        apply valid_from_nil_rows in Hv. subst assignment.
        cbn [total_score]. lra.
    + rewrite (pair_score_some row c s Hc Hs).
      assert (Hc31 : c < 31).
      { apply lookup_lt_Some in Hs. lia. }
      destruct (used_add used c Hu ltac:(lia)) as [Hbor Hu'].
      specialize (IH (tail thrs) (Z.lor used (2 ^ c)) assignment Hu' Hrest Hv).
      specialize (Cc (Z.to_nat c) s Hs). rewrite Z2Nat.id in Cc by lia.
      specialize (Cc Hfree Hthr).
      destruct (below_rows rest (tail thrs)) as [f|] eqn:Eh; cbn [cand_value] in Cc.
      * rewrite Hbor, (below_rows_value _ _ f _ Eh) in Cc. lra.
      * apply below_rows_none in Eh. subst rest.
        apply valid_from_nil_rows in Hv. subst assignment.
        cbn [total_score]. lra.
Qed.

Lemma next_used_bound used j :
  0 <= used < 2 ^ 31 -> -1 <= j < 31 -> 0 <= next_used used j < 2 ^ 31.
Proof.
  intros Hu Hj. unfold next_used. destruct (Z.gtb_spec j (-1)) as [Hgt|Hle]; [|exact Hu].
  destruct (used_add used j Hu ltac:(lia)) as [-> Hb]. exact Hb.
Qed.

(** The columns chosen by [solve] are a valid mapping, with the score of
    [solve]. *)
Lemma solve_path rows :
  forall thrs used,
    0 <= used < 2 ^ 31 ->
    Forall (fun row => (length row <= 31)%nat) rows ->
    valid_from rows thrs used (best_path rows thrs used)
    /\ (total_score rows (best_path rows thrs used) == fst (solve rows thrs used))%Q.
Proof.
  induction rows as [|row rest IH]; intros thrs used Hu Hrows.
  - cbn. split; [exact I|reflexivity].
  - inversion Hrows as [|? ? Hrow Hrest]; subst.
    destruct (solve_spec row rest thrs used Hu Hrow
                (fun u => solve_nonneg rest (tail thrs) u)) as (A & B & _ & D).
    cbn [best_path total_score valid_from].
    set (r := solve (row :: rest) thrs used) in *.
    destruct D as [(Hj & D)|(k & sc & Hj & Hk & Hfree & Hthr & Hval)].
    + rewrite Hj. unfold next_used. cbn [Z.gtb Z.compare].
      destruct (IH (tail thrs) used Hu Hrest) as [IH1 IH2].
      split; [left; auto|]. rewrite pair_score_none, IH2.
      destruct D as [(Eh & ->)|(f & Eh & ->)].
      * apply below_rows_none in Eh. subst rest. cbn. reflexivity.
      * rewrite (below_rows_value _ _ f used Eh). ring.
    + rewrite Hj.
      assert (Hk31 : Z.of_nat k < 31) by (apply lookup_lt_Some in Hk; lia).
      destruct (used_add used (Z.of_nat k) Hu ltac:(lia)) as [Hbor Hu'].
      assert (Hnext : next_used used (Z.of_nat k) = Z.lor used (2 ^ Z.of_nat k)).
      { unfold next_used. destruct (Z.gtb_spec (Z.of_nat k) (-1)); [exact Hbor|lia]. }
      rewrite Hnext.
      destruct (IH (tail thrs) (Z.lor used (2 ^ Z.of_nat k)) Hu' Hrest) as [IH1 IH2].
      split.
      * right. rewrite Nat2Z.id. split; [lia|]. split; [eauto|]. auto.
      * rewrite (pair_score_some row (Z.of_nat k) sc ltac:(lia))
          by (rewrite Nat2Z.id; exact Hk).
        rewrite IH2, Hval.
        destruct (below_rows rest (tail thrs)) as [f|] eqn:Eh; cbn [cand_value].
        -- rewrite Hbor, (below_rows_value _ _ f _ Eh). reflexivity.
        -- apply below_rows_none in Eh. subst rest. cbn. ring.
Qed.

Lemma grows_refl c : grows c c.
Proof. intros k H. exact H. Qed.

Lemma grows_trans c1 c2 c3 : grows c1 c2 -> grows c2 c3 -> grows c1 c3.
Proof. intros H1 H2 k H. auto. Qed.

Lemma grows_insert (c : cache) k e : grows c (<[k := e]> c).
Proof.
  intros k' H. destruct (decide (k = k')) as [->|Hne].
  - rewrite lookup_insert_eq. eauto.
  - rewrite lookup_insert_ne by exact Hne. exact H.
Qed.

(** The scan of a row with the cache gives the result of the scan without
    it, and keeps the invariant of the cache. *)
Lemma memo_scan (C : list (list Q)) (thrs : list Q) (depth : nat)
    (f : cache -> Z -> Q * cache) (h : Z -> Q) thr used row :
  child_ok C thrs depth f h ->
  forall j bs bi c, 0 <= j ->
    cache_inv C thrs c ->
    (bi = -1 \/ is_Some (c !! (S depth, next_used used bi))) ->
    let r := row_scan (Some f) thr used row j bs bi c in
    fst r = pure_scan (Some h) thr used row j bs bi
    /\ cache_inv C thrs (snd r)
    /\ grows c (snd r)
    /\ (snd (fst r) = -1 \/ is_Some (snd r !! (S depth, next_used used (snd (fst r))))).
Proof.
  intros Hf. induction row as [|score row IH]; intros j bs bi c Hj Hc Hbi.
  - cbn. auto using grows_refl.
  - cbn zeta. rewrite pure_scan_cons. cbn [row_scan].
    destruct (negb (band used (shl 1 j) =? 0)); [apply IH; auto; lia|].
    destruct (below score thr); [apply IH; auto; lia|].
    destruct (Hf c (bor used (shl 1 j)) Hc) as (F1 & F2 & F3 & F4).
    destruct (f c (bor used (shl 1 j))) as [s c1]. cbn [fst snd] in *.
    cbn [cand_value]. subst s.
    destruct (Qgtb (score + h (bor used (shl 1 j))) bs).
    + specialize (IH (j + 1) (score + h (bor used (shl 1 j)))%Q j c1 ltac:(lia) F2).
      destruct IH as (I1 & I2 & I3 & I4).
      { right. unfold next_used. destruct (Z.gtb_spec j (-1)); [exact F4|lia]. }
      eauto using grows_trans.
    + specialize (IH (j + 1) bs bi c1 ltac:(lia) F2).
      destruct IH as (I1 & I2 & I3 & I4).
      { destruct Hbi as [Hbi|Hbi]; [left; exact Hbi|right; apply F3; exact Hbi]. }
      eauto using grows_trans.
Qed.

Lemma cache_inv_insert (C : list (list Q)) (thrs : list Q) (c : cache)
    (d : nat) (u : Z) (e : Q * Z) :
  cache_inv C thrs c ->
  e = solve (drop d C) (drop d thrs) u ->
  ((S d < length C)%nat -> is_Some (c !! (S d, next_used u (snd e)))) ->
  cache_inv C thrs (<[(d, u) := e]> c).
Proof.
  intros Hc He Hnext d' u' e' Hlook.
  destruct (decide ((d, u) = (d', u'))) as [Heq|Hne].
  - inversion Heq; subst d' u'. rewrite lookup_insert_eq in Hlook.
    inversion Hlook; subst e'. split; [exact He|].
    intros Hd. apply grows_insert. auto.
  - rewrite lookup_insert_ne in Hlook by exact Hne.
    destruct (Hc d' u' e' Hlook) as [H1 H2]. split; [exact H1|].
    intros Hd. apply grows_insert. auto.
Qed.

Lemma drop_cons_tail {A : Type} (l : list A) (d : nat) x rest :
  drop d l = x :: rest -> drop (S d) l = rest /\ (d < length l)%nat.
Proof.
  intros H. split.
  - replace (S d) with (d + 1)%nat by lia. rewrite <- drop_drop, H. reflexivity.
  - destruct (decide (d < length l)%nat) as [Hlt|Hge]; [exact Hlt|].
    rewrite drop_ge in H by lia. discriminate.
Qed.

Lemma tail_drop {A : Type} (l : list A) (d : nat) : tail (drop d l) = drop (S d) l.
Proof.
  revert l. induction d as [|d IH]; intros [|x l]; try reflexivity.
  cbn [drop]. apply IH.
Qed.

(** [_buildScoreTree] returns the score of [solve], and leaves a cache that
    satisfies the invariant and holds the key of the call. *)
Lemma build_memo (C : list (list Q)) (thrs : list Q) rows :
  forall depth c used,
    rows = drop depth C -> rows <> [] ->
    cache_inv C thrs c ->
    let r := _buildScoreTree rows (drop depth thrs) c used depth in
    fst r = fst (solve rows (drop depth thrs) used)
    /\ cache_inv C thrs (snd r)
    /\ grows c (snd r)
    /\ snd r !! (depth, used) = Some (solve rows (drop depth thrs) used).
Proof.
  induction rows as [|row rest IH]; intros depth c used Hrows Hne Hc; [congruence|].
  symmetry in Hrows. destruct (drop_cons_tail C depth row rest Hrows) as [Hrest Hdepth].
  cbn zeta. rewrite solve_cons. cbn [_buildScoreTree]. rewrite tail_drop.
  unfold below_rows. destruct rest as [|row' rest'].
  - (* last row *)
    change (@None (cache -> Z -> Q * cache)) with (pure_child <$> @None (Z -> Q)).
    rewrite row_scan_pure. cbn zeta.
    destruct (pure_scan None _ _ _ _ _ _) as [bs bi] eqn:Escan. cbn [fst snd].
    assert (Hsolve : (bs, bi) = solve (drop depth C) (drop depth thrs) used).
    { rewrite Hrows, solve_cons. unfold below_rows. cbn zeta. rewrite Escan.
      reflexivity. }
    split; [reflexivity|]. split; [|split].
    + apply cache_inv_insert; [exact Hc|exact Hsolve|].
      intros Hd. assert (length (drop (S depth) C) = 0%nat) by (rewrite Hrest; reflexivity).
      rewrite length_drop in H. lia.
    + apply grows_insert.
    + apply lookup_insert_eq.
  - (* a row with rows below *)
    set (rest := row' :: rest') in *.
    set (h := fun key => fst (solve rest (drop (S depth) thrs) key)).
    set (f := child_score
                (fun c key => _buildScoreTree rest (drop (S depth) thrs) c key (S depth))
                depth).
    assert (Hf : child_ok C thrs depth f h).
    { intros c0 key Hc0. unfold f, child_score.
      destruct (c0 !! (S depth, key)) as [e|] eqn:Elook.
      - cbn [fst snd]. destruct (Hc0 _ _ _ Elook) as [He _].
        split; [|split; [exact Hc0|split; [apply grows_refl|eauto]]].
        unfold h. rewrite He, Hrest. reflexivity.
      - destruct (IH (S depth) c0 key (eq_sym Hrest) ltac:(discriminate) Hc0)
          as (I1 & I2 & I3 & I4).
        split; [exact I1|]. split; [exact I2|]. split; [exact I3|]. eauto. }
    pose proof (memo_scan C thrs depth f h (head (drop depth thrs)) used (take 32 row)
                  Hf 0 0 (-1) c ltac:(lia) Hc ltac:(left; reflexivity))
      as (M1 & M2 & M3 & M4).
    cbn zeta in M1, M2, M3, M4.
    destruct (row_scan (Some f) _ _ _ _ _ _ _) as [[bs bi] c1].
    cbn [fst snd] in M1, M2, M3, M4. rewrite <- M1. cbn [fst].
    destruct (Hf c1 used M2) as (F1 & F2 & F3 & F4).
    destruct (f c1 used) as [s c2]. cbn [fst snd] in F1, F2, F3, F4. subst s.
    fold h.
    assert (Hsolve : (if Qgtb (h used) bs then (h used, -1) else (bs, bi))
                     = solve (drop depth C) (drop depth thrs) used).
    { rewrite Hrows, solve_cons. unfold below_rows, rest. cbn zeta iota.
      rewrite tail_drop. fold rest. fold h. rewrite <- M1. reflexivity. }
    assert (Hnext : is_Some (c2 !! (S depth,
                       next_used used
                         (snd (if Qgtb (h used) bs then (h used, -1) else (bs, bi)))))).
    { destruct (Qgtb (h used) bs); cbn [snd].
      - exact F4.
      - destruct M4 as [->|M4]; [exact F4|apply F3; exact M4]. }
    clear Hf. unfold h in *. cbn beta in *.
    destruct (Qgtb _ bs); cbn [fst snd] in *.
    + split; [reflexivity|]. split; [|split].
      * apply cache_inv_insert; [exact F2|exact Hsolve|auto].
      * eapply grows_trans; [exact M3|]. eapply grows_trans; [exact F3|].
        apply grows_insert.
      * rewrite lookup_insert_eq. reflexivity.
    + split; [reflexivity|]. split; [|split].
      * apply cache_inv_insert; [exact F2|exact Hsolve|auto].
      * eapply grows_trans; [exact M3|]. eapply grows_trans; [exact F3|].
        apply grows_insert.
      * rewrite lookup_insert_eq. reflexivity.
Qed.

(** Reading the cache back gives the columns chosen by [solve]; the entries
    of [match] after the rows are left as they are. *)
Lemma read_match_path (C : list (list Q)) (thrs : list Q) (c : cache) :
  cache_inv C thrs c ->
  forall n i used m,
    (i + n = length C)%nat -> (i <= length m)%nat ->
    ((0 < n)%nat -> is_Some (c !! (i, used))) ->
    read_match c n i used m
    = take i m ++ best_path (drop i C) (drop i thrs) used ++ drop (i + n) m.
Proof.
  intros Hc. induction n as [|n IH]; intros i used m Hin Hm Hsome.
  - cbn [read_match]. rewrite (drop_ge C) by lia. cbn [best_path app].
    rewrite Nat.add_0_r, take_drop. reflexivity.
  - cbn [read_match]. destruct (Hsome ltac:(lia)) as [e He]. rewrite He.
    destruct (Hc _ _ _ He) as [Hsolve Hnext].
    destruct (drop i C) as [|row rest] eqn:Hdrop.
    { assert (Hl : length (drop i C) = 0%nat) by (rewrite Hdrop; reflexivity).
      rewrite length_drop in Hl. lia. }
    destruct (drop_cons_tail C i row rest Hdrop) as [Hrest Hi].
    change (if snd e >? -1 then bor used (shl 1 (snd e)) else used)
      with (next_used used (snd e)).
    assert (Hset : (S i <= length (array_set m i (snd e)))%nat
                   /\ take (S i) (array_set m i (snd e)) = take i m ++ [snd e]
                   /\ drop (S i + n) (array_set m i (snd e)) = drop (i + S n) m).
    { unfold array_set. destruct (Nat.ltb_spec i (length m)) as [Hlt|Hge].
      - rewrite length_insert. split; [lia|]. split.
        + rewrite (take_S_r _ _ (snd e)) by (apply list_lookup_insert_eq; lia).
          rewrite take_insert_ge by lia. reflexivity.
        + rewrite drop_insert_lt by lia. f_equal. lia.
      - assert (i = length m) by lia. subst i.
        rewrite length_app. cbn [length]. split; [lia|]. split.
        + rewrite take_ge by (rewrite length_app; cbn; lia).
          rewrite take_ge by lia. reflexivity.
        + rewrite !drop_ge; [reflexivity|lia|rewrite length_app; cbn; lia]. }
    destruct Hset as (S1 & S2 & S3).
    rewrite IH; [|lia|exact S1|intros Hn; apply Hnext; lia].
    rewrite S2, S3, <- app_assoc. f_equal.
    cbn [best_path app]. rewrite tail_drop, Hrest, <- Hsolve. reflexivity.
Qed.

Lemma below_false s thr :
  below s thr = false <-> forall t, thr = Some t -> (t <= s)%Q.
Proof.
  unfold below. destruct thr as [t|].
  - rewrite Qltb_ge. split; [intros H t' Ht'; inversion Ht'; subst; exact H|auto].
  - split; [intros _ t Ht; discriminate|reflexivity].
Qed.

Lemma head_lookup {A : Type} (l : list A) : head l = l !! 0%nat.
Proof. destruct l; reflexivity. Qed.

Lemma tail_lookup {A : Type} (l : list A) (i : nat) : tail l !! i = l !! S i.
Proof. destruct l; [rewrite !lookup_nil|]; reflexivity. Qed.

Lemma testbit_lor_pow2 (used c j : Z) :
  0 <= c -> 0 <= j ->
  Z.testbit (Z.lor used (2 ^ c)) j = Z.testbit used j || bool_decide (j = c).
Proof. intros Hc Hj. rewrite Z.lor_spec, testbit_pow2 by lia. reflexivity. Qed.

(** The recursive form of validity against its statement on indices. *)
Lemma valid_from_iff rows :
  forall thrs used assignment,
    Forall (fun row => (length row <= 31)%nat) rows ->
    valid_from rows thrs used assignment
    <-> valid_mapping rows thrs assignment
        /\ forall i j, assignment !! i = Some j -> j <> -1 -> Z.testbit used j = false.
Proof.
  induction rows as [|row rest IH]; intros thrs used assignment Hrows.
  - destruct assignment as [|c assignment]; cbn [valid_from].
    + split; [|auto]. intros _. split; [|intros i j H; rewrite lookup_nil in H; discriminate].
      split; [reflexivity|].
      split; intros i; intros; rewrite lookup_nil in *; discriminate.
    + split; [intros []|]. intros [[H _] _]. discriminate.
  - destruct assignment as [|c assignment]; cbn [valid_from].
    { split; [intros []|]. intros [[H _] _]. discriminate. }
    inversion Hrows as [|? ? Hrow Hrest']; subst.
    rewrite !IH by assumption. split.
    + intros [(-> & (Hlen & Hent & Hinj) & Havoid)
             |(Hc & (s & Hs & Hthr) & Hfree & (Hlen & Hent & Hinj) & Havoid)].
      * split; [split; [|split]|].
        -- cbn. congruence.
        -- intros [|i] j Hi Hj; cbn in Hi; [congruence|].
           destruct (Hent i j Hi Hj) as (row' & s & H1 & H2 & H3 & H4).
           exists row', s. repeat split; try assumption; try lia.
           intros t Ht. apply H4. rewrite tail_lookup. exact Ht.
        -- intros [|i] [|i'] j Hi Hi' Hj; cbn in Hi, Hi'; try congruence.
           f_equal. eauto.
        -- intros [|i] j Hi Hj; cbn in Hi; [congruence|eauto].
      * assert (Hc32 : c < 32) by (apply lookup_lt_Some in Hs; lia).
        split; [split; [|split]|].
        -- cbn. congruence.
        -- intros [|i] j Hi Hj; cbn in Hi.
           ++ inversion Hi; subst j. exists row, s.
              repeat split; try assumption; try lia.
              intros t Ht. rewrite <- head_lookup in Ht.
              apply (proj1 (below_false s (head thrs)) Hthr t Ht).
           ++ destruct (Hent i j Hi Hj) as (row' & s' & H1 & H2 & H3 & H4).
              exists row', s'. repeat split; try assumption; try lia.
              intros t Ht. apply H4. rewrite tail_lookup. exact Ht.
        -- intros [|i] [|i'] j Hi Hi' Hj; cbn in Hi, Hi'; try congruence.
           ++ inversion Hi; subst j.
              pose proof (Havoid i' c Hi' Hj) as Hbit.
              rewrite testbit_lor_pow2 in Hbit by lia.
              rewrite bool_decide_eq_true_2 in Hbit by reflexivity.
              rewrite orb_true_r in Hbit. discriminate.
           ++ inversion Hi'; subst j.
              pose proof (Havoid i c Hi Hj) as Hbit.
              rewrite testbit_lor_pow2 in Hbit by lia.
              rewrite bool_decide_eq_true_2 in Hbit by reflexivity.
              rewrite orb_true_r in Hbit. discriminate.
           ++ f_equal. eauto.
        -- intros [|i] j Hi Hj; cbn in Hi.
           ++ inversion Hi; subst j. exact Hfree.
           ++ pose proof (Havoid i j Hi Hj) as Hbit.
              destruct (Hent i j Hi Hj) as (_ & _ & _ & Hj0 & _).
              rewrite testbit_lor_pow2 in Hbit by lia.
              apply orb_false_iff in Hbit. tauto.
    + intros [(Hlen & Hent & Hinj) Havoid].
      assert (Hrest : valid_mapping rest (tail thrs) assignment).
      { split; [cbn in Hlen; congruence|]. split.
        - intros i j Hi Hj.
          destruct (Hent (S i) j Hi Hj) as (row' & s & H1 & H2 & H3 & H4).
          exists row', s. repeat split; try assumption; try lia.
          intros t Ht. apply H4. rewrite <- tail_lookup. exact Ht.
        - intros i i' j Hi Hi' Hj.
          assert (S i = S i') by (apply (Hinj (S i) (S i') j); assumption). lia. }
      destruct (Z.eq_dec c (-1)) as [->|Hc].
      * left. split; [reflexivity|]. split; [exact Hrest|].
        intros i j Hi Hj. apply (Havoid (S i) j Hi Hj).
      * right. destruct (Hent 0%nat c eq_refl Hc) as (row' & s & H1 & H2 & H3 & H4).
        cbn in H1. inversion H1; subst row'.
        split; [lia|]. split.
        -- exists s. split; [exact H3|]. apply below_false. intros t Ht.
           apply H4. rewrite <- head_lookup. exact Ht.
        -- split; [apply (Havoid 0%nat c eq_refl Hc)|]. split; [exact Hrest|].
           intros i j Hi Hj.
           destruct (Hent (S i) j Hi Hj) as (_ & _ & _ & Hj0 & _).
           rewrite testbit_lor_pow2 by lia.
           apply orb_false_iff. split; [apply (Havoid (S i) j Hi Hj)|].
           apply bool_decide_eq_false_2. intros ->.
           assert (S i = 0%nat) by (apply (Hinj (S i) 0%nat c); [exact Hi|reflexivity|exact Hc]).
           discriminate.
Qed.

(** The run of [_matchScoreGrid] in terms of [solve] and [best_path]. *)
Lemma matchScoreGrid_run (C : list (list Q)) (match_ : list Z) (thresholds : list Q) :
  C <> [] ->
  exists score,
    _matchScoreGrid C match_ thresholds
    = Some (score, best_path C thresholds 0 ++ drop (length C) match_)
    /\ score = fst (solve C thresholds 0).
Proof.
  intros HC. unfold _matchScoreGrid. destruct C as [|row rest] eqn:EC; [congruence|].
  rewrite <- EC in *.
  assert (Hinv : cache_inv C thresholds ∅).
  { intros d u e He. rewrite lookup_empty in He. discriminate. }
  pose proof (build_memo C thresholds C 0%nat ∅ 0 eq_refl HC Hinv) as B.
  cbn zeta in B. rewrite !drop_0 in B. destruct B as (B1 & B2 & _ & B4).
  destruct (_buildScoreTree C thresholds ∅ 0 0) as [score scoretree].
  cbn [fst snd] in B1, B2, B4. exists score. split; [|exact B1].
  f_equal. f_equal.
  rewrite (read_match_path C thresholds scoretree B2 (length C) 0%nat 0 match_);
    [|reflexivity|lia|intros _; eauto].
  rewrite take_0, !drop_0. reflexivity.
Qed.

(** * Properties of the code outside the claims *)

(** ** The token assignment solver *)

(** X1.  On a grid with at least one row and rows of at most 31 columns,
    [_matchScoreGrid] returns; it writes one entry of [match] per row and
    leaves the later entries alone; the entries written are a valid mapping
    (a column of the row or -1, a score that is not under the threshold of
    the row, no column given to two rows), and the score returned is the sum
    of the scores of the matched pairs. *)
Theorem matchScoreGrid_valid (C : list (list Q)) (match_ : list Z)
    (thresholds : list Q) :
  C <> [] ->
  Forall (fun row => (length row <= 31)%nat) C ->
  exists score assignment,
    Assign._matchScoreGrid C match_ thresholds
    = Some (score, assignment ++ drop (length C) match_)
    /\ valid_mapping C thresholds assignment
    /\ (total_score C assignment == score)%Q.
Proof.
  intros HC Hrows.
  destruct (matchScoreGrid_run C match_ thresholds HC) as (score & Hrun & Hscore).
  exists score, (best_path C thresholds 0). split; [exact Hrun|].
  destruct (solve_path C thresholds 0 ltac:(lia) Hrows) as [Hvalid Htotal].
  split.
  - apply (valid_from_iff C thresholds 0 _ Hrows) in Hvalid. apply Hvalid.
  - rewrite Hscore. exact Htotal.
Qed.

Lemma matchScoreGrid_valid_witness :
  (example_grid <> [] /\ Forall (fun row => (length row <= 31)%nat) example_grid)
  /\ exists score assignment,
       Assign._matchScoreGrid example_grid [-1; -1] example_thresholds
       = Some (score, assignment ++ drop (length example_grid) [-1; -1])
       /\ valid_mapping example_grid example_thresholds assignment
       /\ (total_score example_grid assignment == score)%Q.
Proof.
  assert (H1 : example_grid <> []) by discriminate.
  assert (H2 : Forall (fun row => (length row <= 31)%nat) example_grid).
  { repeat constructor; simpl; lia. }
  split; [exact (conj H1 H2)|].
  exact (matchScoreGrid_valid example_grid [-1; -1] example_thresholds H1 H2).
Defined.

(** X2.  On such a grid no valid mapping has a greater sum than the score
    that [_matchScoreGrid] returns. *)
Theorem matchScoreGrid_optimal (C : list (list Q)) (match_ : list Z)
    (thresholds : list Q) (assignment : list Z) :
  C <> [] ->
  Forall (fun row => (length row <= 31)%nat) C ->
  valid_mapping C thresholds assignment ->
  exists score match',
    Assign._matchScoreGrid C match_ thresholds = Some (score, match')
    /\ (total_score C assignment <= score)%Q.
Proof.
  intros HC Hrows Hvalid.
  destruct (matchScoreGrid_run C match_ thresholds HC) as (score & Hrun & Hscore).
  exists score, (best_path C thresholds 0 ++ drop (length C) match_).
  split; [exact Hrun|]. rewrite Hscore.
  apply solve_opt; [lia|exact Hrows|].
  apply (valid_from_iff C thresholds 0 _ Hrows). split; [exact Hvalid|].
  intros i j _ _. apply Z.bits_0.
Qed.

Lemma example_mapping_valid : valid_mapping example_grid example_thresholds example_mapping.
Proof.
  apply (valid_from_iff example_grid example_thresholds 0).
  - repeat constructor; simpl; lia.
  - cbn. right. split; [lia|]. split; [exists 1%Q; split; reflexivity|].
    split; [reflexivity|]. right. split; [lia|].
    split; [exists 2%Q; split; reflexivity|]. split; [reflexivity|exact I].
Qed.

Lemma matchScoreGrid_optimal_witness :
  (example_grid <> [] /\ Forall (fun row => (length row <= 31)%nat) example_grid
   /\ valid_mapping example_grid example_thresholds example_mapping)
  /\ exists score match',
       Assign._matchScoreGrid example_grid [-1; -1] example_thresholds
       = Some (score, match')
       /\ (total_score example_grid example_mapping <= score)%Q.
Proof.
  assert (H1 : example_grid <> []) by discriminate.
  assert (H2 : Forall (fun row => (length row <= 31)%nat) example_grid).
  { repeat constructor; simpl; lia. }
  pose proof example_mapping_valid as H3.
  split; [exact (conj H1 (conj H2 H3))|].
  exact (matchScoreGrid_optimal example_grid [-1; -1] example_thresholds example_mapping
           H1 H2 H3).
Defined.

(** ** Flipping a match *)

Lemma flip_loop_length ref : forall i n acc,
  length (flip_loop ref i n acc) = length acc.
Proof.
  induction ref as [|j ref IH]; intros i n acc; cbn [flip_loop]; [reflexivity|].
  rewrite IH. destruct (_ && _); [apply length_insert|reflexivity].
Qed.

(** The entry [k] after the loop: the index of the entry of [ref] that
    holds [k], when there is one. *)
Lemma flip_loop_lookup ref : forall i n acc (k : nat),
  (forall i1 i2 j, ref !! i1 = Some j -> ref !! i2 = Some j -> j <> -1 -> i1 = i2) ->
  Z.of_nat k < n -> (k < length acc)%nat ->
  (forall i', ref !! i' = Some (Z.of_nat k) ->
     flip_loop ref i n acc !! k = Some (i + Z.of_nat i'))
  /\ ((forall i', ref !! i' <> Some (Z.of_nat k)) ->
      flip_loop ref i n acc !! k = acc !! k).
Proof.
  induction ref as [|j ref IH]; intros i n acc k Hinj Hk Hlen.
  - split; [intros i' H; rewrite lookup_nil in H; discriminate|reflexivity].
  - cbn [flip_loop].
    assert (Hinj' : forall i1 i2 j', ref !! i1 = Some j' -> ref !! i2 = Some j' ->
                      j' <> -1 -> i1 = i2).
    { intros i1 i2 j' H1 H2 Hj.
      assert (S i1 = S i2) by (apply (Hinj (S i1) (S i2) j'); assumption). lia. }
    set (acc' := if (j >? -1) && (j <? n) then <[Z.to_nat j := i]> acc else acc).
    assert (Hlen' : (k < length acc')%nat).
    { unfold acc'. destruct (_ && _); [rewrite length_insert|]; exact Hlen. }
    destruct (IH (i + 1) n acc' k Hinj' Hk Hlen') as [IH1 IH2].
    split.
    + intros [|i'] Hi'.
      * cbn in Hi'. inversion Hi'; subst j.
        rewrite IH2.
        -- unfold acc'.
           replace ((Z.of_nat k >? -1) && (Z.of_nat k <? n)) with true
             by (symmetry; apply andb_true_iff; split; lia).
           rewrite Nat2Z.id, list_lookup_insert_eq by exact Hlen.
           f_equal. lia.
        -- intros i' Hi''.
           assert (0%nat = S i') by (apply (Hinj 0%nat (S i') (Z.of_nat k));
                                     [reflexivity|exact Hi''|lia]).
           discriminate.
      * cbn in Hi'. rewrite (IH1 i' Hi'). f_equal. lia.
    + intros Hnone. rewrite IH2 by (intros i'; apply (Hnone (S i'))).
      unfold acc'. destruct (_ && _) eqn:E; [|reflexivity].
      apply list_lookup_insert_ne. intros Heq.
      apply (Hnone 0%nat). cbn. f_equal. apply andb_true_iff in E. lia.
Qed.

(** The array left by [_flipmatch] on a match without a column matched
    twice. *)
Lemma flipmatch_spec (match_ : list Z) (n : nat) :
  injective_match match_ ->
  length (_flipmatch match_ n) = n
  /\ forall k : nat, (k < n)%nat ->
       (forall i : nat, _flipmatch match_ n !! k = Some (Z.of_nat i)
                        <-> match_ !! i = Some (Z.of_nat k))
       /\ ((forall i, match_ !! i <> Some (Z.of_nat k)) ->
           _flipmatch match_ n !! k = Some (-1))
       /\ (forall v, _flipmatch match_ n !! k = Some v ->
             v = -1 \/ exists i : nat, v = Z.of_nat i /\ match_ !! i = Some (Z.of_nat k)).
Proof.
  intros Hinj. unfold _flipmatch. split.
  { rewrite flip_loop_length. apply length_replicate. }
  intros k Hk.
  destruct (flip_loop_lookup match_ 0 (Z.of_nat n) (replicate n (-1)) k Hinj
              ltac:(lia) ltac:(rewrite length_replicate; exact Hk)) as [L1 L2].
  assert (Hrep : replicate n (-1) !! k = Some (-1))
    by (apply lookup_replicate_2; exact Hk).
  assert (Hval : forall v, flip_loop match_ 0 (Z.of_nat n) (replicate n (-1)) !! k = Some v ->
             v = -1 \/ exists i : nat, v = Z.of_nat i /\ match_ !! i = Some (Z.of_nat k)).
  { intros v Hf.
    destruct (decide (Z.of_nat k ∈ match_)) as [Hin|Hnot].
    - apply list_elem_of_lookup in Hin. destruct Hin as [i' Hi'].
      rewrite (L1 i' Hi') in Hf. inversion Hf. right. exists i'. split; [lia|exact Hi'].
    - rewrite L2 in Hf.
      + rewrite Hrep in Hf. inversion Hf. left. reflexivity.
      + intros i' Hi'. apply Hnot. apply list_elem_of_lookup. eauto. }
  split; [|split].
  - intros i. split.
    + intros Hf. destruct (Hval _ Hf) as [H|(i' & H & Hi')]; [lia|].
      replace i with i' by lia. exact Hi'.
    + intros Hi. rewrite (L1 i Hi). f_equal.
  - intros Hnone. rewrite (L2 Hnone). exact Hrep.
  - exact Hval.
Qed.

(** X3.  When no column is matched by two rows, [_flipmatch(match, n)]
    leaves an array of length [n] that is the inverse of the match: its
    entry [k] is the row [i] exactly when the entry [i] of the match was the
    column [k], and it is -1 when no row was matched with [k]. *)
Theorem flipmatch_inverse (match_ : list Z) (n : nat) :
  injective_match match_ ->
  length (_flipmatch match_ n) = n
  /\ forall k : nat, (k < n)%nat ->
       (forall i : nat, _flipmatch match_ n !! k = Some (Z.of_nat i)
                        <-> match_ !! i = Some (Z.of_nat k))
       /\ ((forall i, match_ !! i <> Some (Z.of_nat k)) ->
           _flipmatch match_ n !! k = Some (-1)).
Proof.
  intros Hinj. destruct (flipmatch_spec match_ n Hinj) as [Hlen Hf].
  split; [exact Hlen|]. intros k Hk. destruct (Hf k Hk) as (H1 & H2 & _).
  split; assumption.
Qed.

Lemma example_mapping_injective : injective_match example_mapping.
Proof.
  intros [|[|i]] [|[|i']] j H1 H2 Hj; cbn in H1, H2; try discriminate;
    try reflexivity; congruence.
Qed.

Lemma flipmatch_inverse_witness :
  injective_match example_mapping
  /\ length (_flipmatch example_mapping 2) = 2%nat
  /\ forall k : nat, (k < 2)%nat ->
       (forall i : nat, _flipmatch example_mapping 2 !! k = Some (Z.of_nat i)
                        <-> example_mapping !! i = Some (Z.of_nat k))
       /\ ((forall i, example_mapping !! i <> Some (Z.of_nat k)) ->
           _flipmatch example_mapping 2 !! k = Some (-1)).
Proof.
  pose proof example_mapping_injective as H.
  split; [exact H|]. exact (flipmatch_inverse example_mapping 2 H).
Defined.

(** X4.  Flipping twice gives the match back: when the entries of [match]
    are -1 or columns under [n], no column twice, flipping it to the length
    [n] and flipping the result to the length of [match] restores it. *)
Theorem flipmatch_round_trip (match_ : list Z) (n : nat) :
  injective_match match_ -> match_within match_ n ->
  _flipmatch (_flipmatch match_ n) (length match_) = match_.
Proof.
  intros Hinj Hin.
  destruct (flipmatch_spec match_ n Hinj) as [Hlen Hf].
  assert (Hinj' : injective_match (_flipmatch match_ n)).
  { intros k k' v Hk Hk' Hv.
    assert (Hkn : (k < n)%nat) by (apply lookup_lt_Some in Hk; lia).
    assert (Hkn' : (k' < n)%nat) by (apply lookup_lt_Some in Hk'; lia).
    destruct (Hf k Hkn) as (Hk1 & _ & Hk3).
    destruct (Hf k' Hkn') as (Hk1' & _ & _).
    destruct (Hk3 v Hk) as [->|(i & -> & Hi)]; [congruence|].
    apply Hk1' in Hk'. rewrite Hi in Hk'. inversion Hk'. lia. }
  destruct (flipmatch_spec (_flipmatch match_ n) (length match_) Hinj')
    as [Hlen' Hg].
  apply list_eq. intros i.
  destruct (match_ !! i) as [j|] eqn:Hi.
  - assert (Hil : (i < length match_)%nat) by (apply lookup_lt_Some in Hi; lia).
    destruct (Hg i Hil) as (Hg1 & Hg2 & _).
    destruct (Hin i j Hi) as [->|Hj].
    + apply Hg2. intros k Hk.
      assert (Hkn : (k < n)%nat) by (apply lookup_lt_Some in Hk; lia).
      apply (proj1 (Hf k Hkn)) in Hk. rewrite Hi in Hk. inversion Hk. lia.
    + replace j with (Z.of_nat (Z.to_nat j)) by lia.
      apply Hg1. apply (proj1 (Hf (Z.to_nat j) ltac:(lia))).
      rewrite Hi. f_equal. lia.
  - apply lookup_ge_None. rewrite Hlen'. apply lookup_ge_None in Hi. exact Hi.
Qed.

Lemma example_mapping_within : match_within example_mapping 2.
Proof.
  intros [|[|i]] j H; cbn in H; inversion H; right; lia.
Qed.

Lemma flipmatch_round_trip_witness :
  (injective_match example_mapping /\ match_within example_mapping 2)
  /\ _flipmatch (_flipmatch example_mapping 2) (length example_mapping)
     = example_mapping.
Proof.
  pose proof example_mapping_injective as H1.
  pose proof example_mapping_within as H2.
  split; [exact (conj H1 H2)|].
  exact (flipmatch_round_trip example_mapping 2 H1 H2).
Defined.

(** ** The length of the longest common subsequence *)

Lemma llcs_nil_r (a : Token) : llcs a [] = 0%nat.
Proof. destruct a; reflexivity. Qed.

Lemma llcs_cons (x : ascii) (a : Token) (y : ascii) (b : Token) :
  llcs (x :: a) (y :: b)
  = if decide (x = y) then S (llcs a b)
    else Nat.max (llcs a (y :: b)) (llcs (x :: a) b).
Proof. reflexivity. Qed.

(** [llcs a b] is the length of a common subsequence ... *)
Lemma llcs_sound (a : Token) : forall b : Token,
  exists s : Token, s `sublist_of` a /\ s `sublist_of` b /\ length s = llcs a b.
Proof.
  induction a as [|x a IHa]; intros b.
  - exists []. repeat split; apply sublist_nil_l.
  - induction b as [|y b IHb].
    + exists []. repeat split; apply sublist_nil_l.
    + rewrite llcs_cons. destruct (decide (x = y)) as [->|Hxy].
      * destruct (IHa b) as (s & H1 & H2 & H3).
        exists (y :: s). repeat split; [apply sublist_skip, H1|apply sublist_skip, H2|].
        cbn. rewrite H3. reflexivity.
      * destruct (Nat.max_spec (llcs a (y :: b)) (llcs (x :: a) b)) as [[_ ->]|[_ ->]].
        -- destruct IHb as (s & H1 & H2 & H3).
           exists s. repeat split; [exact H1|apply sublist_cons, H2|exact H3].
        -- destruct (IHa (y :: b)) as (s & H1 & H2 & H3).
           exists s. repeat split; [apply sublist_cons, H1|exact H2|exact H3].
Qed.

Lemma sublist_cons_inv (x : ascii) (s l : Token) :
  x :: s `sublist_of` l -> s `sublist_of` l.
Proof. intros H. etransitivity; [apply sublist_cons; reflexivity|exact H]. Qed.

(** ... and no common subsequence is longer. *)
Lemma llcs_max (a : Token) : forall (b s : Token),
  s `sublist_of` a -> s `sublist_of` b -> (length s <= llcs a b)%nat.
Proof.
  induction a as [|x a IHa]; intros b s Ha Hb.
  - apply sublist_nil_r in Ha. subst s. cbn. lia.
  - revert s Ha Hb. induction b as [|y b IHb]; intros s Ha Hb.
    + apply sublist_nil_r in Hb. subst s. cbn. lia.
    + rewrite llcs_cons.
      apply sublist_cons_r in Ha. apply sublist_cons_r in Hb.
      destruct (decide (x = y)) as [->|Hxy].
      * destruct Ha as [Ha|(s' & -> & Ha)]; destruct Hb as [Hb|(s'' & Hs & Hb)].
        -- pose proof (IHa b s Ha Hb). lia.
        -- subst s. apply sublist_cons_inv in Ha.
           pose proof (IHa b s'' Ha Hb). cbn. lia.
        -- apply sublist_cons_inv in Hb. pose proof (IHa b s' Ha Hb). cbn. lia.
        -- inversion Hs; subst s''. pose proof (IHa b s' Ha Hb). cbn. lia.
      * destruct Ha as [Ha|(s' & -> & Ha)].
        -- assert (Hb' : s `sublist_of` y :: b) by (apply sublist_cons_r; exact Hb).
           pose proof (IHa (y :: b) s Ha Hb'). lia.
        -- destruct Hb as [Hb|(s'' & Hs & Hb)]; [|congruence].
           assert (Ha' : x :: s' `sublist_of` x :: a) by (apply sublist_skip, Ha).
           pose proof (IHb (x :: s') Ha' Hb). lia.
Qed.

Lemma sublist_rev (s l : Token) : s `sublist_of` l -> rev s `sublist_of` rev l.
Proof.
  induction 1 as [|x l1 l2 _ IH|x l1 l2 _ IH]; cbn [rev].
  - constructor.
  - apply sublist_app; [exact IH|reflexivity].
  - apply sublist_inserts_r, IH.
Qed.

Lemma llcs_rev_le (a b : Token) : (llcs a b <= llcs (rev a) (rev b))%nat.
Proof.
  destruct (llcs_sound a b) as (s & H1 & H2 & <-).
  rewrite <- (length_rev s). apply llcs_max; apply sublist_rev; assumption.
Qed.

Lemma llcs_rev (a b : Token) : llcs (rev a) (rev b) = llcs a b.
Proof.
  apply Nat.le_antisymm; [|apply llcs_rev_le].
  rewrite <- (rev_involutive a), <- (rev_involutive b) at 2. apply llcs_rev_le.
Qed.

(** The recurrence of the table, on the last characters. *)
Lemma llcs_snoc (a : Token) (x : ascii) (b : Token) (y : ascii) :
  llcs (a ++ [x]) (b ++ [y])
  = if decide (x = y) then S (llcs a b)
    else Nat.max (llcs a (b ++ [y])) (llcs (a ++ [x]) b).
Proof.
  rewrite <- (llcs_rev (a ++ [x]) (b ++ [y])), !rev_app_distr. cbn [rev app].
  rewrite llcs_cons. destruct (decide (x = y)).
  - rewrite llcs_rev. reflexivity.
  - f_equal.
    + rewrite <- (llcs_rev a (b ++ [y])), rev_app_distr. reflexivity.
    + rewrite <- (llcs_rev (a ++ [x]) b), rev_app_distr. reflexivity.
Qed.

Lemma llcs_le_length (a b : Token) : (llcs a b <= length a)%nat.
Proof.
  destruct (llcs_sound a b) as (s & H1 & _ & <-). apply sublist_length, H1.
Qed.

(** A character more in [a] adds at most one to the length. *)
Lemma llcs_snoc_l (a : Token) (x : ascii) (b : Token) :
  (llcs a b <= llcs (a ++ [x]) b <= S (llcs a b))%nat.
Proof.
  split.
  - destruct (llcs_sound a b) as (s & H1 & H2 & <-).
    apply llcs_max; [apply sublist_inserts_r, H1|exact H2].
  - destruct (llcs_sound (a ++ [x]) b) as (s & H1 & H2 & <-).
    apply sublist_app_r in H1. destruct H1 as (s1 & s2 & -> & H1 & H3).
    rewrite length_app. apply sublist_length in H3. cbn in H3.
    assert (Hs1 : s1 `sublist_of` b).
    { etransitivity; [|exact H2]. apply sublist_inserts_r. reflexivity. }
    pose proof (llcs_max a b s1 H1 Hs1). lia.
Qed.

Lemma llcs_snoc_r (a : Token) (b : Token) (y : ascii) :
  (llcs a b <= llcs a (b ++ [y]) <= S (llcs a b))%nat.
Proof.
  split.
  - destruct (llcs_sound a b) as (s & H1 & H2 & <-).
    apply llcs_max; [exact H1|apply sublist_inserts_r, H2].
  - destruct (llcs_sound a (b ++ [y])) as (s & H1 & H2 & <-).
    apply sublist_app_r in H2. destruct H2 as (s1 & s2 & -> & H2 & H3).
    rewrite length_app. apply sublist_length in H3. cbn in H3.
    assert (Hs1 : s1 `sublist_of` a).
    { etransitivity; [|exact H1]. apply sublist_inserts_r. reflexivity. }
    pose proof (llcs_max a b s1 Hs1 H2). lia.
Qed.

(** A subsequence of [b] is its own longest common subsequence with [b]. *)
Lemma llcs_sublist (a b : Token) : a `sublist_of` b -> llcs a b = length a.
Proof.
  intros H. apply Nat.le_antisymm; [apply llcs_le_length|].
  apply llcs_max; [reflexivity|exact H].
Qed.

Lemma llcs_self (a : Token) : llcs a a = length a.
Proof. apply llcs_sublist. reflexivity. Qed.

(** The common prefix is a prefix of both strings. *)
Lemma common_prefix_take (a : Token) : forall b : Token,
  take (common_prefix a b) a = take (common_prefix a b) b
  /\ (common_prefix a b <= length a)%nat /\ (common_prefix a b <= length b)%nat.
Proof.
  induction a as [|x a IH]; intros [|y b]; cbn [common_prefix];
    try (cbn; repeat split; lia).
  destruct (decide (x = y)) as [->|Hxy]; [|cbn; repeat split; lia].
  destruct (IH b) as (H1 & H2 & H3). cbn. rewrite H1. repeat split; [lia..].
Qed.

Lemma llcs_common_prefix (a b : Token) :
  llcs (take (common_prefix a b) a) b = common_prefix a b.
Proof.
  destruct (common_prefix_take a b) as (H1 & H2 & H3).
  rewrite llcs_sublist; [apply length_take_le; exact H2|].
  rewrite H1. apply sublist_take.
Qed.

(** ** Rows of the table, by differences *)

Lemma row_bit_nil (a : Token) (i : nat) : row_bit a [] i = true.
Proof. unfold row_bit. rewrite !llcs_nil_r. reflexivity. Qed.

Lemma column_bit_0 (a b : Token) (c : ascii) : column_bit a b c 0 = false.
Proof. reflexivity. Qed.

(** The row and the column differences after a character more in [b]. *)
Lemma row_step (a b : Token) (c : ascii) (i : nat) (ai : ascii) :
  a !! i = Some ai ->
  row_bit a (b ++ [c]) i
  = (if decide (ai = c) then column_bit a b c i
     else row_bit a b i || column_bit a b c i)
  /\ column_bit a b c (S i)
     = (if decide (ai = c) then row_bit a b i
        else column_bit a b c i && row_bit a b i).
Proof.
  intros Hi. unfold row_bit, column_bit.
  rewrite (take_S_r a i ai Hi).
  pose proof (llcs_snoc (take i a) ai b c) as Hrec.
  pose proof (llcs_snoc_l (take i a) ai b) as H1.
  pose proof (llcs_snoc_r (take i a) b c) as H2.
  pose proof (llcs_snoc_l (take i a) ai (b ++ [c])) as H3.
  pose proof (llcs_snoc_r (take i a ++ [ai]) b c) as H4.
  rewrite Hrec. clear Hrec.
  destruct (decide (ai = c)).
  - split.
    + destruct (Nat.eqb_spec (S (llcs (take i a) b)) (llcs (take i a) (b ++ [c])));
        destruct (Nat.eqb_spec (llcs (take i a) (b ++ [c])) (llcs (take i a) b));
        cbn; try reflexivity; lia.
    + destruct (Nat.eqb_spec (S (llcs (take i a) b)) (llcs (take i a ++ [ai]) b));
        destruct (Nat.eqb_spec (llcs (take i a ++ [ai]) b) (llcs (take i a) b));
        cbn; try reflexivity; lia.
  - split.
    + destruct (Nat.eqb_spec (llcs (take i a ++ [ai]) b) (llcs (take i a) b));
        destruct (Nat.eqb_spec (llcs (take i a) (b ++ [c])) (llcs (take i a) b));
        destruct (Nat.eqb_spec
                    (Nat.max (llcs (take i a) (b ++ [c])) (llcs (take i a ++ [ai]) b))
                    (llcs (take i a) (b ++ [c])));
        cbn; try reflexivity; lia.
    + destruct (Nat.eqb_spec (llcs (take i a ++ [ai]) b) (llcs (take i a) b));
        destruct (Nat.eqb_spec (llcs (take i a) (b ++ [c])) (llcs (take i a) b));
        destruct (Nat.eqb_spec
                    (Nat.max (llcs (take i a) (b ++ [c])) (llcs (take i a ++ [ai]) b))
                    (llcs (take i a ++ [ai]) b));
        cbn; try reflexivity; lia.
Qed.

Lemma count_from_ext (f g : nat -> bool) : forall start n,
  (forall i, (start <= i < start + n)%nat -> f i = g i) ->
  count_from f start n = count_from g start n.
Proof.
  intros start n. revert start. induction n as [|n IH]; intros start H; [reflexivity|].
  cbn [count_from]. rewrite (H start) by lia. f_equal. apply IH. intros i Hi. apply H. lia.
Qed.

Lemma count_from_app (f : nat -> bool) : forall n start n',
  count_from f start (n + n') = count_from f start n + count_from f (start + n) n'.
Proof.
  induction n as [|n IH]; intros start n'.
  - rewrite Nat.add_0_r. cbn. reflexivity.
  - cbn [Nat.add count_from]. rewrite IH.
    replace (S start + n)%nat with (start + S n)%nat by lia. lia.
Qed.

Lemma count_from_false (f : nat -> bool) : forall n start,
  (forall i, (start <= i < start + n)%nat -> f i = false) ->
  count_from f start n = 0.
Proof.
  induction n as [|n IH]; intros start H; [reflexivity|].
  cbn [count_from]. rewrite (H start) by lia. rewrite IH; [reflexivity|].
  intros i Hi. apply H. lia.
Qed.

Lemma count_from_shift (f : nat -> bool) (k : nat) : forall n start,
  count_from (fun i => f (k + i)%nat) start n = count_from f (k + start) n.
Proof.
  induction n as [|n IH]; intros start; [reflexivity|].
  cbn [count_from]. rewrite IH. replace (k + S start)%nat with (S (k + start)) by lia.
  reflexivity.
Qed.

(** The number of bits set among the low bits, by [Z.testbit]. *)
Lemma bitcount_count : forall (n : nat) (x : Z),
  bitcount n x = count_from (fun k => Z.testbit x (Z.of_nat k)) 0 n.
Proof.
  induction n as [|n IH]; intros x; [reflexivity|].
  cbn [bitcount count_from]. rewrite IH. f_equal.
  symmetry.
  change 1%nat with (1 + 0)%nat.
  rewrite <- (count_from_shift (fun k => Z.testbit x (Z.of_nat k)) 1 n 0).
  symmetry. apply count_from_ext. intros i _.
  rewrite <- Z.div2_div, Z.div2_spec, Z.shiftr_spec by lia.
  f_equal. lia.
Qed.

(** The number of differences in a part of the row is the difference of the
    lengths at its ends. *)
Lemma row_count (a b : Token) : forall (n p : nat),
  (p + n <= length a)%nat ->
  count_from (fun i => negb (row_bit a b i)) p n
  = Z.of_nat (llcs (take (p + n) a) b) - Z.of_nat (llcs (take p a) b).
Proof.
  induction n as [|n IH]; intros p Hp.
  - rewrite Nat.add_0_r. cbn. lia.
  - cbn [count_from]. rewrite IH by lia.
    replace (S p + n)%nat with (p + S n)%nat by lia.
    destruct (lookup_lt_is_Some_2 a p ltac:(lia)) as [ai Hai].
    unfold row_bit. rewrite (take_S_r a p ai Hai).
    pose proof (llcs_snoc_l (take p a) ai b).
    destruct (Nat.eqb_spec (llcs (take p a ++ [ai]) b) (llcs (take p a) b)); cbn; lia.
Qed.

(** ** One turn of the bit-parallel sweep *)

Lemma to_int32_mod (z : Z) : to_int32 z mod 2 ^ 32 = z mod 2 ^ 32.
Proof.
  unfold to_int32. rewrite Zminus_mod, Zmod_mod, <- Zminus_mod. f_equal. lia.
Qed.

Lemma testbit_low (x y k : Z) :
  x mod 2 ^ 32 = y mod 2 ^ 32 -> 0 <= k < 32 -> Z.testbit x k = Z.testbit y k.
Proof.
  intros H Hk.
  rewrite <- (Z.mod_pow2_bits_low x 32 k), <- (Z.mod_pow2_bits_low y 32 k) by lia.
  rewrite H. reflexivity.
Qed.

Lemma to_int32_testbit (z k : Z) :
  0 <= k < 32 -> Z.testbit (to_int32 z) k = Z.testbit z k.
Proof. intros Hk. apply testbit_low; [apply to_int32_mod|exact Hk]. Qed.

Lemma band_testbit (a b k : Z) :
  0 <= k < 32 -> Z.testbit (band a b) k = Z.testbit a k && Z.testbit b k.
Proof.
  intros Hk. unfold band. rewrite Z.land_spec, !to_int32_testbit by exact Hk.
  reflexivity.
Qed.

Lemma bor_testbit (a b k : Z) :
  0 <= k < 32 -> Z.testbit (bor a b) k = Z.testbit a k || Z.testbit b k.
Proof.
  intros Hk. unfold bor. rewrite Z.lor_spec, !to_int32_testbit by exact Hk.
  reflexivity.
Qed.

Lemma bnot_testbit (a k : Z) :
  0 <= k < 32 -> Z.testbit (bnot a) k = negb (Z.testbit a k).
Proof.
  intros Hk. unfold bnot. rewrite Z.lnot_spec, to_int32_testbit by lia.
  reflexivity.
Qed.

(** [S - U] clears in [S] the bits of [U = S & M]: no borrow. *)
Lemma sub_testbit (S M k : Z) :
  0 <= k < 32 ->
  Z.testbit (S - band S M) k = Z.testbit S k && negb (Z.testbit M k).
Proof.
  intros Hk.
  assert (E : (S - band S M) mod 2 ^ 32 = (to_int32 S - band S M) mod 2 ^ 32).
  { rewrite (Zminus_mod S), (Zminus_mod (to_int32 S)), to_int32_mod. reflexivity. }
  rewrite (testbit_low _ _ k E Hk).
  rewrite Z.sub_nocarry_ldiff.
  - rewrite Z.ldiff_spec, band_testbit, to_int32_testbit by exact Hk.
    destruct (Z.testbit S k), (Z.testbit M k); reflexivity.
  - apply Z.bits_inj'. intros i Hi. rewrite Z.ldiff_spec, Z.bits_0.
    unfold band. rewrite Z.land_spec.
    destruct (Z.testbit (to_int32 S) i), (Z.testbit (to_int32 M) i); reflexivity.
Qed.

(** The bits of the state after a turn, with the carries of the addition. *)
Lemma step_val_bits (ZM S M : Z) :
  exists cv : Z,
    Z.testbit cv 0 = false
    /\ (forall k, 0 <= k < 32 ->
          Z.testbit cv (k + 1)
          = let s := Z.testbit S k in
            let u := Z.testbit S k && Z.testbit M k in
            let g := Z.testbit ZM k in
            (s && g) && (u && g) || Z.testbit cv k && ((s && g) || (u && g)))
    /\ (forall k, 0 <= k < 32 ->
          Z.testbit (step_val ZM S M) k
          = let s := Z.testbit S k in
            let u := Z.testbit S k && Z.testbit M k in
            let g := Z.testbit ZM k in
            xorb (xorb (s && g) (u && g)) (Z.testbit cv k)
            || (s && negb (Z.testbit M k))).
Proof.
  destruct (Z.add_carry_bits (band S ZM) (band (band S M) ZM) false)
    as (cv & Hsum & Hcv & H0).
  cbn [Z.b2z] in Hsum. rewrite Z.add_0_r in Hsum.
  exists cv. split; [exact H0|]. split.
  - intros k Hk. cbn zeta.
    rewrite <- (Z.div_pow2_bits cv 1 k) by lia. change (2 ^ 1) with 2.
    rewrite Hcv, Z.lor_spec, !Z.land_spec, Z.lor_spec, !band_testbit by exact Hk.
    reflexivity.
  - intros k Hk. cbn zeta. unfold step_val. cbn zeta.
    rewrite bor_testbit, sub_testbit by exact Hk.
    rewrite Hsum, !Z.lxor_spec, !band_testbit by exact Hk.
    reflexivity.
Qed.

(** A turn on the character [c] takes the row of [b] to the row of
    [b ++ [c]], in every lane. *)
Lemma lane_step (a b : Token) (c : ascii) (o ZM V M : Z) :
  0 <= o -> o + Z.of_nat (length a) <= 32 ->
  lane_inv V o a b ->
  (forall i : nat, (i < length a)%nat ->
     Z.testbit M (o + Z.of_nat i) = bool_decide (a !! i = Some c)) ->
  lane_gate ZM o a ->
  lane_inv (step_val ZM V M) o a (b ++ [c]).
Proof.
  intros Ho Hlen HS HM [Hg Hin].
  destruct (step_val_bits ZM V M) as (cv & H0 & Hc & Hv).
  assert (Hcarry : forall i : nat, (i < length a)%nat ->
            Z.testbit cv (o + Z.of_nat i) = column_bit a b c i).
  { induction i as [|i IH]; intros Hi.
    - rewrite column_bit_0. change (Z.of_nat 0) with 0. rewrite Z.add_0_r.
      destruct (Z.eq_dec o 0) as [->|Hne]; [exact H0|].
      destruct Hin as [->|Hin]; [exact H0|].
      replace o with ((o - 1) + 1) by lia. rewrite Hc by lia. cbn zeta.
      rewrite Hin, !andb_false_r. reflexivity.
    - replace (o + Z.of_nat (S i)) with ((o + Z.of_nat i) + 1) by lia.
      rewrite Hc by lia. cbn zeta.
      rewrite (Hg i Hi), IH, (HS i), (HM i) by lia.
      destruct (lookup_lt_is_Some_2 a i ltac:(lia)) as [ai Hai].
      destruct (row_step a b c i ai Hai) as [_ ->].
      rewrite Hai.
      destruct (decide (ai = c)) as [->|Hne].
      + rewrite bool_decide_eq_true_2 by reflexivity.
        destruct (row_bit a b i), (column_bit a b c i); reflexivity.
      + rewrite bool_decide_eq_false_2 by congruence.
        destruct (row_bit a b i), (column_bit a b c i); reflexivity. }
  intros i Hi. rewrite Hv by lia. cbn zeta.
  rewrite (Hcarry i Hi), (HS i Hi), (HM i Hi).
  destruct (lookup_lt_is_Some_2 a i Hi) as [ai Hai].
  destruct (row_step a b c i ai Hai) as [-> _].
  rewrite Hai.
  assert (Hgate : (S i < length a)%nat -> Z.testbit ZM (o + Z.of_nat i) = true)
    by (intros H; apply Hg; exact H).
  destruct (decide (ai = c)) as [->|Hne].
  - rewrite bool_decide_eq_true_2 by reflexivity.
    destruct (Z.testbit ZM (o + Z.of_nat i)), (row_bit a b i), (column_bit a b c i);
      reflexivity.
  - rewrite bool_decide_eq_false_2 by congruence.
    destruct (Nat.lt_ge_cases (S i) (length a)) as [Hlt|Hge].
    + rewrite (Hgate Hlt).
      destruct (row_bit a b i), (column_bit a b c i); reflexivity.
    + destruct (Z.testbit ZM (o + Z.of_nat i)), (row_bit a b i), (column_bit a b c i);
        reflexivity.
Qed.

(** A turn on a character that the map does not hold leaves the low bits
    as they are. *)
Lemma step_val_zero (ZM S k : Z) :
  0 <= k < 32 -> Z.testbit (step_val ZM S 0) k = Z.testbit S k.
Proof.
  intros Hk. unfold step_val. cbn zeta.
  assert (HU : band S 0 = 0).
  { unfold band. change (to_int32 0) with 0. apply Z.land_0_r. }
  rewrite HU. replace (band 0 ZM) with 0
    by (unfold band; change (to_int32 0) with 0; reflexivity).
  rewrite Z.add_0_r, Z.sub_0_r, bor_testbit, band_testbit by exact Hk.
  destruct (Z.testbit S k), (Z.testbit ZM k); reflexivity.
Qed.

(** ** The bit-parallel branch of [score_map] *)

Lemma to_int32_congr (x y : Z) :
  x mod 2 ^ 32 = y mod 2 ^ 32 -> to_int32 x = to_int32 y.
Proof.
  intros H. unfold to_int32. rewrite (Zplus_mod x), (Zplus_mod y), H. reflexivity.
Qed.

(** The turn of [score_map] is the turn of [score_pack] with a gate of
    ones. *)
Lemma lcs_step_pack (aMap : amap) (V : Z) (c : ascii) :
  lcs_step aMap V c = pack_step aMap (-1) V c.
Proof.
  unfold lcs_step, pack_step. destruct (aMap !! c) as [v|]; [|reflexivity].
  cbn zeta. unfold bor. f_equal. apply to_int32_congr.
  assert (E : forall x, band x (-1) = to_int32 x).
  { intros x. unfold band. change (to_int32 (-1)) with (-1). apply Z.land_m1_r. }
  rewrite !E.
  rewrite (Zplus_mod (to_int32 V)), !to_int32_mod, <- Zplus_mod. reflexivity.
Qed.

Lemma fold_left_pointwise {A B : Type} (f g : A -> B -> A) :
  (forall x y, f x y = g x y) ->
  forall l x, fold_left f l x = fold_left g l x.
Proof.
  intros H. induction l as [|y l IH]; intros x; [reflexivity|].
  cbn [fold_left]. rewrite H. apply IH.
Qed.

Lemma pack_step_val (aMap : amap) (ZM V : Z) (c : ascii) :
  pack_step aMap ZM V c
  = match aMap !! c with
    | Some v => step_val ZM V (bits_of v)
    | None => V
    end.
Proof. reflexivity. Qed.

(** The sweep over a string takes a lane from the row of [done] to the row
    of [done ++ rest]. *)
Lemma sweep_inv (a : Token) (o ZM : Z) (aMap : amap) :
  0 <= o -> o + Z.of_nat (length a) <= 32 ->
  lane_map aMap o a -> lane_gate ZM o a ->
  forall (rest : Token) (V : Z) (done : Token),
    lane_inv V o a done ->
    lane_inv (fold_left (pack_step aMap ZM) rest V) o a (done ++ rest).
Proof.
  intros Ho Hlen Hmap Hgate.
  induction rest as [|c rest IH]; intros V done HV.
  - rewrite app_nil_r. exact HV.
  - cbn [fold_left]. rewrite (cons_middle c done rest), app_assoc.
    apply IH. rewrite pack_step_val.
    assert (Hstep : lane_inv (step_val ZM V (map_bits aMap c)) o a (done ++ [c])).
    { apply lane_step; try assumption. intros i Hi. apply Hmap. exact Hi. }
    unfold map_bits in Hstep. destruct (aMap !! c) as [v|]; [exact Hstep|].
    intros i Hi. rewrite <- (Hstep i Hi). symmetry. apply step_val_zero. lia.
Qed.

Lemma lane_map_bitVector (a : Token) :
  (length a <= 31)%nat -> lane_map (bitVector a ∅ 0) 0 a.
Proof.
  intros Hlen c i Hi.
  assert (Hbelow : map_below ∅ 0).
  { intros c' v H. rewrite lookup_empty in H. discriminate. }
  destruct (bitVector_bits a ∅ 0 ltac:(lia) ltac:(lia) Hbelow) as [_ Hbits].
  specialize (Hbits c (0 + Z.of_nat i) ltac:(lia)).
  assert (H0 : Z.testbit (map_bits ∅ c) (0 + Z.of_nat i) = false).
  { unfold map_bits. rewrite lookup_empty. apply Z.bits_0. }
  destruct (Z.testbit (map_bits (bitVector a ∅ 0) c) (0 + Z.of_nat i)) eqn:E.
  - symmetry. apply bool_decide_eq_true_2.
    destruct (proj1 Hbits eq_refl) as [H|(i' & Hi' & Heq)]; [congruence|].
    replace i with i' by lia. exact Hi'.
  - symmetry. apply bool_decide_eq_false_2. intros Hai.
    assert (H : false = true); [|discriminate].
    apply Hbits. right. exists i. split; [exact Hai|reflexivity].
Qed.

Lemma lane_gate_ones (a : Token) : lane_gate (-1) 0 a.
Proof.
  split; [|left; reflexivity]. intros i _. apply Z.bits_m1. lia.
Qed.

Lemma mask_testbit (m k : Z) :
  0 <= m <= 31 -> 0 <= k < 32 -> Z.testbit (shl 1 m - 1) k = (k <? m).
Proof.
  intros Hm Hk. rewrite <- to_int32_testbit, mask_ones, testbit_ones by lia.
  reflexivity.
Qed.

Lemma lane_inv_mask (a : Token) :
  (length a <= 31)%nat -> lane_inv (shl 1 (Z.of_nat (length a)) - 1) 0 a [].
Proof.
  intros Hlen i Hi. rewrite row_bit_nil, mask_testbit by lia.
  apply Z.ltb_lt. lia.
Qed.

(** The bits that [score_map] counts: the bits of the lane from the prefix
    on that are clear in [S]. *)
Lemma counted_bits (V m : Z) (p : nat) :
  0 <= m <= 31 -> Z.of_nat p <= m ->
  let y := band (bnot V) (band (shl 1 m - 1) (bnot (shl 1 (Z.of_nat p) - 1))) in
  0 <= y < 2 ^ 31
  /\ forall k, 0 <= k < 32 ->
       Z.testbit y k = negb (Z.testbit V k) && ((k <? m) && negb (k <? Z.of_nat p)).
Proof.
  intros Hm Hp y.
  assert (Hbits : forall k, 0 <= k < 32 ->
            Z.testbit y k
            = negb (Z.testbit V k) && ((k <? m) && negb (k <? Z.of_nat p))).
  { intros k Hk. unfold y.
    rewrite !band_testbit, !bnot_testbit, !mask_testbit by lia. reflexivity. }
  split; [|exact Hbits].
  set (M := Z.land (Z.ones m) (Z.lnot (Z.ones (Z.of_nat p)))).
  assert (HMbits : forall i, 0 <= i ->
            Z.testbit M i = (i <? m) && negb (i <? Z.of_nat p)).
  { intros i Hi. subst M. rewrite Z.land_spec, Z.lnot_spec by lia.
    rewrite !testbit_ones by lia. reflexivity. }
  assert (H0 : 0 <= M).
  { subst M. apply Z.land_nonneg. left. rewrite Z.ones_equiv.
    pose proof (Z.pow_pos_nonneg 2 m ltac:(lia) ltac:(lia)). lia. }
  assert (HM : 0 <= M < 2 ^ 31).
  { split; [exact H0|].
    apply (Z.bounded_iff_bits_nonneg 31); [lia|exact H0|].
    intros l Hl. rewrite HMbits by lia.
    destruct (Z.ltb_spec l m); [lia|reflexivity]. }
  assert (Ey : y = Z.land (to_int32 (bnot V)) M).
  { subst y. unfold band. rewrite mask_ones by lia.
    unfold bnot at 2. rewrite mask_ones by lia.
    rewrite (to_int32_id (Z.lnot (Z.ones (Z.of_nat p)))).
    2:{ rewrite Z.ones_equiv. unfold Z.lnot.
        assert (0 < 2 ^ Z.of_nat p <= 2 ^ 31).
        { split; [apply Z.pow_pos_nonneg; lia|apply pow2_le_mono; lia]. }
        lia. }
    fold M. rewrite (to_int32_id M) by lia. reflexivity. }
  rewrite Ey.
  assert (Hy0 : 0 <= Z.land (to_int32 (bnot V)) M).
  { apply Z.land_nonneg. right. lia. }
  split; [exact Hy0|].
  apply (Z.bounded_iff_bits_nonneg 31); [lia|exact Hy0|].
  intros l Hl. rewrite Z.land_spec, HMbits by lia.
  destruct (Z.ltb_spec l m); [lia|]. apply andb_false_r.
Qed.

(** The number of bits of [y] when its bits are the differences of a row
    between [p] and [m]. *)
Lemma count_row (y : Z) (a b : Token) (p : nat) :
  (p <= length a <= 32)%nat ->
  (forall k : nat, (k < 32)%nat ->
     Z.testbit y (Z.of_nat k)
     = negb (row_bit a b k) && ((k <? length a)%nat && negb (k <? p)%nat)) ->
  bitcount 32 y
  = Z.of_nat (llcs a b) - Z.of_nat (llcs (take p a) b).
Proof.
  intros Hp Hy. rewrite bitcount_count.
  set (m := length a) in *.
  replace 32%nat with (p + ((m - p) + (32 - m)))%nat by lia.
  rewrite !count_from_app.
  rewrite (count_from_false _ p 0).
  2:{ intros i Hi. rewrite Hy by lia.
      destruct (Nat.ltb_spec i p); [|lia]. rewrite andb_false_r. apply andb_false_r. }
  rewrite (count_from_false _ (32 - m)).
  2:{ intros i Hi. rewrite Hy by lia.
      destruct (Nat.ltb_spec i m); [lia|]. apply andb_false_r. }
  rewrite (count_from_ext _ (fun i => negb (row_bit a b i)) (0 + p) (m - p)).
  2:{ intros i Hi. rewrite Hy by lia.
      destruct (Nat.ltb_spec i m); [|lia]. destruct (Nat.ltb_spec i p); [lia|].
      cbn. apply andb_true_r. }
  rewrite row_count by (unfold m; lia).
  replace (0 + p + (m - p))%nat with m by lia.
  unfold m. rewrite firstn_all. cbn [Nat.add]. lia.
Qed.

(** The value of [lcs_len] in the bit-parallel branch, for the alphabet map
    of [a]: the longest common subsequence of [a] and the rest of [b], less
    the part of it that the prefix of [a] gives, plus the prefix. *)
Lemma lcs_bits_value (a b : Token) (p : nat) :
  (length a <= 31)%nat -> (p <= length a)%nat ->
  lcs_bits (Z.of_nat (length a)) b (bitVector a ∅ 0) p
  = Z.of_nat (llcs a (drop p b)) - Z.of_nat (llcs (take p a) (drop p b))
    + Z.of_nat p.
Proof.
  intros Hlen Hp. unfold lcs_bits. cbn zeta.
  set (V := fold_left (lcs_step (bitVector a ∅ 0)) (drop p b)
              (shl 1 (Z.of_nat (length a)) - 1)).
  assert (HV : lane_inv V 0 a (drop p b)).
  { unfold V.
    rewrite (fold_left_pointwise (lcs_step (bitVector a ∅ 0))
               (pack_step (bitVector a ∅ 0) (-1)))
      by (intros; apply lcs_step_pack).
    change (drop p b) with ([] ++ drop p b) at 2.
    apply sweep_inv; [lia|lia|apply lane_map_bitVector; exact Hlen
                     |apply lane_gate_ones|apply lane_inv_mask; exact Hlen]. }
  destruct (counted_bits V (Z.of_nat (length a)) p ltac:(lia) ltac:(lia))
    as [Hy Hbits].
  rewrite popcount32_correct by exact Hy.
  rewrite (count_row _ a (drop p b) p); [lia|lia|].
  intros k Hk. rewrite Hbits by lia.
  destruct (Nat.ltb_spec k (length a)) as [Hka|Hka].
  - rewrite <- (HV k Hka). cbn [Z.add].
    replace (Z.of_nat k <? Z.of_nat (length a)) with true by (symmetry; apply Z.ltb_lt; lia).
    f_equal. f_equal. f_equal.
    destruct (Nat.ltb_spec k p); [apply Z.ltb_lt|apply Z.ltb_ge]; lia.
  - replace (Z.of_nat k <? Z.of_nat (length a)) with false by (symmetry; apply Z.ltb_ge; lia).
    cbn [andb]. rewrite !andb_false_r. reflexivity.
Qed.

(** ** The score of a pair of tokens *)

Lemma alphabet_short (a : Token) :
  (length a <= 32)%nat -> alphabet a = bitVector a ∅ 0.
Proof.
  intros H. unfold alphabet, INT_SIZE.
  destruct (Z.gtb_spec (Z.of_nat (length a)) 32); [lia|reflexivity].
Qed.

Lemma llcs_comm (a b : Token) : llcs a b = llcs b a.
Proof.
  apply Nat.le_antisymm.
  - destruct (llcs_sound a b) as (s & H1 & H2 & <-). apply llcs_max; assumption.
  - destruct (llcs_sound b a) as (s & H1 & H2 & <-). apply llcs_max; assumption.
Qed.

Lemma common_prefix_self (a : Token) : common_prefix a a = length a.
Proof.
  induction a as [|x a IH]; [reflexivity|]. cbn.
  destruct (decide (x = x)); [|congruence]. rewrite IH. reflexivity.
Qed.

Lemma min_length_pos (a b : Token) :
  a <> [] -> b <> [] ->
  ((if (length a <? length b)%nat then length a else length b) =? 0)%nat = false.
Proof.
  intros Ha Hb. destruct a; [congruence|]. destruct b; [congruence|].
  cbn [length]. destruct (_ <? _)%nat; reflexivity.
Qed.

(** When one token starts with the other, the longest common subsequence
    is the shorter token. *)
Lemma llcs_full_prefix (a b : Token) :
  common_prefix a b = (if (length a <? length b)%nat then length a else length b) ->
  llcs a b = common_prefix a b.
Proof.
  intros Hk. destruct (common_prefix_take a b) as (Ht & Ha & Hb).
  destruct (Nat.ltb_spec (length a) (length b)) as [Hlt|Hge].
  - rewrite Hk in Ht |- *. rewrite firstn_all in Ht.
    apply llcs_sublist. rewrite Ht. apply sublist_take.
  - rewrite Hk in Ht |- *. rewrite firstn_all in Ht.
    rewrite llcs_comm. apply llcs_sublist. rewrite <- Ht. apply sublist_take.
Qed.

(** The score when one token starts with the other. *)
Lemma score_prefix_eq (options : Options) (a b : Token) :
  a <> [] -> b <> [] ->
  common_prefix a b = Nat.min (length a) (length b) ->
  score options a b = claimed_score options a b
  /\ llcs a b = Nat.min (length a) (length b).
Proof.
  intros Ha Hb Hp.
  assert (Hk : Nat.min (length a) (length b)
               = if (length a <? length b)%nat then length a else length b).
  { destruct (Nat.ltb_spec (length a) (length b)); lia. }
  rewrite Hk in Hp |- *.
  pose proof (llcs_full_prefix a b Hp) as Hl.
  split; [|rewrite Hl; exact Hp].
  unfold score, score_map, claimed_score. cbn zeta.
  rewrite (min_length_pos a b Ha Hb). cbn [orb].
  destruct (size_gate options (length a) (length b)); [reflexivity|].
  assert (Hpre : prefix_map a b (if (length a <? length b)%nat then length a
                                 else length b) = common_prefix a b).
  { unfold prefix_map. destruct (decide (a = b)); [symmetry; exact Hp|reflexivity]. }
  rewrite Hpre.
  assert (Hv : lcs_len_map a b (alphabet a) (common_prefix a b)
                 (if (length a <? length b)%nat then length a else length b)
               = Z.of_nat (common_prefix a b)).
  { unfold lcs_len_map. rewrite <- Hp, Nat.eqb_refl. reflexivity. }
  rewrite Hv, Hl. reflexivity.
Qed.

(** X5.  When one of two non-empty tokens starts with the other (or they
    are equal), whatever their lengths, [score] is 0 outside the size gate
    and [sz * llcs^2 + bonus_match_start * prefix] inside, with the longest
    common subsequence and the common prefix both equal to the shorter
    token. *)
Theorem score_full_prefix (options : Options) (a b : Token) :
  a <> [] -> b <> [] ->
  common_prefix a b = Nat.min (length a) (length b) ->
  score options a b = claimed_score options a b
  /\ llcs a b = Nat.min (length a) (length b).
Proof. exact (score_prefix_eq options a b). Qed.

Lemma score_full_prefix_witness :
  (tok "sur" <> [] /\ tok "surgery" <> []
   /\ common_prefix (tok "sur") (tok "surgery")
      = Nat.min (length (tok "sur")) (length (tok "surgery")))
  /\ score defaultOptions (tok "sur") (tok "surgery")
     = claimed_score defaultOptions (tok "sur") (tok "surgery")
  /\ llcs (tok "sur") (tok "surgery")
     = Nat.min (length (tok "sur")) (length (tok "surgery")).
Proof.
  assert (H1 : tok "sur" <> []) by discriminate.
  assert (H2 : tok "surgery" <> []) by discriminate.
  assert (H3 : common_prefix (tok "sur") (tok "surgery")
               = Nat.min (length (tok "sur")) (length (tok "surgery")))
    by reflexivity.
  split; [exact (conj H1 (conj H2 H3))|].
  exact (score_full_prefix defaultOptions (tok "sur") (tok "surgery") H1 H2 H3).
Defined.

(** The value of [lcs_len] in [score_map] for the alphabet map of a short
    token, when the common prefix is shorter than both tokens. *)
Lemma lcs_len_map_short (a b : Token) :
  (length a <= 31)%nat ->
  (common_prefix a b < Nat.min (length a) (length b))%nat ->
  lcs_len_map a b (bitVector a ∅ 0)
    (prefix_map a b (if (length a <? length b)%nat then length a else length b))
    (if (length a <? length b)%nat then length a else length b)
  = short_path_value a b.
Proof.
  intros Hlen Hp.
  assert (Hk : Nat.min (length a) (length b)
               = if (length a <? length b)%nat then length a else length b).
  { destruct (Nat.ltb_spec (length a) (length b)); lia. }
  rewrite Hk in Hp.
  assert (Hne : a <> b).
  { intros ->. rewrite common_prefix_self, Nat.ltb_irrefl in Hp. lia. }
  unfold prefix_map. destruct (decide (a = b)); [congruence|].
  unfold lcs_len_map.
  destruct (Nat.eqb_spec (common_prefix a b)
              (if (length a <? length b)%nat then length a else length b)); [lia|].
  unfold INT_SIZE. destruct (Z.gtb_spec (Z.of_nat (length a)) 32); [lia|].
  apply lcs_bits_value; [exact Hlen|]. destruct (length a <? length b)%nat; lia.
Qed.

(** The score in the bit-parallel branch. *)
Lemma score_short_eq (options : Options) (a b : Token) :
  (length a <= 31)%nat ->
  (common_prefix a b < Nat.min (length a) (length b))%nat ->
  size_gate options (length a) (length b) = false ->
  score options a b
  = (sz_score a b * inject_Z (short_path_value a b) * inject_Z (short_path_value a b)
     + bonus_match_start options * QofN (common_prefix a b))%Q.
Proof.
  intros Hlen Hp Hgate.
  assert (Ha : a <> []) by (intros ->; cbn in Hp; lia).
  assert (Hb : b <> []) by (intros ->; cbn in Hp; lia).
  unfold score, score_map. cbn zeta.
  rewrite (min_length_pos a b Ha Hb), Hgate. cbn [orb].
  rewrite alphabet_short by lia.
  rewrite (lcs_len_map_short a b Hlen Hp).
  assert (Hpre : prefix_map a b (if (length a <? length b)%nat then length a
                                 else length b) = common_prefix a b).
  { unfold prefix_map. destruct (decide (a = b)) as [->|]; [|reflexivity].
    rewrite Nat.ltb_irrefl, common_prefix_self. reflexivity. }
  rewrite Hpre. reflexivity.
Qed.

(** X6.  For a token [a] of at most 31 characters, when the common prefix
    is shorter than both tokens and the size gate is passed, [score] is
    [sz * v^2 + bonus_match_start * p] where [v] is what the sweep counts:
    the longest common subsequence of [a] and [b] without its first [p]
    characters, less the one of the first [p] characters of [a] and [b]
    without its first [p] characters, plus [p]. *)
Theorem score_short_value (options : Options) (a b : Token) :
  (length a <= 31)%nat ->
  (common_prefix a b < Nat.min (length a) (length b))%nat ->
  size_gate options (length a) (length b) = false ->
  score options a b
  = (sz_score a b * inject_Z (short_path_value a b) * inject_Z (short_path_value a b)
     + bonus_match_start options * QofN (common_prefix a b))%Q.
Proof. exact (score_short_eq options a b). Qed.

Lemma score_short_value_witness :
  ((length (tok "surgery") <= 31)%nat
   /\ (common_prefix (tok "surgery") (tok "survey")
       < Nat.min (length (tok "surgery")) (length (tok "survey")))%nat
   /\ size_gate defaultOptions (length (tok "surgery")) (length (tok "survey")) = false)
  /\ score defaultOptions (tok "surgery") (tok "survey")
     = (sz_score (tok "surgery") (tok "survey")
        * inject_Z (short_path_value (tok "surgery") (tok "survey"))
        * inject_Z (short_path_value (tok "surgery") (tok "survey"))
        + bonus_match_start defaultOptions
          * QofN (common_prefix (tok "surgery") (tok "survey")))%Q.
Proof.
  assert (H1 : (length (tok "surgery") <= 31)%nat) by (simpl; lia).
  assert (H2 : (common_prefix (tok "surgery") (tok "survey")
                < Nat.min (length (tok "surgery")) (length (tok "survey")))%nat)
    by (vm_compute; lia).
  assert (H3 : size_gate defaultOptions (length (tok "surgery"))
                 (length (tok "survey")) = false) by reflexivity.
  split; [exact (conj H1 (conj H2 H3))|].
  exact (score_short_value defaultOptions (tok "surgery") (tok "survey") H1 H2 H3).
Defined.

(** X7.  For a token [a] of 1 to 31 characters and a non-empty token [b]
    that do not start with the same character, [score] is the score by the
    longest common subsequence: 0 outside the size gate, and
    [sz * llcs(a,b)^2] inside. *)
Theorem score_no_prefix (options : Options) (a b : Token) :
  (1 <= length a <= 31)%nat -> b <> [] ->
  common_prefix a b = 0%nat ->
  score options a b = claimed_score options a b.
Proof.
  intros Hlen Hb Hp.
  assert (Ha : a <> []) by (intros ->; cbn in Hlen; lia).
  assert (Hmin : (common_prefix a b < Nat.min (length a) (length b))%nat).
  { rewrite Hp. destruct b; [congruence|]. cbn [length]. lia. }
  destruct (size_gate options (length a) (length b)) eqn:Hgate.
  - unfold score, score_map, claimed_score. cbn zeta. rewrite Hgate.
    rewrite orb_true_r. reflexivity.
  - rewrite (score_short_eq options a b ltac:(lia) Hmin Hgate).
    unfold claimed_score. cbn zeta. rewrite Hgate.
    unfold short_path_value, sz_score. cbn zeta. rewrite Hp.
    rewrite drop_0, take_0. cbn [llcs].
    replace (Z.of_nat (llcs a b) - Z.of_nat 0 + Z.of_nat 0)
      with (Z.of_nat (llcs a b)) by lia.
    reflexivity.
Qed.

Lemma score_no_prefix_witness :
  ((1 <= length (tok "surgery") <= 31)%nat /\ tok "gsurvey" <> []
   /\ common_prefix (tok "surgery") (tok "gsurvey") = 0%nat)
  /\ score defaultOptions (tok "surgery") (tok "gsurvey")
     = claimed_score defaultOptions (tok "surgery") (tok "gsurvey").
Proof.
  assert (H1 : (1 <= length (tok "surgery") <= 31)%nat) by (simpl; lia).
  assert (H2 : tok "gsurvey" <> []) by discriminate.
  assert (H3 : common_prefix (tok "surgery") (tok "gsurvey") = 0%nat) by reflexivity.
  split; [exact (conj H1 (conj H2 H3))|].
  exact (score_no_prefix defaultOptions (tok "surgery") (tok "gsurvey") H1 H2 H3).
Defined.

(** ** The counting loop of [score_pack] *)

Lemma bitcount_low (x y : Z) :
  x mod 2 ^ 32 = y mod 2 ^ 32 -> bitcount 32 x = bitcount 32 y.
Proof.
  intros H. rewrite !bitcount_count. apply count_from_ext. intros i Hi.
  apply testbit_low; [exact H|lia].
Qed.

Lemma bits_low_eq (x y : Z) :
  (forall k, 0 <= k < 32 -> Z.testbit x k = Z.testbit y k) ->
  x mod 2 ^ 32 = y mod 2 ^ 32.
Proof.
  intros H. apply Z.bits_inj'. intros k Hk.
  rewrite !Z.testbit_mod_pow2 by lia.
  destruct (Z.ltb_spec k 32); [|reflexivity]. cbn [andb]. apply H. lia.
Qed.

(** [x & (x - 1)] clears the lowest bit set. *)
Lemma bitcount_clear_lowest : forall (n : nat) (x : Z),
  x mod 2 ^ Z.of_nat n <> 0 ->
  bitcount n (Z.land x (x - 1)) = bitcount n x - 1.
Proof.
  induction n as [|n IH]; intros x Hx.
  - exfalso. apply Hx. change (2 ^ Z.of_nat 0) with 1. apply Z.mod_1_r.
  - cbn [bitcount].
    assert (Hdiv : Z.land x (x - 1) / 2 = Z.land (x / 2) ((x - 1) / 2)).
    { rewrite <- !Z.div2_div, !Z.div2_spec. apply Z.shiftr_land. }
    assert (Hodd : Z.odd (Z.land x (x - 1)) = Z.odd x && Z.odd (x - 1)).
    { rewrite <- !Z.bit0_odd. apply Z.land_spec. }
    rewrite Hdiv, Hodd.
    destruct (Z.odd x) eqn:Eo.
    + assert (Z.odd (x - 1) = false).
      { rewrite Z.odd_sub, Eo. reflexivity. }
      rewrite H. cbn [andb Z.b2z].
      assert (Hh : (x - 1) / 2 = x / 2).
      { rewrite (Zodd_div2 x) at 1 by (apply Zodd_bool_iff; exact Eo).
        rewrite Z.div2_div.
        replace (2 * (x / 2) + 1 - 1) with ((x / 2) * 2) by lia.
        apply Z.div_mul. lia. }
      rewrite Hh, Z.land_diag. lia.
    + cbn [andb Z.b2z].
      assert (Heven : x = 2 * (x / 2)).
      { rewrite <- Z.div2_div. apply Zeven_div2. apply Zeven_bool_iff.
        rewrite <- Z.negb_odd, Eo. reflexivity. }
      assert (Hh : (x - 1) / 2 = x / 2 - 1).
      { rewrite Heven at 1.
        replace (2 * (x / 2) - 1) with (1 + (x / 2 - 1) * 2) by lia.
        rewrite Z.div_add by lia. reflexivity. }
      rewrite Hh, IH; [lia|].
      intros Hz. apply Hx.
      rewrite Heven. rewrite Nat2Z.inj_succ, Z.pow_succ_r by lia.
      rewrite Z.mul_mod_distr_l by (try lia; apply Z.pow_nonzero; lia).
      rewrite Hz. reflexivity.
Qed.

Lemma bitcount_zero (n : nat) : bitcount n 0 = 0.
Proof. induction n as [|n IH]; [reflexivity|]. cbn. exact IH. Qed.

Lemma bitcount_le (n : nat) : forall x, bitcount n x <= Z.of_nat n.
Proof.
  induction n as [|n IH]; intros x; [cbn; lia|].
  cbn [bitcount]. specialize (IH (x / 2)). destruct (Z.odd x); cbn [Z.b2z]; lia.
Qed.

(** A turn of the loop on a value that is not 0. *)
Lemma band_clear_lowest (x : Z) :
  - 2 ^ 31 <= x < 2 ^ 32 -> x <> 0 ->
  bitcount 32 (band x (x - 1)) = bitcount 32 x - 1
  /\ - 2 ^ 31 <= band x (x - 1) < 2 ^ 32.
Proof.
  intros Hx Hne. split.
  - rewrite (bitcount_low (band x (x - 1)) (Z.land x (x - 1))).
    + apply (bitcount_clear_lowest 32). change (Z.of_nat 32) with 32.
      intros Hz. apply Hne.
      destruct (Z.lt_ge_cases x 0).
      * assert (x = 2 ^ 32 * (x / 2 ^ 32)) by
          (pose proof (Z.div_mod x (2 ^ 32) ltac:(lia)); lia).
        assert (x / 2 ^ 32 = -1).
        { symmetry. apply (Z.div_unique x (2 ^ 32) (-1) (x + 2 ^ 32)); lia. }
        lia.
      * rewrite Z.mod_small in Hz by lia. exact Hz.
    + apply bits_low_eq. intros k Hk. rewrite band_testbit, Z.land_spec by lia.
      reflexivity.
  - unfold band.
    pose proof (to_int32_range x) as R1. pose proof (to_int32_range (x - 1)) as R2.
    set (u := to_int32 x) in *. set (v := to_int32 (x - 1)) in *.
    assert (Hr : - 2 ^ 31 <= Z.land u v < 2 ^ 31); [|lia].
    destruct (Z.lt_ge_cases u 0) as [Hu|Hu]; destruct (Z.lt_ge_cases v 0) as [Hv|Hv].
    + assert (Hneg : Z.land u v < 0) by (apply Z.land_neg; lia).
      split; [|lia].
      assert (Hl : Z.lnot (Z.land u v) = Z.lor (Z.lnot u) (Z.lnot v))
        by apply Z.lnot_land.
      assert (Hb : 0 <= Z.lor (Z.lnot u) (Z.lnot v) < 2 ^ 31).
      { apply lor_bounded; unfold Z.lnot; lia. }
      unfold Z.lnot in Hl at 1. lia.
    + assert (H0 : 0 <= Z.land u v) by (apply Z.land_nonneg; lia).
      split; [lia|].
      apply (Z.bounded_iff_bits_nonneg 31); [lia|exact H0|].
      intros l Hl. rewrite Z.land_spec.
      rewrite (proj1 (Z.bounded_iff_bits_nonneg 31 v ltac:(lia) Hv) ltac:(lia) l Hl).
      apply andb_false_r.
    + assert (H0 : 0 <= Z.land u v) by (apply Z.land_nonneg; lia).
      split; [lia|].
      apply (Z.bounded_iff_bits_nonneg 31); [lia|exact H0|].
      intros l Hl. rewrite Z.land_spec.
      rewrite (proj1 (Z.bounded_iff_bits_nonneg 31 u ltac:(lia) Hu) ltac:(lia) l Hl).
      reflexivity.
    + assert (H0 : 0 <= Z.land u v) by (apply Z.land_nonneg; lia).
      split; [lia|].
      apply (Z.bounded_iff_bits_nonneg 31); [lia|exact H0|].
      intros l Hl. rewrite Z.land_spec.
      rewrite (proj1 (Z.bounded_iff_bits_nonneg 31 u ltac:(lia) Hu) ltac:(lia) l Hl).
      reflexivity.
Qed.

(** The loop adds the number of bits set, when it has a turn for each. *)
Lemma count_bits_spec : forall (fuel : nat) (Sm lcs_len : Z),
  - 2 ^ 31 <= Sm < 2 ^ 32 -> bitcount 32 Sm < Z.of_nat fuel ->
  count_bits fuel Sm lcs_len = lcs_len + bitcount 32 Sm.
Proof.
  induction fuel as [|fuel IH]; intros Sm l HS Hc.
  - pose proof (bitcount_nonneg 32 Sm). lia.
  - cbn [count_bits]. destruct (Z.eqb_spec Sm 0) as [->|Hne].
    + rewrite bitcount_zero. lia.
    + destruct (band_clear_lowest Sm HS Hne) as [Hb Hr].
      rewrite IH; [lia|exact Hr|lia].
Qed.

(** ** The packed scorer *)

Lemma lane_inv_ones (o : Z) (a : Token) :
  0 <= o -> o + Z.of_nat (length a) <= 32 -> lane_inv 0xFFFFFFFF o a [].
Proof.
  intros Ho Hlen i Hi. rewrite row_bit_nil.
  change 0xFFFFFFFF with (Z.ones 32). apply Z.ones_spec_low. lia.
Qed.

Lemma gate_testbit (gate k : Z) :
  0 <= k < 32 -> Z.testbit (bor gate 0) k = Z.testbit gate k.
Proof. intros Hk. rewrite bor_testbit, Z.bits_0, orb_false_r by exact Hk. reflexivity. Qed.

Lemma lane_offset_0 (toks : list Token) : lane_offset toks 0 = 0.
Proof. destruct toks; reflexivity. Qed.

(** The lane of a token of a packed group. *)
Lemma packed_lane (g : PackInfo) (k : nat) (t : Token) :
  packed_group g -> tokens g !! k = Some t ->
  0 <= lane_offset (tokens g) k
  /\ lane_offset (tokens g) k + Z.of_nat (length t) <= 31
  /\ lane_map (map g) (lane_offset (tokens g) k) t
  /\ lane_gate (bor (gate g) 0) (lane_offset (tokens g) k) t.
Proof.
  intros [_ Htotal Hdisj Hlanes Hgate] Hk.
  pose proof (lane_offset_nonneg (tokens g) k) as H0.
  pose proof (lane_offset_end (tokens g) k t Hk) as Hend.
  pose proof (lane_offset_le_total (tokens g) (S k)) as Hle.
  unfold INT_SIZE in Htotal.
  split; [exact H0|]. split; [lia|]. split; [|split].
  - intros c i Hi.
    destruct (Z.testbit (map_bits (map g) c)
                (lane_offset (tokens g) k + Z.of_nat i)) eqn:E.
    + symmetry. apply bool_decide_eq_true_2.
      apply (Hlanes c (lane_offset (tokens g) k + Z.of_nat i)) in E; [|lia].
      destruct E as (k' & t' & i' & Hk' & Hi' & Heq).
      destruct (Hdisj k k' t t' i i' Hk Hk' Hi
                  ltac:(apply lookup_lt_Some in Hi'; exact Hi') Heq) as [<- <-].
      rewrite Hk in Hk'. inversion Hk'; subst t'. exact Hi'.
    + symmetry. apply bool_decide_eq_false_2. intros Hi'.
      assert (H : Z.testbit (map_bits (map g) c)
                    (lane_offset (tokens g) k + Z.of_nat i) = true).
      { apply (Hlanes c (lane_offset (tokens g) k + Z.of_nat i)); [lia|].
        exists k, t, i. repeat split; assumption. }
      congruence.
  - intros i Hi. rewrite gate_testbit by lia.
    apply (proj2 (Hgate k t Hk)). lia.
  - destruct k as [|k'].
    + left. apply lane_offset_0.
    + destruct (Z.eq_dec (lane_offset (tokens g) (S k')) 0) as [Hz|Hnz]; [left; exact Hz|].
      right. rewrite gate_testbit by lia.
      destruct (lookup_lt_is_Some_2 (tokens g) k'
                  ltac:(apply lookup_lt_Some in Hk; lia)) as [t' Hk'].
      pose proof (proj1 (Hgate k' t' Hk')) as Htop.
      rewrite <- (lane_offset_end (tokens g) k' t' Hk'). exact Htop.
Qed.

Lemma shr_testbit (x n j : Z) :
  0 <= n < 32 -> 0 <= j ->
  Z.testbit (shr x n) j = (j + n <? 32) && Z.testbit x (j + n).
Proof.
  intros Hn Hj. unfold shr, to_uint32. rewrite (Z.mod_small n 32) by lia.
  rewrite Z.shiftr_spec by lia. apply Z.testbit_mod_pow2. lia.
Qed.

Lemma shr_range (x n : Z) : 0 <= n < 32 -> 0 <= shr x n < 2 ^ 32.
Proof.
  intros Hn. unfold shr, to_uint32. rewrite (Z.mod_small n 32) by lia.
  pose proof (Z.mod_pos_bound x (2 ^ 32) ltac:(lia)) as Hx.
  rewrite Z.shiftr_div_pow2 by lia.
  pose proof (Z.pow_pos_nonneg 2 n ltac:(lia) ltac:(lia)) as Hp.
  split; [apply Z.div_pos; lia|].
  apply Z.div_lt_upper_bound; [lia|]. nia.
Qed.

(** The bits that a lane of [score_pack] counts. *)
Lemma lane_count (V o : Z) (t b : Token) (p : nat) :
  0 <= o -> o + Z.of_nat (length t) <= 31 -> (p <= length t)%nat ->
  lane_inv V o t b ->
  let Sm := shr (band (shr (bnot V) o) (shl 1 (Z.of_nat (length t)) - 1))
                (Z.of_nat p) in
  0 <= Sm < 2 ^ 32
  /\ bitcount 32 Sm = Z.of_nat (llcs t b) - Z.of_nat (llcs (take p t) b).
Proof.
  intros Ho Hlen Hp HV Sm.
  split; [apply shr_range; lia|].
  set (m := length t) in *.
  assert (Hbits : forall k : nat, (k < 32)%nat ->
            Z.testbit Sm (Z.of_nat k)
            = negb (row_bit t b (p + k)) && (p + k <? m)%nat).
  { intros k Hk. unfold Sm. rewrite shr_testbit by lia.
    destruct (Z.ltb_spec (Z.of_nat k + Z.of_nat p) 32) as [H32|H32].
    - cbn [andb]. rewrite band_testbit, mask_testbit by lia.
      destruct (Nat.ltb_spec (p + k) m) as [Hm|Hm].
      + replace (Z.of_nat k + Z.of_nat p <? Z.of_nat m) with true
          by (symmetry; apply Z.ltb_lt; lia).
        rewrite shr_testbit by lia.
        replace (Z.of_nat k + Z.of_nat p + o <? 32) with true
          by (symmetry; apply Z.ltb_lt; lia).
        rewrite bnot_testbit by lia. cbn [andb]. rewrite !andb_true_r.
        f_equal. rewrite <- (HV (p + k)%nat Hm). f_equal. lia.
      + replace (Z.of_nat k + Z.of_nat p <? Z.of_nat m) with false
          by (symmetry; apply Z.ltb_ge; lia).
        rewrite !andb_false_r. reflexivity.
    - cbn [andb]. destruct (Nat.ltb_spec (p + k) m); [lia|].
      rewrite andb_false_r. reflexivity. }
  rewrite bitcount_count.
  rewrite (count_from_ext _ (fun k => (fun i => negb (row_bit t b i) && (i <? m)%nat)
                                        (p + k)%nat) 0 32)
    by (intros i Hi; apply Hbits; lia).
  rewrite (count_from_shift (fun i => negb (row_bit t b i) && (i <? m)%nat) p 32 0).
  replace 32%nat with ((m - p) + (32 - (m - p)))%nat by lia.
  rewrite count_from_app.
  rewrite (count_from_false _ (32 - (m - p))).
  2:{ intros i Hi. destruct (Nat.ltb_spec i m); [lia|]. apply andb_false_r. }
  rewrite (count_from_ext _ (fun i => negb (row_bit t b i)) (p + 0) (m - p)).
  2:{ intros i Hi. destruct (Nat.ltb_spec i m); [|lia]. apply andb_true_r. }
  rewrite row_count by (unfold m; lia).
  replace (p + 0 + (m - p))%nat with m by lia.
  unfold m. rewrite firstn_all, Nat.add_0_r. lia.
Qed.

(** The score of a lane is the score by the longest common subsequence. *)
Lemma score_lane_value (options : Options) (V o : Z) (t b : Token) :
  0 <= o -> o + Z.of_nat (length t) <= 31 -> lane_inv V o t b ->
  score_lane options (bnot V) b o t = claimed_score options t b.
Proof.
  intros Ho Hlen HV. unfold score_lane, claimed_score. cbn zeta.
  destruct (size_gate options (length t) (length b)); [reflexivity|].
  destruct (decide (t = b)) as [->|Hne].
  - rewrite llcs_self, common_prefix_self. reflexivity.
  - destruct (common_prefix_take t b) as (_ & Hp & _).
    destruct (lane_count V o t b (common_prefix t b) Ho Hlen Hp HV) as [Hr Hc].
    cbn zeta in Hr, Hc.
    rewrite count_bits_spec; [|lia|].
    2:{ pose proof (bitcount_le 32 (shr (band (shr (bnot V) o)
                                             (shl 1 (Z.of_nat (length t)) - 1))
                                      (Z.of_nat (common_prefix t b)))).
        change (Z.of_nat 33) with 33. change (Z.of_nat 32) with 32 in H. lia. }
    rewrite Hc, llcs_common_prefix.
    replace (Z.of_nat (common_prefix t b)
             + (Z.of_nat (llcs t b) - Z.of_nat (common_prefix t b)))
      with (Z.of_nat (llcs t b)) by lia.
    reflexivity.
Qed.

Lemma drop_lookup_head {A : Type} (l : list A) (k : nat) (x : A) (rest : list A) :
  drop k l = x :: rest -> l !! k = Some x.
Proof.
  intros H. rewrite <- (Nat.add_0_r k), <- lookup_drop, H. reflexivity.
Qed.

Lemma score_lanes_value (options : Options) (V : Z) (b : Token) (toks : list Token) :
  (forall k t, toks !! k = Some t ->
     0 <= lane_offset toks k
     /\ lane_offset toks k + Z.of_nat (length t) <= 31
     /\ lane_inv V (lane_offset toks k) t b) ->
  forall (rest : list Token) (k : nat),
    drop k toks = rest ->
    score_lanes options (bnot V) b (lane_offset toks k) rest
    = (fun t => claimed_score options t b) <$> rest.
Proof.
  intros Hl. induction rest as [|t rest IH]; intros k Hdrop; [reflexivity|].
  pose proof (drop_lookup_head toks k t rest Hdrop) as Hk.
  destruct (drop_cons_tail toks k t rest Hdrop) as [Hrest _].
  destruct (Hl k t Hk) as (H0 & H1 & H2).
  cbn [score_lanes fmap list_fmap]. f_equal.
  - apply score_lane_value; assumption.
  - rewrite (lane_offset_end toks k t Hk). apply IH. exact Hrest.
Qed.

(** The scores of the tokens of a packed group against a token of a
    field. *)
Lemma score_pack_value (options : Options) (g : PackInfo) (b : Token) :
  packed_group g ->
  score_pack g b options = (fun t => claimed_score options t b) <$> tokens g.
Proof.
  intros Hg. unfold score_pack. cbn zeta.
  set (V := fold_left (pack_step (map g) (bor (gate g) 0)) b 0xFFFFFFFF).
  assert (Hl : forall k t, tokens g !! k = Some t ->
            0 <= lane_offset (tokens g) k
            /\ lane_offset (tokens g) k + Z.of_nat (length t) <= 31
            /\ lane_inv V (lane_offset (tokens g) k) t b).
  { intros k t Hk.
    destruct (packed_lane g k t Hg Hk) as (H0 & H1 & Hmap & Hgate).
    split; [exact H0|]. split; [exact H1|].
    exact (sweep_inv t (lane_offset (tokens g) k) (bor (gate g) 0) (map g)
             H0 ltac:(lia) Hmap Hgate b 0xFFFFFFFF []
             (lane_inv_ones _ t H0 ltac:(lia))). }
  pose proof (score_lanes_value options V b (tokens g) Hl (tokens g) 0%nat
                (drop_0 _)) as H.
  rewrite lane_offset_0 in H. exact H.
Qed.

(** ** Counting bits *)

(** X8.  On a value of 31 bits the population count of [score_map] is the
    number of bits set. *)
Theorem popcount32_counts_bits (x : Z) :
  0 <= x < 2 ^ 31 -> popcount32 x = bitcount 32 x.
Proof. exact (popcount32_correct x). Qed.

Lemma popcount32_counts_bits_witness :
  0 <= 0x2DEADBEE < 2 ^ 31 /\ popcount32 0x2DEADBEE = bitcount 32 0x2DEADBEE.
Proof.
  assert (H : 0 <= 0x2DEADBEE < 2 ^ 31) by lia.
  split; [exact H|]. exact (popcount32_counts_bits 0x2DEADBEE H).
Defined.

(** X9.  The loop [while (Sm) { Sm &= Sm - 1; lcs_len++ }] of [score_pack],
    started on a 32-bit value (signed or not), ends within 32 turns and has
    added to [lcs_len] the number of bits set among the 32 low bits. *)
Theorem count_bits_counts_bits (fuel : nat) (Sm lcs_len : Z) :
  - 2 ^ 31 <= Sm < 2 ^ 32 -> (33 <= fuel)%nat ->
  count_bits fuel Sm lcs_len = lcs_len + bitcount 32 Sm.
Proof.
  intros HS Hfuel. apply count_bits_spec; [exact HS|].
  pose proof (bitcount_le 32 Sm). lia.
Qed.

Lemma count_bits_counts_bits_witness :
  (- 2 ^ 31 <= 0xDEADBEEF < 2 ^ 32 /\ (33 <= 33)%nat)
  /\ count_bits 33 0xDEADBEEF 0 = 0 + bitcount 32 0xDEADBEEF.
Proof.
  assert (H1 : - 2 ^ 31 <= 0xDEADBEEF < 2 ^ 32) by lia.
  assert (H2 : (33 <= 33)%nat) by lia.
  split; [exact (conj H1 H2)|]. exact (count_bits_counts_bits 33 0xDEADBEEF 0 H1 H2).
Defined.

(** ** The alphabet map of a short token *)

(** X10.  For a token of at most 31 characters, the bit [i] of the int that
    [bitVector(token, {}, 0)] holds for a character (0 when the character is
    not a key) is set exactly when the character is at the place [i] of the
    token. *)
Theorem bitVector_positions (token : Token) (c : ascii) (i : nat) :
  (length token <= 31)%nat ->
  Z.testbit (map_bits (bitVector token ∅ 0) c) (Z.of_nat i)
  = bool_decide (token !! i = Some c).
Proof.
  intros Hlen.
  assert (Hbelow : map_below ∅ 0).
  { intros c' v H. rewrite lookup_empty in H. discriminate. }
  destruct (bitVector_bits token ∅ 0 ltac:(lia) ltac:(lia) Hbelow) as [_ Hbits].
  specialize (Hbits c (Z.of_nat i) ltac:(lia)).
  assert (H0 : Z.testbit (map_bits ∅ c) (Z.of_nat i) = false).
  { unfold map_bits. rewrite lookup_empty. apply Z.bits_0. }
  destruct (Z.testbit (map_bits (bitVector token ∅ 0) c) (Z.of_nat i)) eqn:E.
  - symmetry. apply bool_decide_eq_true_2.
    destruct (proj1 Hbits eq_refl) as [H|(i' & Hi' & Heq)]; [congruence|].
    replace i with i' by lia. exact Hi'.
  - symmetry. apply bool_decide_eq_false_2. intros Hai.
    assert (H : false = true); [|discriminate].
    apply Hbits. right. exists i. split; [exact Hai|lia].
Qed.

Lemma bitVector_positions_witness :
  (length (tok "surgery") <= 31)%nat
  /\ Z.testbit (map_bits (bitVector (tok "surgery") ∅ 0) "r"%char) (Z.of_nat 5)
     = bool_decide (tok "surgery" !! 5%nat = Some "r"%char).
Proof.
  assert (H : (length (tok "surgery") <= 31)%nat) by (simpl; lia).
  split; [exact H|]. exact (bitVector_positions (tok "surgery") "r"%char 5 H).
Defined.

(** ** The packed scorer *)

Lemma elem_of_concat_intro {A : Type} (x : A) (l : list A) (ls : list (list A)) :
  x ∈ l -> l ∈ ls -> x ∈ concat ls.
Proof.
  intros Hx Hl. induction Hl as [l ls|l l' ls _ IH]; cbn [concat];
    apply elem_of_app; [left; exact Hx|right; exact (IH Hx)].
Qed.

(** X11.  For query tokens that are not empty and shorter than 32
    characters, every group that [pack_tokens] makes is scored lane by lane
    by the longest common subsequence: against a non-empty token of a field,
    [score_pack] gives for each token of the group 0 outside the size gate
    and [sz * llcs^2 + bonus_match_start * prefix] inside. *)
Theorem score_pack_lanes (options : Options) (toks : list Token) (b : Token) :
  Forall (fun t => t <> [] /\ (length t < 32)%nat) toks -> b <> [] ->
  Forall (fun g => score_pack g b options
                   = (fun t => claimed_score options t b) <$> tokens g)
    (pack_tokens toks).
Proof.
  intros Htoks _.
  assert (Hne : Forall (fun t : Token => t <> []) toks).
  { eapply Forall_impl; [exact Htoks|]. intros t [H _]. exact H. }
  destruct (pack_loop_ok toks [] [] ∅ 0 0 Hne ltac:(constructor) acc_ok_empty)
    as [Hok Hcat].
  fold (pack_tokens toks) in Hok, Hcat. cbn [fmap list_fmap concat app] in Hcat.
  apply Forall_forall. intros g Hg.
  apply score_pack_value.
  rewrite Forall_forall in Hok. destruct (Hok g Hg) as [(t & Hl & Heq)|Hp]; [|exact Hp].
  exfalso.
  assert (Ht : t ∈ toks).
  { rewrite <- Hcat. apply (elem_of_concat_intro t (tokens g)).
    - rewrite Heq. cbn. apply list_elem_of_here.
    - apply list_elem_of_fmap. exists g. split; [reflexivity|exact Hg]. }
  rewrite Forall_forall in Htoks. destruct (Htoks t Ht) as [_ Hshort].
  unfold INT_SIZE in Hl. lia.
Qed.

Lemma score_pack_lanes_witness :
  (Forall (fun t => t <> [] /\ (length t < 32)%nat) [tok "paint"; tok "my"; tok "wall"]
   /\ tok "wallpaper" <> [])
  /\ Forall (fun g => score_pack g (tok "wallpaper") defaultOptions
                      = (fun t => claimed_score defaultOptions t (tok "wallpaper"))
                          <$> tokens g)
       (pack_tokens [tok "paint"; tok "my"; tok "wall"]).
Proof.
  assert (H1 : Forall (fun t => t <> [] /\ (length t < 32)%nat)
                 [tok "paint"; tok "my"; tok "wall"]).
  { repeat constructor; try discriminate; simpl; lia. }
  assert (H2 : tok "wallpaper" <> []) by discriminate.
  split; [exact (conj H1 H2)|].
  exact (score_pack_lanes defaultOptions [tok "paint"; tok "my"; tok "wall"]
           (tok "wallpaper") H1 H2).
Defined.

(** ** The score of an item does not depend on the items before it *)

Lemma same_scores_group_refl (g : PackInfo) : same_scores_group g g.
Proof. repeat split. Qed.

Lemma Forall2_same_scores_refl (gs : list PackInfo) :
  Forall2 same_scores_group gs gs.
Proof. induction gs; constructor; [apply same_scores_group_refl|assumption]. Qed.

Lemma best_of_tokens_scores this g g' field_tokens :
  same_scores_group g g' ->
  forall i bs ixs,
    best_of_tokens this g field_tokens i bs ixs
    = best_of_tokens this g' field_tokens i bs ixs.
Proof.
  intros (Ht & Hm & Hg & _).
  induction field_tokens as [|token rest IH]; intros i bs ixs; [reflexivity|].
  cbn [best_of_tokens].
  assert (Hp : score_pack g token this = score_pack g' token this).
  { unfold score_pack. rewrite Ht, Hm, Hg. reflexivity. }
  rewrite Hp, Ht, Hm.
  destruct (update_best _ _ _ _) as [bs' ixs']. apply IH.
Qed.

Lemma score_group_scores this field_tokens g g' fs li :
  same_scores_group g g' ->
  score_group this field_tokens g fs li = score_group this field_tokens g' fs li.
Proof.
  intros H. unfold score_group.
  rewrite (best_of_tokens_scores this g g' field_tokens H).
  destruct H as (Ht & Hm & Hg & Hs). rewrite Ht, Hm, Hg, Hs. reflexivity.
Qed.

Lemma score_groups_scores this field_tokens gs gs' :
  Forall2 same_scores_group gs gs' ->
  forall fs li,
    score_groups this field_tokens gs fs li = score_groups this field_tokens gs' fs li.
Proof.
  induction 1 as [|g g' gs gs' Hg _ IH]; intros fs li; [reflexivity|].
  cbn [score_groups]. rewrite (score_group_scores this field_tokens g g' fs li Hg).
  destruct (score_group this field_tokens g' fs li) as [[g1 fs1] li1].
  rewrite IH. reflexivity.
Qed.

Lemma test_fused_scores this field_tokens q q' groups groups' fs :
  same_scores q q' -> Forall2 same_scores_group groups groups' ->
  fst (test_fused this field_tokens q groups fs)
  = fst (test_fused this field_tokens q' groups' fs)
  /\ same_scores (snd (test_fused this field_tokens q groups fs))
       (snd (test_fused this field_tokens q' groups' fs)).
Proof.
  intros (Hn & Hf & Hfs & Hfm & Hsi & _) Hg. unfold test_fused.
  rewrite Hf, Hfm, Hfs, Hn, Hsi.
  destruct (score_test_fused this); cbn [fst snd]; (split; [reflexivity|]);
    repeat split; exact Hg.
Qed.

Lemma field_score_of_scores this field q q' :
  same_scores q q' ->
  fst (field_score_of this field q) = fst (field_score_of this field q')
  /\ same_scores (snd (field_score_of this field q)) (snd (field_score_of this field q')).
Proof.
  intros H. pose proof H as (Hn & Hf & Hfs & Hfm & Hsi & Hg).
  unfold field_score_of. rewrite Hsi.
  destruct (score_per_token this).
  - destruct (single q').
    + unfold _scoreFieldSingle. rewrite Hf, Hfm.
      apply test_fused_scores; assumption.
    + unfold _scoreField. rewrite (score_groups_scores this field _ _ Hg).
      destruct (score_groups this field (tokens_groups q') 0 (-1)) as [groups fs].
      apply test_fused_scores; [exact H|apply Forall2_same_scores_refl].
  - cbn [fst snd]. rewrite Hf, Hfm. split; [reflexivity|exact H].
Qed.

Lemma field_loop_scores this item_fields :
  forall field_index st st',
    same_scores (fl_query st) (fl_query st') ->
    fl_item_score st = fl_item_score st' ->
    fl_matched_field_index st = fl_matched_field_index st' ->
    fl_position_bonus st = fl_position_bonus st' ->
    fl_item_score (field_loop this item_fields field_index st)
    = fl_item_score (field_loop this item_fields field_index st')
    /\ fl_matched_field_index (field_loop this item_fields field_index st)
       = fl_matched_field_index (field_loop this item_fields field_index st')
    /\ same_scores (fl_query (field_loop this item_fields field_index st))
         (fl_query (field_loop this item_fields field_index st')).
Proof.
  induction item_fields as [|field rest IH]; intros field_index st st' Hq Hs Hm Hb.
  - cbn [field_loop]. split; [exact Hs|split; [exact Hm|exact Hq]].
  - cbn [field_loop].
    destruct (field_score_of_scores this field _ _ Hq) as [Hfs Hq'].
    destruct (field_score_of this field (fl_query st)) as [fs query].
    destruct (field_score_of this field (fl_query st')) as [fs' query'].
    cbn [fst snd] in Hfs, Hq'. subst fs'. rewrite <- Hs, <- Hb.
    destruct (Qgtb (fs * (1 + fl_position_bonus st)) (fl_item_score st)).
    + destruct (Qgtb (fs * (1 + fl_position_bonus st)) (field_good_enough this)).
      * cbn. split; [reflexivity|split; [reflexivity|exact Hq']].
      * apply IH; cbn; try reflexivity; assumption.
    + apply IH; cbn; try reflexivity; assumption.
Qed.

Lemma sum_scores_scores gs gs' :
  Forall2 same_scores_group gs gs' -> sum_scores gs = sum_scores gs'.
Proof.
  intros H. unfold sum_scores. generalize 0%Q.
  induction H as [|g g' gs gs' (_ & _ & _ & Hs) _ IH]; intros acc; [reflexivity|].
  cbn [fold_left]. rewrite Hs. apply IH.
Qed.

Lemma reset_scores_scores q q' :
  same_static q q' -> score_shape q = score_shape q' ->
  same_scores (reset_scores q) (reset_scores q').
Proof.
  intros (Hn & Hf & Hfm & Hsi & Hg) Hshape.
  unfold reset_scores. repeat split; cbn; try assumption.
  unfold score_shape in Hshape. revert Hshape.
  induction Hg as [|g g' gs gs' (Ht & Hm & Hgt) _ IH]; intros Hshape; [constructor|].
  cbn in Hshape |- *. inversion Hshape as [[Hlen Hrest]].
  constructor; [|apply IH; exact Hrest].
  unfold reset_group. repeat split; cbn; try assumption. rewrite Hlen. reflexivity.
Qed.

Lemma item_score_of_scores this q q' item_fields :
  same_static q q' -> score_shape q = score_shape q' ->
  fst (item_score_of this q item_fields) = fst (item_score_of this q' item_fields).
Proof.
  intros Hst Hshape. pose proof (reset_scores_scores q q' Hst Hshape) as Hr.
  unfold item_score_of.
  destruct (field_loop_scores this item_fields 0
              (mkFieldLoop (reset_scores q) 0 (-1) 1)
              (mkFieldLoop (reset_scores q') 0 (-1) 1) Hr eq_refl eq_refl eq_refl)
    as (H1 & H2 & H3).
  destruct Hst as (_ & _ & _ & Hsi & _). rewrite Hsi.
  destruct (score_per_token this && negb (single q')); cbn [fst snd].
  - pose proof H3 as (_ & _ & Hfs & _ & _ & Hg).
    rewrite (sum_scores_scores _ _ Hg), Hfs, H1, H2. reflexivity.
  - rewrite H1, H2. reflexivity.
Qed.

(** The lengths of the [score_item] arrays are kept by scoring. *)
Lemma add_group_scores_length this :
  forall bs ixs olds fs li,
    length (snd (add_group_scores this bs ixs olds fs li)) = length olds.
Proof.
  induction bs as [|sc bs IH]; intros ixs olds fs li; [reflexivity|].
  destruct ixs as [|tmp ixs]; [reflexivity|].
  destruct olds as [|old olds]; [reflexivity|].
  cbn [add_group_scores].
  destruct (Qgtb sc (minimum_match this)).
  - destruct (tmp >? li).
    + specialize (IH ixs olds (fs + sc + bonus_token_order this)%Q tmp).
      destruct (add_group_scores _ _ _ _ _ _) as [[fs' li'] items].
      cbn in IH |- *. rewrite IH. reflexivity.
    + specialize (IH ixs olds (fs + sc)%Q tmp).
      destruct (add_group_scores _ _ _ _ _ _) as [[fs' li'] items].
      cbn in IH |- *. rewrite IH. reflexivity.
  - specialize (IH ixs olds (fs + sc)%Q li).
    destruct (add_group_scores _ _ _ _ _ _) as [[fs' li'] items].
    cbn in IH |- *. rewrite IH. reflexivity.
Qed.

Lemma score_groups_shape this field_tokens groups :
  forall fs li,
    (fun g => length (score_item g)) <$> fst (score_groups this field_tokens groups fs li)
    = (fun g => length (score_item g)) <$> groups.
Proof.
  induction groups as [|g rest IH]; intros fs li; [reflexivity|].
  cbn [score_groups]. unfold score_group.
  destruct (best_of_tokens _ _ _ _ _ _) as [bs ixs].
  pose proof (add_group_scores_length this bs ixs (score_item g) fs li) as Hlen.
  destruct (add_group_scores _ _ _ _ _ _) as [[fs' li'] items]. cbn in Hlen.
  specialize (IH fs' li').
  destruct (score_groups this field_tokens rest fs' li') as [rest' fs''].
  cbn in IH |- *. rewrite Hlen, IH. reflexivity.
Qed.

Lemma field_score_of_shape this field q :
  score_shape (snd (field_score_of this field q)) = score_shape q.
Proof.
  unfold field_score_of. destruct (score_per_token this); [|reflexivity].
  destruct (single q).
  - unfold _scoreFieldSingle, test_fused. destruct (score_test_fused this); reflexivity.
  - unfold _scoreField.
    pose proof (score_groups_shape this field (tokens_groups q) 0%Q (-1)) as H.
    destruct (score_groups _ _ _ _ _) as [groups fs]. cbn in H.
    unfold test_fused. destruct (score_test_fused this); exact H.
Qed.

Lemma field_loop_shape this item_fields :
  forall field_index st,
    score_shape (fl_query (field_loop this item_fields field_index st))
    = score_shape (fl_query st).
Proof.
  induction item_fields as [|field rest IH]; intros field_index st; [reflexivity|].
  cbn [field_loop].
  pose proof (field_score_of_shape this field (fl_query st)) as H.
  destruct (field_score_of this field (fl_query st)) as [fs query]. cbn in H.
  repeat case_match; try exact H; (etrans; [apply IH|exact H]).
Qed.

Lemma reset_scores_shape q : score_shape (reset_scores q) = score_shape q.
Proof.
  unfold score_shape, reset_scores. cbn. rewrite <- list_fmap_compose.
  apply list_fmap_ext. intros i g _. cbn. apply length_replicate.
Qed.

Lemma item_score_of_shape this q item_fields :
  score_shape (snd (item_score_of this q item_fields)) = score_shape q.
Proof.
  unfold item_score_of.
  pose proof (field_loop_shape this item_fields 0
                (mkFieldLoop (reset_scores q) 0 (-1) 1)) as H.
  cbn [fl_query] in H. rewrite reset_scores_shape in H.
  destruct (score_per_token this && negb (single q)); exact H.
Qed.

(** ** The search loop *)

Lemma fold_zeros (n : nat) : forall acc : Q,
  (fold_left Qplus (replicate n 0%Q) acc == acc)%Q.
Proof.
  induction n as [|n IH]; intros acc; cbn; [reflexivity|].
  rewrite IH. ring.
Qed.

Lemma sum_scores_reset (groups : list PackInfo) :
  (sum_scores (reset_group <$> groups) == 0)%Q.
Proof.
  unfold sum_scores. generalize 0%Q.
  induction groups as [|g rest IH]; intros acc; cbn; [reflexivity|].
  rewrite IH. apply fold_zeros.
Qed.

(** An item without fields has score 0. *)
Lemma item_score_no_fields this q :
  (fst (fst (item_score_of this q [])) == 0)%Q.
Proof.
  unfold item_score_of. cbn [field_loop fl_query fl_item_score fl_matched_field_index].
  destruct (score_per_token this && negb (single q)); cbn [fst]; [|reflexivity].
  cbn [reset_scores fused_score tokens_groups].
  pose proof (sum_scores_reset (tokens_groups q)) as Hsum.
  destruct (Qgtb 0 (sum_scores (reset_group <$> tokens_groups q))).
  - ring.
  - rewrite Hsum. ring.
Qed.

(** The threshold never goes down; with a threshold that is not negative
    the turn of an item does not throw. *)
Lemma search_item_thresh {Item : Type} this (st : SearchLoop Item) it :
  (sl_thresh_include st <= sl_thresh_include (fst (search_item this st it)))%Q
  /\ ((0 <= sl_thresh_include st)%Q -> snd (search_item this st it) = false).
Proof.
  unfold search_item.
  pose proof (item_score_no_fields this (sl_query st)) as Hnone.
  destruct (fields it) as [|first rest] eqn:Hf.
  - destruct (item_score_of this (sl_query st) []) as [[sc mi] q']. cbn [fst] in Hnone.
    destruct (Qgtb sc (sl_best_item_score st)).
    + destruct (Qgtb (sc * thresh_relative_to_best this) (sl_thresh_include st)) eqn:E.
      * apply Qgtb_gt in E.
        destruct (Qgtb sc (sc * thresh_relative_to_best this)) eqn:E2; cbn.
        -- split; [lra|]. intros H0. apply Qgtb_gt in E2. lra.
        -- split; [lra|reflexivity].
      * destruct (Qgtb sc (sl_thresh_include st)) eqn:E2; cbn.
        -- split; [lra|]. intros H0. apply Qgtb_gt in E2. lra.
        -- split; [lra|reflexivity].
    + destruct (Qgtb sc (sl_thresh_include st)) eqn:E2; cbn.
      * split; [lra|]. intros H0. apply Qgtb_gt in E2. lra.
      * split; [lra|reflexivity].
  - destruct (item_score_of this (sl_query st) (first :: rest)) as [[sc mi] q'].
    destruct (Qgtb sc (sl_best_item_score st)).
    + destruct (Qgtb (sc * thresh_relative_to_best this) (sl_thresh_include st)) eqn:E.
      * apply Qgtb_gt in E.
        destruct (Qgtb sc (sc * thresh_relative_to_best this)); cbn;
          (split; [lra|reflexivity]).
      * destruct (Qgtb sc (sl_thresh_include st)); cbn; (split; [lra|reflexivity]).
    + destruct (Qgtb sc (sl_thresh_include st)); cbn; (split; [lra|reflexivity]).
Qed.

Lemma search_items_thresh {Item : Type} this (source : list (Indexed Item)) :
  forall st : SearchLoop Item,
    (sl_thresh_include st <= sl_thresh_include (fst (search_items this source st)))%Q
    /\ ((0 <= sl_thresh_include st)%Q -> snd (search_items this source st) = false).
Proof.
  induction source as [|it rest IH]; intros st; cbn [search_items].
  - cbn. split; [lra|reflexivity].
  - destruct (search_item_thresh this st it) as [H1 H2].
    destruct (search_item this st it) as [st' threw]. cbn [fst snd] in H1, H2.
    destruct threw.
    + cbn. split; [exact H1|]. intros H0. specialize (H2 H0). discriminate.
    + destruct (IH st') as [H3 H4]. split; [lra|]. intros H0. apply H4. lra.
Qed.

Section SearchValue.

Context {Item Out : Type}.
Variable normalize : string -> Token.
Variable generateFields : Item -> list string -> list string.

(** What [search] returns, in terms of the run of [_searchIndex]. *)
Lemma search_value (this : @FuzzySearch Item Out) (querystring : string)
    (time_start time_end : Q) :
  fst (search normalize generateFields querystring time_start time_end this)
  = let q := _prepQuery (options this) (normalize querystring) in
    let idx := current_index normalize generateFields this in
    if snd (_searchIndex (options this) q idx []) then None
    else Some (map_results (output_map this)
                 (sorted_results this (kept_results (options this) q idx))
                 (output_limit (options this))).
Proof.
  unfold search, addSource, mbind, M_bind, mret, M_ret, set_start_time, get,
    set_index, set_dirty, set_query, set_search_time, set_results, throw,
    current_index, kept_results, sorted_results, _searchIndex.
  cbn. destruct (dirty this); cbn.
  - destruct (search_items _ _ _) as [run threw]. destruct threw; reflexivity.
  - destruct (search_items _ _ _) as [run threw]. destruct threw; reflexivity.
Qed.

End SearchValue.

(** ** Properties of [search] *)

Lemma search_item_query {Item : Type} this (st : SearchLoop Item) it q0 :
  same_static (sl_query st) q0 -> score_shape (sl_query st) = score_shape q0 ->
  same_static (sl_query (fst (search_item this st it))) q0
  /\ score_shape (sl_query (fst (search_item this st it))) = score_shape q0.
Proof.
  intros Hs Hsh. unfold search_item.
  pose proof (item_score_of_same this (sl_query st) (fields it)) as H1.
  pose proof (item_score_of_shape this (sl_query st) (fields it)) as H2.
  destruct (item_score_of this (sl_query st) (fields it)) as [[sc mi] q'].
  cbn [snd] in H1, H2.
  assert (H : same_static q' q0 /\ score_shape q' = score_shape q0).
  { split; [exact (same_static_trans _ _ _ H1 Hs)|congruence]. }
  repeat case_match; exact H.
Qed.

(** The turn of an item, with the score of the item for the query as
    [search] prepared it. *)
Lemma search_item_step {Item : Type} this (st : SearchLoop Item) it q0 :
  same_static (sl_query st) q0 -> score_shape (sl_query st) = score_shape q0 ->
  let sc := fst (item_score this q0 it) in
  let st' := fst (search_item this st it) in
  sl_best_item_score st'
  = (if Qgtb sc (sl_best_item_score st) then sc else sl_best_item_score st)
  /\ sl_thresh_include st'
     = (if Qgtb sc (sl_best_item_score st) then
          if Qgtb (sc * thresh_relative_to_best this) (sl_thresh_include st)
          then (sc * thresh_relative_to_best this)%Q else sl_thresh_include st
        else sl_thresh_include st)
  /\ (sl_results st' = sl_results st
      \/ sl_results st' = sl_results st ++ [result_of this q0 it]).
Proof.
  intros Hs Hsh. cbn zeta. unfold item_score, result_of, item_score.
  rewrite <- (item_score_of_scores this (sl_query st) q0 (fields it) Hs Hsh).
  unfold search_item.
  destruct (item_score_of this (sl_query st) (fields it)) as [[sc mi] q'].
  cbn [fst snd].
  destruct (Qgtb sc (sl_best_item_score st)).
  - destruct (Qgtb (sc * thresh_relative_to_best this) (sl_thresh_include st)).
    + destruct (Qgtb sc (sc * thresh_relative_to_best this));
        [destruct (fields it)|]; cbn; repeat split; auto.
    + destruct (Qgtb sc (sl_thresh_include st));
        [destruct (fields it)|]; cbn; repeat split; auto.
  - destruct (Qgtb sc (sl_thresh_include st));
      [destruct (fields it)|]; cbn; repeat split; auto.
Qed.

Lemma search_items_run {Item : Type} this q0 (source : list (Indexed Item)) :
  (0 <= thresh_relative_to_best this)%Q ->
  forall st : SearchLoop Item,
    same_static (sl_query st) q0 -> score_shape (sl_query st) = score_shape q0 ->
    (0 <= sl_thresh_include st)%Q ->
    (sl_best_item_score st * thresh_relative_to_best this <= sl_thresh_include st)%Q ->
    let st' := fst (search_items this source st) in
    (sl_best_item_score st <= sl_best_item_score st')%Q
    /\ Forall (fun it => (fst (item_score this q0 it) <= sl_best_item_score st')%Q) source
    /\ (sl_best_item_score st' * thresh_relative_to_best this <= sl_thresh_include st')%Q
    /\ exists new, sl_results st' = sl_results st ++ new
                   /\ new `sublist_of` (result_of this q0 <$> source).
Proof.
  intros Htrb. induction source as [|it rest IH]; intros st Hs Hsh H0 Hb; cbn zeta.
  - cbn. split; [lra|]. split; [constructor|]. split; [exact Hb|].
    exists []. split; [rewrite app_nil_r; reflexivity|constructor].
  - cbn [search_items].
    destruct (search_item_thresh this st it) as [Ht1 Ht2]. specialize (Ht2 H0).
    destruct (search_item_query this st it q0 Hs Hsh) as [Hs' Hsh'].
    destruct (search_item_step this st it q0 Hs Hsh) as (Hbest & Hthr & Hres).
    cbn zeta in Hbest, Hthr, Hres.
    destruct (search_item this st it) as [st1 threw]. cbn [fst snd] in *. subst threw.
    assert (Hb1 : (sl_best_item_score st1 * thresh_relative_to_best this
                   <= sl_thresh_include st1)%Q).
    { rewrite Hbest, Hthr.
      destruct (Qgtb (fst (item_score this q0 it)) (sl_best_item_score st)); [|exact Hb].
      destruct (Qgtb (fst (item_score this q0 it) * thresh_relative_to_best this)
                  (sl_thresh_include st)) eqn:E; [lra|].
      apply Qgtb_le in E. exact E. }
    assert (Hsc : (sl_best_item_score st <= sl_best_item_score st1)%Q
                  /\ (fst (item_score this q0 it) <= sl_best_item_score st1)%Q).
    { rewrite Hbest.
      destruct (Qgtb (fst (item_score this q0 it)) (sl_best_item_score st)) eqn:E.
      - apply Qgtb_gt in E. split; lra.
      - apply Qgtb_le in E. split; lra. }
    destruct (IH st1 Hs' Hsh' ltac:(lra) Hb1) as (I1 & I2 & I3 & new & I4 & I5).
    cbn zeta in I1, I2, I3, I4.
    split; [lra|]. split; [|split; [exact I3|]].
    + constructor; [lra|exact I2].
    + destruct Hres as [Hres|Hres]; rewrite I4, Hres.
      * exists new. split; [reflexivity|]. cbn. apply sublist_cons. exact I5.
      * exists (result_of this q0 it :: new). split.
        -- rewrite <- app_assoc. reflexivity.
        -- cbn. apply sublist_skip. exact I5.
Qed.

Lemma filter_sublist {A : Type} (f : A -> bool) (l : list A) :
  List.filter f l `sublist_of` l.
Proof.
  induction l as [|x l IH]; cbn; [constructor|].
  destruct (f x); [apply sublist_skip|apply sublist_cons]; exact IH.
Qed.

(** The results kept by a search, for a threshold and a relative threshold
    that are not negative. *)
Lemma kept_results_spec {Item : Type} this q (index : list (Indexed Item)) :
  (0 <= thresh_include this)%Q -> (0 <= thresh_relative_to_best this)%Q ->
  kept_results this q index `sublist_of` (result_of this q <$> index)
  /\ Forall (fun r =>
       (thresh_include this <= sr_score r)%Q
       /\ Forall (fun it => (fst (item_score this q it) * thresh_relative_to_best this
                             <= sr_score r)%Q) index)
       (kept_results this q index).
Proof.
  intros H0 Htrb. unfold kept_results, _searchIndex. cbn zeta.
  set (st0 := mkSearchLoop q (thresh_include this) 0 []).
  assert (Hq : same_static (sl_query st0) q) by apply same_static_refl.
  assert (Hb : (sl_best_item_score st0 * thresh_relative_to_best this
                <= sl_thresh_include st0)%Q) by (cbn; lra).
  destruct (search_items_run this q index Htrb st0 Hq eq_refl H0 Hb)
    as (_ & I2 & I3 & new & I4 & I5).
  cbn zeta in I2, I3, I4.
  pose proof (proj1 (search_items_thresh this index st0)) as Hmono.
  cbn [sl_thresh_include st0] in Hmono. fold st0.
  set (run := fst (search_items this index st0)) in *.
  cbn in I4. split.
  - etrans; [apply filter_sublist|]. rewrite I4. exact I5.
  - apply Forall_forall. intros r Hr.
    unfold filterGTE in Hr. apply list_elem_of_In, filter_In in Hr.
    destruct Hr as [_ Hr]. apply Qle_bool_iff in Hr.
    split; [cbn in Hmono; lra|].
    eapply Forall_impl; [exact I2|]. intros it Hit. cbn beta in Hit.
    assert (Hm : (fst (item_score this q it) * thresh_relative_to_best this
                  <= sl_best_item_score run * thresh_relative_to_best this)%Q).
    { apply Qmult_le_compat_r; assumption. }
    lra.
Qed.

(** Sorting with [compareResults]. *)
Lemma compareResults_order {Item : Type} (x y : SearchResult Item) :
  (Qgtb (compareResults x y) 0 = true -> (sr_score x <= sr_score y)%Q)
  /\ (Qgtb (compareResults x y) 0 = false -> (sr_score y <= sr_score x)%Q).
Proof.
  unfold compareResults. cbn zeta.
  destruct (Qeq_bool (sr_score y - sr_score x) 0) eqn:E; cbn [negb].
  - apply Qeq_bool_iff in E. split; intros _; lra.
  - split; intros H.
    + apply Qgtb_gt in H. lra.
    + apply Qgtb_le in H. lra.
Qed.

Lemma sort_insert_perm {A : Type} (f : A -> A -> Q) (x : A) (l : list A) :
  sort_insert f x l ≡ₚ x :: l.
Proof.
  induction l as [|y l IH]; cbn; [reflexivity|].
  destruct (Qgtb (f x y) 0); [|reflexivity].
  rewrite IH. apply Permutation_swap.
Qed.

Lemma array_sort_perm {A : Type} (f : A -> A -> Q) (l : list A) :
  array_sort f l ≡ₚ l.
Proof.
  unfold array_sort. induction l as [|x l IH]; cbn; [reflexivity|].
  rewrite sort_insert_perm, IH. reflexivity.
Qed.

Lemma sort_insert_sorted {Item : Type} (x : SearchResult Item) (l : list (SearchResult Item)) :
  sorted_desc l -> sorted_desc (sort_insert compareResults x l).
Proof.
  induction l as [|y l IH]; intros Hl; cbn [sort_insert].
  - cbn. split; [constructor|exact I].
  - destruct Hl as [Hy Hl].
    destruct (compareResults_order x y) as [Hpos Hneg].
    destruct (Qgtb (compareResults x y) 0).
    + cbn [sorted_desc]. split; [|apply IH; exact Hl].
      rewrite (sort_insert_perm compareResults x l).
      constructor; [apply Hpos; reflexivity|exact Hy].
    + cbn [sorted_desc]. split; [|split; assumption].
      specialize (Hneg eq_refl). constructor; [exact Hneg|].
      eapply Forall_impl; [exact Hy|]. intros b Hb. cbn beta in Hb. lra.
Qed.

Lemma array_sort_sorted {Item : Type} (l : list (SearchResult Item)) :
  sorted_desc (array_sort compareResults l).
Proof.
  unfold array_sort. induction l as [|x l IH]; cbn; [exact I|].
  apply sort_insert_sorted. exact IH.
Qed.

Lemma sorted_desc_take {Item : Type} (n : nat) : forall l : list (SearchResult Item),
  sorted_desc l -> sorted_desc (take n l).
Proof.
  induction n as [|n IH]; intros [|a l] Hl; cbn; try exact I.
  destruct Hl as [Ha Hl]. split; [|apply IH; exact Hl].
  apply Forall_take. exact Ha.
Qed.

Lemma imap_identity {A : Type} (l : list A) :
  imap (fun (_ : nat) (x : A) => x) l = l.
Proof.
  induction l as [|x l IH]; cbn; [reflexivity|].
  f_equal. exact IH.
Qed.

Lemma search_items_query {Item : Type} this q0 (source : list (Indexed Item)) :
  forall st : SearchLoop Item,
    same_static (sl_query st) q0 -> score_shape (sl_query st) = score_shape q0 ->
    same_static (sl_query (fst (search_items this source st))) q0
    /\ score_shape (sl_query (fst (search_items this source st))) = score_shape q0.
Proof.
  induction source as [|it rest IH]; intros st Hs Hsh; cbn [search_items].
  - split; assumption.
  - destruct (search_item_query this st it q0 Hs Hsh) as [Hs' Hsh'].
    destruct (search_item this st it) as [st1 threw]. cbn [fst] in Hs', Hsh'.
    destruct threw; [split; assumption|]. apply IH; assumption.
Qed.

(** X12.  The score that [_searchIndex] gives to an item, and the index of
    its best field, do not depend on the items that were evaluated before
    it: after any items, the query holds scores of these items, and the
    score of the next item is the one it gets with the query as it was
    prepared. *)
Theorem item_score_independent {Item : Type} (this : Options) (q : Query)
    (before : list (Indexed Item)) (results : list (SearchResult Item))
    (item_fields : list (list Token)) :
  let run := fst (_searchIndex this q before results) in
  fst (item_score_of this (sl_query run) item_fields)
  = fst (item_score_of this q item_fields).
Proof.
  cbn zeta. unfold _searchIndex.
  destruct (search_items_query this q before
              (mkSearchLoop q (thresh_include this) 0 results)
              (same_static_refl q) eq_refl) as [Hs Hsh].
  apply item_score_of_scores; assumption.
Qed.

(** X13.  When [thresh_include] is not negative [_searchIndex] does not
    throw: an item without fields, for which reading the sort key
    [item_fields[0].join(" ")] would throw, has score 0 and is never
    admitted.  With a negative [thresh_include] it throws on a source that
    starts with an item without fields. *)
Theorem searchIndex_returns {Item : Type} (this : Options) (query : Query)
    (source : list (Indexed Item)) (results : list (SearchResult Item)) :
  ((0 <= thresh_include this)%Q ->
   snd (_searchIndex this query source results) = false)
  /\ ((thresh_include this < 0)%Q ->
      forall it, fields it = [] ->
        snd (_searchIndex this query (it :: source) results) = true).
Proof.
  split.
  - intros H0. unfold _searchIndex.
    apply (search_items_thresh this source
             (mkSearchLoop query (thresh_include this) 0 results)).
    exact H0.
  - intros Hneg it Hf. unfold _searchIndex. cbn [search_items].
    unfold search_item. cbn [sl_query sl_best_item_score sl_thresh_include sl_results].
    rewrite Hf.
    pose proof (item_score_no_fields this query) as Hnone.
    destruct (item_score_of this query []) as [[sc mi] q']. cbn [fst] in Hnone.
    assert (E1 : Qgtb sc 0 = false) by (apply Qgtb_le; lra).
    assert (E2 : Qgtb sc (thresh_include this) = true) by (apply Qgtb_gt; lra).
    rewrite E1, E2. reflexivity.
Qed.

Section SearchProperties.

Context {Item Out : Type}.
Variable normalize : string -> Token.
Variable generateFields : Item -> list string -> list string.

(** What [search] returns when [thresh_include] is not negative. *)
Lemma search_some (this : @FuzzySearch Item Out) (querystring : string)
    (time_start time_end : Q) :
  (0 <= thresh_include (options this))%Q ->
  fst (search normalize generateFields querystring time_start time_end this)
  = Some (map_results (output_map this)
            (sorted_results this
               (kept_results (options this)
                  (_prepQuery (options this) (normalize querystring))
                  (current_index normalize generateFields this)))
            (output_limit (options this))).
Proof.
  intros H0. rewrite search_value. cbn zeta. unfold _searchIndex.
  rewrite (proj2 (search_items_thresh (options this)
                    (current_index normalize generateFields this)
                    (mkSearchLoop (_prepQuery (options this) (normalize querystring))
                       (thresh_include (options this)) 0 [])) H0).
  reflexivity.
Qed.

(** X14.  When [thresh_include] and [thresh_relative_to_best] are not
    negative, [search] returns the transform by [output_map] of results that
    all have a score, as rounded, that is at least [thresh_include] and at
    least [thresh_relative_to_best] times the score of every item of the
    index. *)
Theorem search_results_threshold (this : @FuzzySearch Item Out)
    (querystring : string) (time_start time_end : Q) :
  (0 <= thresh_include (options this))%Q ->
  (0 <= thresh_relative_to_best (options this))%Q ->
  let q := _prepQuery (options this) (normalize querystring) in
  let idx := current_index normalize generateFields this in
  exists full,
    fst (search normalize generateFields querystring time_start time_end this)
    = Some (map_results (output_map this) full (output_limit (options this)))
    /\ Forall (fun r =>
         (thresh_include (options this) <= sr_score r)%Q
         /\ Forall (fun it =>
              (fst (item_score (options this) q it)
               * thresh_relative_to_best (options this) <= sr_score r)%Q) idx)
         full.
Proof.
  intros H0 Htrb q idx.
  exists (sorted_results this (kept_results (options this) q idx)).
  split; [apply search_some; exact H0|].
  destruct (kept_results_spec (options this) q idx H0 Htrb) as [_ H].
  unfold sorted_results. destruct (sorter this) as [f|]; [|exact H].
  rewrite array_sort_perm. exact H.
Qed.

(** X15.  When [thresh_include] and [thresh_relative_to_best] are not
    negative, every result behind what [search] returns is the result of an
    item of the index: the item, its fields, its score rounded to a
    multiple of [score_round], the index of its best field and its first
    field as sort key; without a sorter the results are in the order of the
    index. *)
Theorem search_results_items (this : @FuzzySearch Item Out)
    (querystring : string) (time_start time_end : Q) :
  (0 <= thresh_include (options this))%Q ->
  (0 <= thresh_relative_to_best (options this))%Q ->
  let q := _prepQuery (options this) (normalize querystring) in
  let idx := current_index normalize generateFields this in
  exists full,
    fst (search normalize generateFields querystring time_start time_end this)
    = Some (map_results (output_map this) full (output_limit (options this)))
    /\ Forall (fun r => exists it, it ∈ idx /\ r = result_of (options this) q it) full
    /\ (sorter this = None -> full `sublist_of` (result_of (options this) q <$> idx)).
Proof.
  intros H0 Htrb q idx.
  exists (sorted_results this (kept_results (options this) q idx)).
  split; [apply search_some; exact H0|].
  destruct (kept_results_spec (options this) q idx H0 Htrb) as [Hsub _].
  assert (Hall : Forall (fun r => exists it, it ∈ idx /\ r = result_of (options this) q it)
                   (kept_results (options this) q idx)).
  { apply Forall_forall. intros r Hr.
    assert (Hin : r ∈ result_of (options this) q <$> idx).
    { eapply sublist_submseteq, elem_of_submseteq in Hsub; eassumption. }
    apply list_elem_of_fmap in Hin. destruct Hin as (it & -> & Hit).
    exists it. split; [exact Hit|reflexivity]. }
  unfold sorted_results. split.
  - destruct (sorter this) as [f|]; [|exact Hall].
    rewrite array_sort_perm. exact Hall.
  - intros ->. exact Hsub.
Qed.

(** X16.  With a positive [output_limit], [search] returns at most
    [output_limit] results. *)
Theorem search_output_limit (this : @FuzzySearch Item Out)
    (querystring : string) (time_start time_end : Q) (l : list Out) :
  0 < output_limit (options this) ->
  fst (search normalize generateFields querystring time_start time_end this) = Some l ->
  Z.of_nat (length l) <= output_limit (options this).
Proof.
  intros Hlim. rewrite search_value. cbn zeta.
  destruct (snd (_searchIndex _ _ _ _)); [discriminate|].
  intros H. inversion H as [Hl]. unfold map_results.
  rewrite length_imap, length_take. unfold output_count.
  destruct (Z.ltb_spec 0 (output_limit (options this))); [|lia]. cbn [andb].
  destruct (Z.ltb_spec (output_limit (options this))
              (Z.of_nat (length (sorted_results this
                 (kept_results (options this)
                    (_prepQuery (options this) (normalize querystring))
                    (current_index normalize generateFields this)))))); lia.
Qed.

End SearchProperties.

Section SearchSorted.

Context {Item : Type}.
Variable normalize : string -> Token.
Variable generateFields : Item -> list string -> list string.

(** X17.  With [compareResults] as sorter, an [output_map] that returns the
    results as they are and a [thresh_include] that is not negative, [search]
    returns the results by decreasing score: the first entries of a
    permutation of the results it kept. *)
Theorem search_sorted (this : @FuzzySearch Item (SearchResult Item))
    (querystring : string) (time_start time_end : Q) :
  sorter this = Some compareResults ->
  output_map this = (fun r _ _ => r) ->
  (0 <= thresh_include (options this))%Q ->
  let q := _prepQuery (options this) (normalize querystring) in
  let idx := current_index normalize generateFields this in
  exists l full,
    fst (search normalize generateFields querystring time_start time_end this) = Some l
    /\ sorted_desc l
    /\ l = take (output_count (length full) (output_limit (options this))) full
    /\ full ≡ₚ kept_results (options this) q idx.
Proof.
  intros Hsort Hmap H0 q idx.
  exists (take (output_count
                  (length (array_sort compareResults (kept_results (options this) q idx)))
                  (output_limit (options this)))
            (array_sort compareResults (kept_results (options this) q idx))),
         (array_sort compareResults (kept_results (options this) q idx)).
  split; [|split; [|split]].
  - rewrite (search_some normalize generateFields this querystring time_start time_end H0).
    unfold sorted_results, map_results. rewrite Hsort, Hmap.
    f_equal. apply imap_identity.
  - apply sorted_desc_take, array_sort_sorted.
  - reflexivity.
  - apply array_sort_perm.
Qed.

End SearchSorted.

Lemma searchIndex_returns_witness :
  ((0 <= thresh_include defaultOptions)%Q
   /\ (thresh_include options_negative_threshold < 0)%Q
   /\ fields (mkIndexed "none"%string []) = [])
  /\ snd (_searchIndex defaultOptions (_prepQuery defaultOptions (tok "sur"))
            [mkIndexed "none"%string []] []) = false
  /\ snd (_searchIndex options_negative_threshold
            (_prepQuery options_negative_threshold (tok "sur"))
            [mkIndexed "none"%string []] []) = true.
Proof.
  assert (H1 : (0 <= thresh_include defaultOptions)%Q) by discriminate.
  assert (H2 : (thresh_include options_negative_threshold < 0)%Q) by reflexivity.
  assert (H3 : fields (mkIndexed "none"%string []) = []) by reflexivity.
  split; [exact (conj H1 (conj H2 H3))|]. split.
  - exact (proj1 (searchIndex_returns defaultOptions
                    (_prepQuery defaultOptions (tok "sur"))
                    [mkIndexed "none"%string []] []) H1).
  - exact (proj2 (searchIndex_returns options_negative_threshold
                    (_prepQuery options_negative_threshold (tok "sur")) [] [])
             H2 (mkIndexed "none"%string []) H3).
Defined.

Lemma search_results_threshold_witness :
  ((0 <= thresh_include (options (example_engine defaultOptions
                                    ["survey"; "surgery"]%string)))%Q
   /\ (0 <= thresh_relative_to_best
              (options (example_engine defaultOptions ["survey"; "surgery"]%string)))%Q)
  /\ (let this := example_engine defaultOptions ["survey"; "surgery"]%string in
      let q := _prepQuery (options this) (tok "sur") in
      let idx := current_index tok example_fields this in
      exists full,
        fst (search tok example_fields "sur" 0 1 this)
        = Some (map_results (output_map this) full (output_limit (options this)))
        /\ Forall (fun r =>
             (thresh_include (options this) <= sr_score r)%Q
             /\ Forall (fun it =>
                  (fst (item_score (options this) q it)
                   * thresh_relative_to_best (options this) <= sr_score r)%Q) idx)
             full).
Proof.
  assert (H1 : (0 <= thresh_include (options (example_engine defaultOptions
                                               ["survey"; "surgery"]%string)))%Q)
    by discriminate.
  assert (H2 : (0 <= thresh_relative_to_best
                       (options (example_engine defaultOptions
                                   ["survey"; "surgery"]%string)))%Q)
    by discriminate.
  split; [exact (conj H1 H2)|].
  exact (search_results_threshold tok example_fields
           (example_engine defaultOptions ["survey"; "surgery"]%string) "sur" 0 1 H1 H2).
Defined.

Lemma search_results_items_witness :
  ((0 <= thresh_include (options (example_engine defaultOptions
                                    ["survey"; "surgery"]%string)))%Q
   /\ (0 <= thresh_relative_to_best
              (options (example_engine defaultOptions ["survey"; "surgery"]%string)))%Q)
  /\ (let this := example_engine defaultOptions ["survey"; "surgery"]%string in
      let q := _prepQuery (options this) (tok "sur") in
      let idx := current_index tok example_fields this in
      exists full,
        fst (search tok example_fields "sur" 0 1 this)
        = Some (map_results (output_map this) full (output_limit (options this)))
        /\ Forall (fun r => exists it, it ∈ idx /\ r = result_of (options this) q it) full
        /\ (sorter this = None
            -> full `sublist_of` (result_of (options this) q <$> idx))).
Proof.
  assert (H1 : (0 <= thresh_include (options (example_engine defaultOptions
                                               ["survey"; "surgery"]%string)))%Q)
    by discriminate.
  assert (H2 : (0 <= thresh_relative_to_best
                       (options (example_engine defaultOptions
                                   ["survey"; "surgery"]%string)))%Q)
    by discriminate.
  split; [exact (conj H1 H2)|].
  exact (search_results_items tok example_fields
           (example_engine defaultOptions ["survey"; "surgery"]%string) "sur" 0 1 H1 H2).
Defined.

Lemma search_output_limit_witness :
  (0 < output_limit (options (example_engine options_limit_1
                                ["survey"; "surgery"]%string))
   /\ fst (search tok example_fields "sur" 0 1
             (example_engine options_limit_1 ["survey"; "surgery"]%string))
      = Some (default []
                (fst (search tok example_fields "sur" 0 1
                        (example_engine options_limit_1
                           ["survey"; "surgery"]%string)))))
  /\ Z.of_nat (length (default []
                         (fst (search tok example_fields "sur" 0 1
                                 (example_engine options_limit_1
                                    ["survey"; "surgery"]%string)))))
     <= output_limit (options (example_engine options_limit_1
                                 ["survey"; "surgery"]%string)).
Proof.
  assert (H1 : 0 < output_limit (options (example_engine options_limit_1
                                            ["survey"; "surgery"]%string)))
    by reflexivity.
  assert (H2 : fst (search tok example_fields "sur" 0 1
                      (example_engine options_limit_1 ["survey"; "surgery"]%string))
               = Some (default []
                         (fst (search tok example_fields "sur" 0 1
                                 (example_engine options_limit_1
                                    ["survey"; "surgery"]%string)))))
    by (vm_compute; reflexivity).
  split; [exact (conj H1 H2)|].
  exact (search_output_limit tok example_fields
           (example_engine options_limit_1 ["survey"; "surgery"]%string) "sur" 0 1 _
           H1 H2).
Defined.

Lemma search_sorted_witness :
  (sorter (example_engine defaultOptions ["survey"; "surgery"]%string)
   = Some compareResults
   /\ output_map (example_engine defaultOptions ["survey"; "surgery"]%string)
      = (fun r _ _ => r)
   /\ (0 <= thresh_include (options (example_engine defaultOptions
                                       ["survey"; "surgery"]%string)))%Q)
  /\ (let this := example_engine defaultOptions ["survey"; "surgery"]%string in
      let q := _prepQuery (options this) (tok "sur") in
      let idx := current_index tok example_fields this in
      exists l full,
        fst (search tok example_fields "sur" 0 1 this) = Some l
        /\ sorted_desc l
        /\ l = take (output_count (length full) (output_limit (options this))) full
        /\ full ≡ₚ kept_results (options this) q idx).
Proof.
  assert (H1 : sorter (example_engine defaultOptions ["survey"; "surgery"]%string)
               = Some compareResults) by reflexivity.
  assert (H2 : output_map (example_engine defaultOptions ["survey"; "surgery"]%string)
               = (fun r _ _ => r)) by reflexivity.
  assert (H3 : (0 <= thresh_include (options (example_engine defaultOptions
                                               ["survey"; "surgery"]%string)))%Q)
    by discriminate.
  split; [exact (conj H1 (conj H2 H3))|].
  exact (search_sorted tok example_fields
           (example_engine defaultOptions ["survey"; "surgery"]%string) "sur" 0 1
           H1 H2 H3).
Defined.

(** ** A token scores best against itself *)

Lemma sublist_same_length {A : Type} (l k : list A) :
  l `sublist_of` k -> length l = length k -> l = k.
Proof.
  induction 1 as [|x l k _ IH|x l k Hs _]; intros Hlen.
  - reflexivity.
  - cbn in Hlen. f_equal. apply IH. lia.
  - apply sublist_length in Hs. cbn in Hlen. lia.
Qed.

(** Only a string itself has it whole as a common subsequence of the same
    length. *)
Lemma llcs_full (a b : Token) :
  llcs a b = length a -> length b = length a -> a = b.
Proof.
  intros Hl Hb. destruct (llcs_sound a b) as (s & H1 & H2 & H3).
  assert (s = a) by (apply sublist_same_length; [exact H1|lia]).
  subst s. apply sublist_same_length; [exact H2|lia].
Qed.

Lemma llcs_app_l (x y b : Token) : (llcs (x ++ y) b <= llcs x b + llcs y b)%nat.
Proof.
  destruct (llcs_sound (x ++ y) b) as (s & H1 & H2 & <-).
  apply sublist_app_r in H1. destruct H1 as (s1 & s2 & -> & H1 & H3).
  rewrite length_app.
  assert (Hs1 : s1 `sublist_of` b).
  { etransitivity; [|exact H2]. apply sublist_inserts_r. reflexivity. }
  assert (Hs2 : s2 `sublist_of` b).
  { etransitivity; [|exact H2]. apply sublist_inserts_l. reflexivity. }
  pose proof (llcs_max x b s1 H1 Hs1). pose proof (llcs_max y b s2 H3 Hs2). lia.
Qed.

(** The common prefix is part of the longest common subsequence. *)
Lemma llcs_prefix_split (a : Token) : forall b : Token,
  llcs a b
  = (common_prefix a b
     + llcs (drop (common_prefix a b) a) (drop (common_prefix a b) b))%nat.
Proof.
  induction a as [|x a IH]; intros [|y b]; try reflexivity.
  cbn [common_prefix]. rewrite llcs_cons.
  destruct (decide (x = y)) as [->|Hne].
  - cbn [drop Nat.add]. rewrite <- IH. reflexivity.
  - cbn [drop Nat.add]. rewrite llcs_cons. destruct (decide (x = y)); [congruence|].
    reflexivity.
Qed.

(** What the sweep counts is at most the longest common subsequence. *)
Lemma short_path_value_le (a b : Token) :
  0 <= short_path_value a b <= Z.of_nat (llcs a b).
Proof.
  unfold short_path_value. cbn zeta. set (p := common_prefix a b).
  pose proof (llcs_prefix_split a b) as Hsplit. fold p in Hsplit.
  pose proof (llcs_app_l (take p a) (drop p a) (drop p b)) as Happ.
  rewrite take_drop in Happ.
  assert (Hmono : (llcs (take p a) (drop p b) <= llcs a (drop p b))%nat).
  { destruct (llcs_sound (take p a) (drop p b)) as (s & H1 & H2 & <-).
    apply llcs_max; [|exact H2]. etransitivity; [exact H1|apply sublist_take]. }
  lia.
Qed.

Lemma sz_bound (M N W : Q) :
  (1 <= M)%Q -> (1 <= N)%Q -> (0 <= W)%Q -> (W <= M)%Q -> (W <= N)%Q ->
  ((W < M)%Q \/ (M < N)%Q) ->
  ((M + N) / (2 * M * N) * W * W < M)%Q.
Proof.
  intros HM HN HW HWM HWN Hstrict.
  assert (HD : (0 < 2 * M * N)%Q).
  { assert (0 < M * N)%Q by (apply Qmult_lt_0_compat; lra). lra. }
  assert (E : ((M + N) / (2 * M * N) * W * W == ((M + N) * W * W) / (2 * M * N))%Q)
    by (field; lra).
  rewrite E.
  apply Qlt_shift_div_r; [exact HD|].
  assert (H1 : (0 <= W * (M * (N - W)))%Q).
  { apply Qmult_le_0_compat; [lra|]. apply Qmult_le_0_compat; lra. }
  assert (H2 : (0 <= W * (N * (M - W)))%Q).
  { apply Qmult_le_0_compat; [lra|]. apply Qmult_le_0_compat; lra. }
  destruct Hstrict as [Hlt|Hlt].
  - assert (H3 : (0 < (M - W) * (M * N))%Q).
    { apply Qmult_lt_0_compat; [lra|]. apply Qmult_lt_0_compat; lra. }
    lra.
  - assert (H3 : (0 <= (M - W) * (M * N))%Q).
    { apply Qmult_le_0_compat; [lra|]. apply Qmult_le_0_compat; lra. }
    assert (H4 : (0 <= (M - W) * ((M + W) * (M + N)))%Q).
    { apply Qmult_le_0_compat; [lra|]. apply Qmult_le_0_compat; lra. }
    assert (H5 : (0 < (M * M) * (N - M))%Q).
    { apply Qmult_lt_0_compat; [|lra]. apply Qmult_lt_0_compat; lra. }
    lra.
Qed.

(** The score of a token against itself. *)
Lemma score_self_value (options : Options) (a : Token) :
  a <> [] ->
  (token_min_rel_size options <= 1)%Q -> (1 <= token_max_rel_size options)%Q ->
  (score options a a
   == QofN (length a) + bonus_match_start options * QofN (length a))%Q.
Proof.
  intros Ha Hmin Hmax.
  destruct (score_prefix_eq options a a Ha Ha) as [Hs Hl].
  { rewrite common_prefix_self. lia. }
  rewrite Hs. unfold claimed_score. cbn zeta.
  rewrite (size_gate_same options (length a) Hmin Hmax).
  rewrite llcs_self, common_prefix_self.
  assert (Hm1 : (1 <= QofN (length a))%Q).
  { change 1%Q with (QofN 1). apply QofN_le. destruct a; [congruence|cbn; lia]. }
  field. lra.
Qed.

(** The score of a pair of distinct tokens: 0, or given by a length that is
    at most the longest common subsequence. *)
Lemma score_cases (options : Options) (a b : Token) :
  (1 <= length a <= 31)%nat ->
  score options a b = 0%Q
  \/ (b <> []
      /\ exists w : nat,
           (w <= llcs a b)%nat
           /\ score options a b
              = (sz_score a b * QofN w * QofN w
                 + bonus_match_start options * QofN (common_prefix a b))%Q).
Proof.
  intros Hlen.
  assert (Ha : a <> []) by (intros ->; cbn in Hlen; lia).
  destruct b as [|y b'] eqn:Eb.
  { left. apply score_map_empty_field. }
  rewrite <- Eb. assert (Hb : b <> []) by (rewrite Eb; discriminate).
  clear Eb.
  destruct (size_gate options (length a) (length b)) eqn:Hgate.
  { left. unfold score, score_map. cbn zeta. rewrite Hgate, orb_true_r. reflexivity. }
  right. split; [exact Hb|].
  destruct (common_prefix_take a b) as (_ & Hpa & Hpb).
  destruct (Nat.eq_dec (common_prefix a b) (Nat.min (length a) (length b))) as [Hk|Hk].
  - destruct (score_prefix_eq options a b Ha Hb Hk) as [Hs Hl].
    exists (llcs a b). split; [lia|]. rewrite Hs. unfold claimed_score. cbn zeta.
    rewrite Hgate. reflexivity.
  - assert (Hlt : (common_prefix a b < Nat.min (length a) (length b))%nat) by lia.
    destruct (short_path_value_le a b) as [H0 Hle].
    exists (Z.to_nat (short_path_value a b)). split; [lia|].
    rewrite (score_short_eq options a b ltac:(lia) Hlt Hgate).
    unfold QofN. rewrite Z2Nat.id by exact H0. reflexivity.
Qed.

(** X18.  With a prefix bonus that is not negative and a size gate that
    lets tokens of equal length through, a token of 1 to 31 characters
    scores strictly higher against itself than against any other token,
    whatever the length of the other token. *)
Theorem score_best_self (options : Options) (a b : Token) :
  (1 <= length a <= 31)%nat -> b <> a ->
  (0 <= bonus_match_start options)%Q ->
  (token_min_rel_size options <= 1)%Q -> (1 <= token_max_rel_size options)%Q ->
  (score options a b < score options a a)%Q.
Proof.
  intros Hlen Hne Hbonus Hmin Hmax.
  assert (Ha : a <> []) by (intros ->; cbn in Hlen; lia).
  rewrite (score_self_value options a Ha Hmin Hmax).
  assert (HM : (1 <= QofN (length a))%Q).
  { change 1%Q with (QofN 1). apply QofN_le. lia. }
  assert (HbM : (0 <= bonus_match_start options * QofN (length a))%Q)
    by (apply Qmult_le_0_compat; lra).
  destruct (score_cases options a b Hlen) as [->|(Hb & w & Hw & ->)]; [lra|].
  assert (HN : (1 <= QofN (length b))%Q).
  { change 1%Q with (QofN 1). apply QofN_le. destruct b; [congruence|cbn; lia]. }
  destruct (common_prefix_take a b) as (_ & Hpa & Hpb).
  pose proof (llcs_le_length a b) as Hla.
  pose proof (llcs_le_length b a) as Hlb. rewrite (llcs_comm b a) in Hlb.
  assert (Hstrict : (w < length a)%nat \/ (length a < length b)%nat).
  { destruct (Nat.lt_ge_cases w (length a)) as [H|H]; [left; exact H|].
    right. destruct (Nat.lt_ge_cases (length a) (length b)) as [H'|H']; [exact H'|].
    exfalso. apply Hne. symmetry. apply llcs_full; lia. }
  assert (Hsz : (sz_score a b * QofN w * QofN w < QofN (length a))%Q).
  { unfold sz_score. apply sz_bound; try assumption.
    - apply QofN_nonneg.
    - apply QofN_le. lia.
    - apply QofN_le. lia.
    - destruct Hstrict as [H|H]; [left|right]; apply QofN_lt; exact H. }
  assert (Hp : (0 <= bonus_match_start options
                     * (QofN (length a) - QofN (common_prefix a b)))%Q).
  { apply Qmult_le_0_compat; [exact Hbonus|].
    pose proof (QofN_le _ _ Hpa). lra. }
  lra.
Qed.

Lemma score_best_self_witness :
  ((1 <= length (tok "surgery") <= 31)%nat
   /\ tok "insurgence" <> tok "surgery"
   /\ (0 <= bonus_match_start defaultOptions)%Q
   /\ (token_min_rel_size defaultOptions <= 1)%Q
   /\ (1 <= token_max_rel_size defaultOptions)%Q)
  /\ (score defaultOptions (tok "surgery") (tok "insurgence")
      < score defaultOptions (tok "surgery") (tok "surgery"))%Q.
Proof.
  assert (H1 : (1 <= length (tok "surgery") <= 31)%nat) by (simpl; lia).
  assert (H2 : tok "insurgence" <> tok "surgery") by discriminate.
  assert (H3 : (0 <= bonus_match_start defaultOptions)%Q) by discriminate.
  assert (H4 : (token_min_rel_size defaultOptions <= 1)%Q) by discriminate.
  assert (H5 : (1 <= token_max_rel_size defaultOptions)%Q) by discriminate.
  split; [exact (conj H1 (conj H2 (conj H3 (conj H4 H5))))|].
  exact (score_best_self defaultOptions _ _ H1 H2 H3 H4 H5).
Defined.

(** ** Position vectors *)

Lemma posVector_scan_lookup (c : ascii) (pattern : Token) :
  forall (i : Z) (map : gmap ascii (list pos)),
    posVector_scan pattern i map !! c
    = match map !! c with
      | Some l => Some (l ++ positions c pattern i)
      | None =>
          match positions c pattern i with
          | [] => None
          | l => Some l
          end
      end.
Proof.
  induction pattern as [|x rest IH]; intros i map; cbn [posVector_scan positions].
  - destruct (map !! c) as [l|]; [rewrite app_nil_r|]; reflexivity.
  - rewrite IH. destruct (decide (x = c)) as [->|Hne].
    + destruct (map !! c) as [l|] eqn:E.
      * rewrite lookup_insert_eq, <- app_assoc. reflexivity.
      * rewrite lookup_insert_eq. reflexivity.
    + destruct (map !! x) as [lx|]; rewrite lookup_insert_ne by exact Hne; reflexivity.
Qed.

(** X19.  The map that [posVector] builds has a key for every character of
    the pattern and no other; the array of a character holds the positions
    of the character in the pattern, in increasing order, then [Infinity]. *)
Theorem posVector_positions (pattern : Token) (c : ascii) :
  posVector pattern !! c
  = match positions c pattern 0 with
    | [] => None
    | l => Some (MPos (l ++ [Inf]))
    end
  /\ (positions c pattern 0 = [] <-> c ∉ pattern).
Proof.
  split.
  - unfold posVector. rewrite lookup_fmap, posVector_scan_lookup, lookup_empty.
    destruct (positions c pattern 0); reflexivity.
  - generalize 0. induction pattern as [|x rest IH]; intros i; cbn [positions].
    + split; [intros _; apply not_elem_of_nil|reflexivity].
    + destruct (decide (x = c)) as [->|Hne].
      * split; [discriminate|]. intros H. exfalso. apply H. apply list_elem_of_here.
      * rewrite IH. rewrite not_elem_of_cons. split; [intros H; split; [congruence|exact H]|].
        intros [_ H]. exact H.
Qed.

(** ** Filtering tokens by size *)

Lemma filterSize_within (minSize maxSize : Z) (array : list Token) :
  0 <= minSize <= maxSize ->
  Forall (within_size minSize maxSize) (filterSize array minSize maxSize).
Proof.
  intros Hb. induction array as [|s rest IH]; cbn [filterSize]; [constructor|].
  destruct (Z.geb_spec (Z.of_nat (length s)) minSize) as [Hge|Hlt]; [|exact IH].
  constructor; [|exact IH]. unfold within_size.
  destruct (Z.ltb_spec (Z.of_nat (length s)) maxSize) as [Hs|Hs]; [lia|].
  rewrite length_take. lia.
Qed.

Lemma filterSize_fixed (minSize maxSize : Z) (array : list Token) :
  Forall (within_size minSize maxSize) array ->
  filterSize array minSize maxSize = array.
Proof.
  induction 1 as [|s rest [Hmin Hmax] _ IH]; cbn [filterSize]; [reflexivity|].
  destruct (Z.geb_spec (Z.of_nat (length s)) minSize) as [Hge|Hlt]; [|lia].
  rewrite IH. f_equal.
  destruct (Z.ltb_spec (Z.of_nat (length s)) maxSize) as [Hs|Hs]; [reflexivity|].
  apply take_ge. lia.
Qed.

(** X20.  For bounds [0 <= minSize <= maxSize], [filterSize] returns
    strings that all have a length between the bounds; it returns an array
    of such strings as it is, so that filtering twice is filtering once. *)
Theorem filterSize_bounds (minSize maxSize : Z) (array : list Token) :
  0 <= minSize <= maxSize ->
  Forall (within_size minSize maxSize) (filterSize array minSize maxSize)
  /\ (Forall (within_size minSize maxSize) array ->
      filterSize array minSize maxSize = array)
  /\ filterSize (filterSize array minSize maxSize) minSize maxSize
     = filterSize array minSize maxSize.
Proof.
  intros Hb. split; [apply filterSize_within; exact Hb|].
  split; [apply filterSize_fixed|].
  apply filterSize_fixed, filterSize_within. exact Hb.
Qed.

Lemma filterSize_bounds_witness :
  0 <= 3 <= 5
  /\ Forall (within_size 3 5) (filterSize [tok "a"; tok "wall"; tok "wallpaper"] 3 5)
  /\ (Forall (within_size 3 5) [tok "a"; tok "wall"; tok "wallpaper"] ->
      filterSize [tok "a"; tok "wall"; tok "wallpaper"] 3 5
      = [tok "a"; tok "wall"; tok "wallpaper"])
  /\ filterSize (filterSize [tok "a"; tok "wall"; tok "wallpaper"] 3 5) 3 5
     = filterSize [tok "a"; tok "wall"; tok "wallpaper"] 3 5.
Proof.
  assert (H : 0 <= 3 <= 5) by lia.
  split; [exact H|].
  exact (filterSize_bounds 3 5 [tok "a"; tok "wall"; tok "wallpaper"] H).
Defined.

Section IndexProperties.

Context {Item Out : Type}.
Variable normalize : string -> Token.
Variable generateFields : Item -> list string -> list string.

(** X21.  After [addSource] the index has one record for each item of the
    source, in order, that holds the item itself and one list of tokens for
    each of its fields; with bounds
    [0 <= token_field_min_length <= token_field_max_length] every token of
    the index has a length between the bounds. *)
Theorem addSource_index (this : @FuzzySearch Item Out) (source : list Item)
    (keys : list string) :
  0 <= token_field_min_length (options this) <= token_field_max_length (options this) ->
  let this' := snd (addSource normalize generateFields source keys this) in
  item <$> index this' = source
  /\ Forall2 (fun it rec => length (fields rec) = length (generateFields it keys))
       source (index this')
  /\ Forall (fun rec =>
       Forall (Forall (within_size (token_field_min_length (options this))
                         (token_field_max_length (options this))))
         (fields rec))
       (index this').
Proof.
  intros Hb. cbn zeta.
  unfold addSource, mbind, M_bind, get, set_index. cbn [snd index].
  split; [|split].
  - rewrite <- list_fmap_compose. cbn. apply list_fmap_id.
  - apply Forall2_fmap_r. apply Forall2_same_length_lookup_2; [reflexivity|].
    intros i x y Hx Hy. rewrite Hx in Hy. inversion Hy; subst y.
    cbn. apply length_fmap.
  - apply Forall_fmap. apply Forall_forall. intros it _. cbn.
    apply Forall_fmap. apply Forall_forall. intros field _. cbn.
    apply filterSize_within. exact Hb.
Qed.

End IndexProperties.

Lemma addSource_index_witness :
  (0 <= token_field_min_length
          (options (example_engine defaultOptions ["survey"; "surgery"]%string))
   <= token_field_max_length
        (options (example_engine defaultOptions ["survey"; "surgery"]%string)))
  /\ (let this := example_engine defaultOptions ["survey"; "surgery"]%string in
      let this' := snd (addSource tok example_fields
                          ["survey"; "surgery"]%string [] this) in
      item <$> index this' = ["survey"; "surgery"]%string
      /\ Forall2 (fun it rec => length (fields rec) = length (example_fields it []))
           ["survey"; "surgery"]%string (index this')
      /\ Forall (fun rec =>
           Forall (Forall (within_size (token_field_min_length (options this))
                             (token_field_max_length (options this))))
             (fields rec))
           (index this')).
Proof.
  assert (H : 0 <= token_field_min_length
                     (options (example_engine defaultOptions
                                 ["survey"; "surgery"]%string))
              <= token_field_max_length
                   (options (example_engine defaultOptions
                               ["survey"; "surgery"]%string)))
    by (cbn; lia).
  split; [exact H|].
  exact (addSource_index tok example_fields
           (example_engine defaultOptions ["survey"; "surgery"]%string)
           ["survey"; "surgery"]%string [] H).
Defined.

(** ** The scorer of [src/FuzzySearch.js] *)

Lemma to_int32_idem (z : Z) : to_int32 (to_int32 z) = to_int32 z.
Proof. apply to_int32_congr, to_int32_mod. Qed.

(** The bit vectors of the two versions hold the same ints. *)
Lemma bits_loop_bitVector (token : Token) : forall (i : Z) (map : gmap ascii Z),
  MBits <$> Old.bits_loop token i map = bitVector token (MBits <$> map) i.
Proof.
  induction token as [|c rest IH]; intros i map; [reflexivity|].
  cbn [Old.bits_loop bitVector]. rewrite IH. f_equal.
  rewrite fmap_insert, lookup_fmap.
  destruct (map !! c) as [x|]; cbn; [reflexivity|].
  f_equal. f_equal. unfold bor. change (to_int32 0) with 0. rewrite Z.lor_0_l.
  unfold shl. apply to_int32_idem.
Qed.

Lemma old_map_bits (token : Token) (c : ascii) :
  default 0 (Old.bits_loop token 0 ∅ !! c) = map_bits (bitVector token ∅ 0) c.
Proof.
  unfold map_bits.
  rewrite <- (fmap_empty MBits), <- bits_loop_bitVector, lookup_fmap.
  destruct (Old.bits_loop token 0 ∅ !! c); reflexivity.
Qed.

Lemma sar_testbit (x p i : Z) :
  0 <= p < 32 -> 0 <= i -> i + p < 32 ->
  Z.testbit (sar x p) i = Z.testbit x (i + p).
Proof.
  intros Hp Hi Hip. unfold sar. rewrite (Z.mod_small p 32) by lia.
  rewrite Z.shiftr_spec, to_int32_testbit by lia. reflexivity.
Qed.

(** The turn of the sweep, as a turn of [step_val] with a gate of ones. *)
Lemma old_step_val (map : gmap ascii Z) (p V : Z) (c : ascii) :
  Old.lcs_step map p V c = step_val (-1) V (sar (default 0 (map !! c)) p).
Proof.
  unfold Old.lcs_step, step_val. cbn zeta. unfold bor. f_equal.
  apply to_int32_congr.
  assert (E : forall x, band x (-1) = to_int32 x).
  { intros x. unfold band. change (to_int32 (-1)) with (-1). apply Z.land_m1_r. }
  rewrite !E.
  rewrite (Zplus_mod (to_int32 V)), !to_int32_mod, <- Zplus_mod. reflexivity.
Qed.

Lemma sweep_steps (a : Token) (o ZM : Z) (Mf : ascii -> Z) (f : Z -> ascii -> Z) :
  0 <= o -> o + Z.of_nat (length a) <= 32 ->
  (forall (c : ascii) (i : nat), (i < length a)%nat ->
     Z.testbit (Mf c) (o + Z.of_nat i) = bool_decide (a !! i = Some c)) ->
  lane_gate ZM o a ->
  (forall V c, f V c = step_val ZM V (Mf c)) ->
  forall (rest : Token) (V : Z) (done : Token),
    lane_inv V o a done ->
    lane_inv (fold_left f rest V) o a (done ++ rest).
Proof.
  intros Ho Hlen Hmap Hgate Hf.
  induction rest as [|c rest IH]; intros V done HV.
  - rewrite app_nil_r. exact HV.
  - cbn [fold_left]. rewrite (cons_middle c done rest), app_assoc.
    apply IH. rewrite Hf. apply lane_step; try assumption.
    intros i Hi. apply Hmap. exact Hi.
Qed.

(** The bits that the loop counts. *)
Lemma old_counted (V m : Z) :
  0 <= m <= 31 ->
  0 <= band (bnot V) (shl 1 m - 1) < 2 ^ 31
  /\ forall k, 0 <= k < 32 ->
       Z.testbit (band (bnot V) (shl 1 m - 1)) k = negb (Z.testbit V k) && (k <? m).
Proof.
  intros Hm. split.
  - unfold band. rewrite mask_ones by lia.
    assert (H0 : 0 <= Z.land (to_int32 (bnot V)) (Z.ones m)).
    { apply Z.land_nonneg. right. rewrite Z.ones_equiv.
      pose proof (Z.pow_pos_nonneg 2 m ltac:(lia) ltac:(lia)). lia. }
    split; [exact H0|].
    apply (Z.bounded_iff_bits_nonneg 31); [lia|exact H0|].
    intros l Hl. rewrite Z.land_spec, testbit_ones by lia.
    destruct (Z.ltb_spec l m); [lia|]. apply andb_false_r.
  - intros k Hk. rewrite band_testbit, bnot_testbit, mask_testbit by lia.
    reflexivity.
Qed.

(** The value of [lcs_len] after the sweep and the count, for the bit
    vector of [a]. *)
Lemma old_sweep_value (a b : Token) :
  (length a <= 31)%nat ->
  (common_prefix a b < length a)%nat ->
  let p := common_prefix a b in
  let mask := shl 1 (Z.of_nat (length a) - Z.of_nat p) - 1 in
  count_bits 33
    (band (bnot (fold_left (Old.lcs_step (Old.bits_loop a 0 ∅) (Z.of_nat p))
                   (drop p b) mask)) mask) 0
  + Z.of_nat p
  = Z.of_nat (llcs a b).
Proof.
  intros Hlen Hp p mask. fold p in Hp.
  set (a' := drop p a). set (b' := drop p b).
  assert (Hla : length a' = (length a - p)%nat) by (unfold a'; apply length_drop).
  assert (Hmask : mask = shl 1 (Z.of_nat (length a')) - 1).
  { unfold mask. rewrite Hla. f_equal. f_equal. lia. }
  set (V := fold_left (Old.lcs_step (Old.bits_loop a 0 ∅) (Z.of_nat p)) b' mask).
  assert (HV : lane_inv V 0 a' b').
  { unfold V.
    apply (sweep_steps a' 0 (-1)
             (fun c => sar (default 0 (Old.bits_loop a 0 ∅ !! c)) (Z.of_nat p))
             (Old.lcs_step (Old.bits_loop a 0 ∅) (Z.of_nat p))
             ltac:(lia) ltac:(lia)) with (done := []).
    - intros c i Hi. rewrite sar_testbit by lia.
      rewrite old_map_bits.
      replace (0 + Z.of_nat i + Z.of_nat p) with (0 + Z.of_nat (p + i)%nat) by lia.
      rewrite (lane_map_bitVector a Hlen c (p + i)%nat) by lia.
      unfold a'. rewrite lookup_drop. reflexivity.
    - apply lane_gate_ones.
    - intros V0 c. apply old_step_val.
    - rewrite Hmask. apply lane_inv_mask. lia. }
  destruct (old_counted V (Z.of_nat (length a')) ltac:(lia)) as [Hy Hbits].
  rewrite <- Hmask in Hy, Hbits.
  rewrite count_bits_spec;
    [|lia|apply Z.le_lt_trans with (Z.of_nat 32); [apply bitcount_le|lia]].
  rewrite (count_row _ a' b' 0); [| lia |].
  - rewrite take_0. cbn [llcs].
    pose proof (llcs_prefix_split a b) as Hs. fold p a' b' in Hs. lia.
  - intros k Hk. rewrite Hbits by lia.
    destruct (Nat.ltb_spec k (length a')) as [Hka|Hka].
    + rewrite <- (HV k Hka). cbn [Z.add negb andb].
      replace (Z.of_nat k <? Z.of_nat (length a')) with true
        by (symmetry; apply Z.ltb_lt; lia).
      rewrite !andb_true_r. reflexivity.
    + replace (Z.of_nat k <? Z.of_nat (length a')) with false
        by (symmetry; apply Z.ltb_ge; lia).
      rewrite !andb_false_r. reflexivity.
Qed.

(** The score for the bit vector of [a]. *)
Lemma old_score_map_value (a b : Token) (bonus : Q) :
  (length a <= 31)%nat -> a <> [] -> b <> [] ->
  Old.score_map a b (Old.bitVector a) bonus = llcs_score bonus a b.
Proof.
  intros Hlen Ha Hb. unfold Old.score_map, llcs_score, sz_score. cbn zeta.
  rewrite (min_length_pos a b Ha Hb).
  assert (Hpre : (if decide (a = b)
                  then if (length a <? length b)%nat then length a else length b
                  else common_prefix a b) = common_prefix a b).
  { destruct (decide (a = b)) as [->|]; [|reflexivity].
    rewrite Nat.ltb_irrefl, common_prefix_self. reflexivity. }
  rewrite Hpre.
  assert (Hv : (if (common_prefix a b
                    =? (if (length a <? length b)%nat then length a else length b))%nat
                then Z.of_nat (common_prefix a b)
                else
                  match Old.bitVector a with
                  | Old.BV map =>
                      count_bits 33
                        (band
                           (bnot
                              (fold_left
                                 (Old.lcs_step map (Z.of_nat (common_prefix a b)))
                                 (drop (common_prefix a b) b)
                                 (shl 1 (Z.of_nat (length a)
                                         - Z.of_nat (common_prefix a b)) - 1)))
                           (shl 1 (Z.of_nat (length a)
                                   - Z.of_nat (common_prefix a b)) - 1)) 0
                      + Z.of_nat (common_prefix a b)
                  | Old.PV map => Old.llcs_large a b map (common_prefix a b)
                  end)
               = Z.of_nat (llcs a b)).
  { destruct (Nat.eqb_spec (common_prefix a b)
                (if (length a <? length b)%nat then length a else length b)) as [Hk|Hk].
    - rewrite (llcs_full_prefix a b Hk). reflexivity.
    - unfold Old.bitVector, Old.BVMAXSIZE.
      destruct (Z.gtb_spec (Z.of_nat (length a)) 31); [lia|].
      apply old_sweep_value; [exact Hlen|].
      destruct (common_prefix_take a b) as (_ & H1 & H2).
      destruct (Nat.ltb_spec (length a) (length b)); lia. }
  rewrite Hv. reflexivity.
Qed.

Lemma common_prefix_comm (a : Token) : forall b, common_prefix a b = common_prefix b a.
Proof.
  induction a as [|x a IH]; intros [|y b]; try reflexivity.
  cbn [common_prefix]. destruct (decide (x = y)) as [->|Hne].
  - destruct (decide (y = y)); [|congruence]. rewrite IH. reflexivity.
  - destruct (decide (y = x)); [congruence|reflexivity].
Qed.

Lemma llcs_score_comm (bonus : Q) (a b : Token) :
  a <> [] -> b <> [] -> (llcs_score bonus a b == llcs_score bonus b a)%Q.
Proof.
  intros Ha Hb. unfold llcs_score, sz_score.
  rewrite (llcs_comm b a), (common_prefix_comm b a).
  assert (HM : (1 <= QofN (length a))%Q).
  { change 1%Q with (QofN 1). apply QofN_le. destruct a; [congruence|cbn; lia]. }
  assert (HN : (1 <= QofN (length b))%Q).
  { change 1%Q with (QofN 1). apply QofN_le. destruct b; [congruence|cbn; lia]. }
  field. split; lra.
Qed.

Lemma old_score_value (a b : Token) (bonus : Q) :
  (length a <= 31)%nat -> (length b <= 31)%nat -> a <> [] -> b <> [] ->
  (Old.score a b bonus == llcs_score bonus a b)%Q.
Proof.
  intros Hla Hlb Ha Hb. unfold Old.score.
  destruct ((length a <? length b)%nat && (Z.of_nat (length b) <? Old.BVMAXSIZE)).
  - rewrite (old_score_map_value b a bonus Hlb Hb Ha). apply llcs_score_comm; assumption.
  - rewrite (old_score_map_value a b bonus Hla Ha Hb). reflexivity.
Qed.

(** X22.  For a non-empty token [a] of at most 31 characters, with its bit
    vector, and a non-empty token [b], the scorer of [src/FuzzySearch.js]
    returns the score by the longest common subsequence,
    [sz * llcs(a,b)^2 + bonus_prefix * prefix]: the sweep runs on both
    tokens without their common prefix. *)
Theorem old_score_map_llcs (a b : Token) (bonus : Q) :
  (length a <= 31)%nat -> a <> [] -> b <> [] ->
  Old.score_map a b (Old.bitVector a) bonus = llcs_score bonus a b.
Proof. exact (old_score_map_value a b bonus). Qed.

Lemma old_score_map_llcs_witness :
  ((length (tok "surgery") <= 31)%nat /\ tok "surgery" <> [] /\ tok "survey" <> [])
  /\ Old.score_map (tok "surgery") (tok "survey") (Old.bitVector (tok "surgery")) (1 # 2)
     = llcs_score (1 # 2) (tok "surgery") (tok "survey").
Proof.
  assert (H1 : (length (tok "surgery") <= 31)%nat) by (simpl; lia).
  assert (H2 : tok "surgery" <> []) by discriminate.
  assert (H3 : tok "survey" <> []) by discriminate.
  split; [exact (conj H1 (conj H2 H3))|].
  exact (old_score_map_llcs (tok "surgery") (tok "survey") (1 # 2) H1 H2 H3).
Defined.

(** X23.  For two non-empty tokens of at most 31 characters, [score] of
    [src/FuzzySearch.js] is the score by the longest common subsequence,
    whichever of the two tokens it builds the bit vector of; so it is
    symmetric. *)
Theorem old_score_symmetric (a b : Token) (bonus : Q) :
  (length a <= 31)%nat -> (length b <= 31)%nat -> a <> [] -> b <> [] ->
  (Old.score a b bonus == llcs_score bonus a b)%Q
  /\ (Old.score a b bonus == Old.score b a bonus)%Q.
Proof.
  intros Hla Hlb Ha Hb. split; [apply old_score_value; assumption|].
  rewrite (old_score_value a b bonus Hla Hlb Ha Hb).
  rewrite (old_score_value b a bonus Hlb Hla Hb Ha).
  apply llcs_score_comm; assumption.
Qed.

Lemma old_score_symmetric_witness :
  ((length (tok "surgery") <= 31)%nat /\ (length (tok "gsurvey") <= 31)%nat
   /\ tok "surgery" <> [] /\ tok "gsurvey" <> [])
  /\ (Old.score (tok "surgery") (tok "gsurvey") (1 # 2)
      == llcs_score (1 # 2) (tok "surgery") (tok "gsurvey"))%Q
  /\ (Old.score (tok "surgery") (tok "gsurvey") (1 # 2)
      == Old.score (tok "gsurvey") (tok "surgery") (1 # 2))%Q.
Proof.
  assert (H1 : (length (tok "surgery") <= 31)%nat) by (simpl; lia).
  assert (H2 : (length (tok "gsurvey") <= 31)%nat) by (simpl; lia).
  assert (H3 : tok "surgery" <> []) by discriminate.
  assert (H4 : tok "gsurvey" <> []) by discriminate.
  split; [exact (conj H1 (conj H2 (conj H3 H4)))|].
  exact (old_score_symmetric (tok "surgery") (tok "gsurvey") (1 # 2) H1 H2 H3 H4).
Defined.

(** ** The order of results *)

Lemma str_lt_asym (a : Token) : forall b, str_lt a b = true -> str_lt b a = false.
Proof.
  induction a as [|x a IH]; intros [|y b] H; cbn [str_lt] in H |- *;
    try discriminate; try reflexivity.
  destruct (Nat.ltb_spec (nat_of_ascii x) (nat_of_ascii y)) as [Hxy|Hxy].
  - destruct (Nat.ltb_spec (nat_of_ascii y) (nat_of_ascii x)); [lia|reflexivity].
  - destruct (Nat.ltb_spec (nat_of_ascii y) (nat_of_ascii x)); [discriminate|].
    apply IH. exact H.
Qed.

(** X24.  [compareResults] is antisymmetric: swapping its arguments changes
    the sign of its value; so it is a consistent comparator for
    [Array.prototype.sort]. *)
Theorem compareResults_antisym {Item : Type} (a b : SearchResult Item) :
  (compareResults b a == - compareResults a b)%Q.
Proof.
  unfold compareResults. cbn zeta.
  destruct (Qeq_bool (sr_score b - sr_score a) 0) eqn:E1;
    destruct (Qeq_bool (sr_score a - sr_score b) 0) eqn:E2; cbn [negb].
  - destruct (str_lt (sr_sortKey b) (sr_sortKey a)) eqn:L1.
    + rewrite (str_lt_asym _ _ L1). reflexivity.
    + destruct (str_lt (sr_sortKey a) (sr_sortKey b)); reflexivity.
  - apply Qeq_bool_iff in E1. apply Qeq_bool_neq in E2. exfalso. apply E2. lra.
  - apply Qeq_bool_iff in E2. apply Qeq_bool_neq in E1. exfalso. apply E1. lra.
  - ring.
Qed.

(** ** A token of exactly 32 characters *)

Lemma lcs_bits_32 (b : Token) (aMap : amap) (prefix : nat) :
  lcs_bits 32 b aMap prefix = Z.of_nat prefix.
Proof.
  unfold lcs_bits. cbn zeta.
  assert (Hmask : shl 1 32 - 1 = 0) by reflexivity.
  rewrite Hmask.
  assert (H0 : forall x, band 0 x = 0).
  { intros x. unfold band. change (to_int32 0) with 0. apply Z.land_0_l. }
  assert (H1 : forall x, band x 0 = 0).
  { intros x. unfold band. change (to_int32 0) with 0. apply Z.land_0_r. }
  rewrite H0, H1. change (popcount32 0) with 0. lia.
Qed.

(** X25.  For a token [a] of exactly [INT_SIZE = 32] characters, [score]
    takes the bit-parallel branch with the mask [(1 << 32) - 1 = 0]: inside
    the size gate, the score against any non-empty token [b] counts the
    common prefix of the two tokens and nothing else. *)
Theorem score_token_32 (options : Options) (a b : Token) :
  length a = 32%nat -> b <> [] ->
  size_gate options (length a) (length b) = false ->
  let p := QofN (common_prefix a b) in
  score options a b = (sz_score a b * p * p + bonus_match_start options * p)%Q.
Proof.
  intros Ha Hb Hg. cbn zeta.
  assert (Hane : a <> []) by (intros ->; discriminate).
  unfold score, score_map. cbn zeta.
  rewrite (min_length_pos a b Hane Hb), Hg. cbn [orb].
  assert (Hpre : prefix_map a b (if (length a <? length b)%nat then length a else length b)
                 = common_prefix a b).
  { unfold prefix_map. destruct (decide (a = b)) as [->|]; [|reflexivity].
    rewrite Nat.ltb_irrefl, common_prefix_self. reflexivity. }
  rewrite Hpre.
  assert (Hlen : lcs_len_map a b (alphabet a) (common_prefix a b)
                   (if (length a <? length b)%nat then length a else length b)
                 = Z.of_nat (common_prefix a b)).
  { unfold lcs_len_map.
    destruct (_ =? _)%nat; [reflexivity|].
    rewrite Ha. change (Z.of_nat 32 >? INT_SIZE) with false. cbn iota.
    apply lcs_bits_32. }
  rewrite Hlen. unfold sz_score. reflexivity.
Qed.

Lemma score_token_32_witness :
  (length (tok "abcdefghijklmnopqrstuvwxyzabcdef") = 32%nat
   /\ tok "xbcdefghijklmnopqrstuvwxyzabcd" <> []
   /\ size_gate defaultOptions (length (tok "abcdefghijklmnopqrstuvwxyzabcdef"))
        (length (tok "xbcdefghijklmnopqrstuvwxyzabcd")) = false)
  /\ (score defaultOptions (tok "abcdefghijklmnopqrstuvwxyzabcdef")
        (tok "xbcdefghijklmnopqrstuvwxyzabcd") == 0)%Q.
Proof.
  split; [split; [reflexivity|split; [discriminate|reflexivity]]|].
  assert (H := score_token_32 defaultOptions (tok "abcdefghijklmnopqrstuvwxyzabcdef")
                 (tok "xbcdefghijklmnopqrstuvwxyzabcd") eq_refl
                 ltac:(discriminate) eq_refl).
  cbn zeta in H. rewrite H. vm_compute. reflexivity.
Defined.

(** * The solver and the search loop *)

(** ** The token assignment solver *)




(** ** The results of a search *)






Section SearchResults.

Context {Item Out : Type}.
Variable normalize : string -> Token.
Variable generateFields : Item -> list string -> list string.


End SearchResults.



(** ** The score of an item *)

(** *** Best scores kept pointwise *)

Lemma update_best_zip scores field_tk_index :
  forall bs ixs,
    length ixs = length bs -> length scores = length bs ->
    fst (update_best scores field_tk_index bs ixs) = zip_with Qmaxb bs scores
    /\ length (snd (update_best scores field_tk_index bs ixs)) = length bs.
Proof.
  induction scores as [|sc scores IH]; intros [|b bs] [|ix ixs] Hi Hs;
    try discriminate; [split; reflexivity|].
  cbn [update_best length] in *.
  destruct (IH bs ixs ltac:(lia) ltac:(lia)) as [H1 H2].
  destruct (update_best scores field_tk_index bs ixs) as [bs' ixs'].
  cbn [fst snd] in H1, H2. subst bs'. cbn [zip_with].
  change (Qmaxb b sc) with (if Qgtb sc b then sc else b).
  destruct (Qgtb sc b); cbn [fst snd length]; (split; [reflexivity|lia]).
Qed.

Lemma score_lanes_length options S field_token packed_tokens :
  forall offset,
    length (score_lanes options S field_token offset packed_tokens)
    = length packed_tokens.
Proof.
  induction packed_tokens as [|t rest IH]; intros offset; cbn; [reflexivity|].
  rewrite IH. reflexivity.
Qed.

Lemma group_scores_length this g token :
  length (group_scores this g token) = length (tokens g).
Proof.
  unfold group_scores. destruct (Nat.eqb_spec (length (tokens g)) 1) as [E|_].
  - rewrite E. reflexivity.
  - unfold score_pack. apply score_lanes_length.
Qed.

Lemma pointwise_best_length {A : Type} (F : A -> list Q) (xs : list A) :
  forall acc,
    (forall x, length (F x) = length acc) ->
    length (pointwise_best F xs acc) = length acc.
Proof.
  unfold pointwise_best.
  induction xs as [|x xs IH]; intros acc HF; cbn [fold_left]; [reflexivity|].
  assert (Hz : length (zip_with Qmaxb acc (F x)) = length acc).
  { rewrite length_zip_with, HF. lia. }
  rewrite IH; [exact Hz|]. intros y. rewrite Hz. apply HF.
Qed.

Lemma pointwise_best_lookup {A : Type} (F : A -> list Q) (xs : list A) (i : nat) :
  forall acc,
    (forall x, length (F x) = length acc) ->
    pointwise_best F xs acc !! i
    = (fun b => fold_left (fun best x => Qmaxb best (default 0%Q (F x !! i))) xs b)
      <$> acc !! i.
Proof.
  unfold pointwise_best.
  induction xs as [|x xs IH]; intros acc HF; cbn [fold_left].
  - destruct (acc !! i); reflexivity.
  - assert (Hz : length (zip_with Qmaxb acc (F x)) = length acc).
    { rewrite length_zip_with, HF. lia. }
    rewrite IH by (intros y; rewrite Hz; apply HF).
    rewrite lookup_zip_with.
    destruct (acc !! i) as [b|] eqn:Eb; cbn; [|reflexivity].
    destruct (F x !! i) as [s|] eqn:Es; cbn; [reflexivity|].
    apply lookup_lt_Some in Eb. apply lookup_ge_None in Es.
    rewrite HF in Es. lia.
Qed.

Lemma best_of_tokens_pointwise this g field_tokens :
  forall field_tk_index bs ixs,
    length bs = length (tokens g) -> length ixs = length (tokens g) ->
    fst (best_of_tokens this g field_tokens field_tk_index bs ixs)
    = pointwise_best (group_scores this g) field_tokens bs
    /\ length (snd (best_of_tokens this g field_tokens field_tk_index bs ixs))
       = length (tokens g).
Proof.
  unfold pointwise_best.
  induction field_tokens as [|token rest IH]; intros k bs ixs Hb Hi;
    cbn [best_of_tokens fold_left]; [split; [reflexivity|exact Hi]|].
  fold (group_scores this g token).
  pose proof (group_scores_length this g token) as Hs.
  destruct (update_best_zip (group_scores this g token) k bs ixs
              ltac:(lia) ltac:(lia)) as [H1 H2].
  destruct (update_best (group_scores this g token) k bs ixs) as [bs' ixs'].
  cbn [fst snd] in H1, H2. subst bs'.
  apply IH; [|lia]. rewrite length_zip_with. lia.
Qed.

Lemma best_of_tokens_lanes this g field_tokens :
  fst (best_of_tokens this g field_tokens 0
         (replicate (length (tokens g)) 0%Q) (replicate (length (tokens g)) 0))
  = field_lanes this g field_tokens
  /\ length (snd (best_of_tokens this g field_tokens 0
                    (replicate (length (tokens g)) 0%Q)
                    (replicate (length (tokens g)) 0)))
     = length (tokens g).
Proof.
  destruct (best_of_tokens_pointwise this g field_tokens 0
              (replicate (length (tokens g)) 0%Q) (replicate (length (tokens g)) 0)
              ltac:(apply length_replicate) ltac:(apply length_replicate)) as [H1 H2].
  split; [|exact H2]. rewrite H1. apply list_eq. intros i.
  rewrite pointwise_best_lookup
    by (intros x; rewrite length_replicate; apply group_scores_length).
  unfold field_lanes. rewrite list_lookup_fmap.
  destruct (decide (i < length (tokens g))%nat) as [Hlt|Hge].
  - rewrite lookup_replicate_2 by exact Hlt.
    rewrite lookup_seq_lt by exact Hlt. reflexivity.
  - rewrite (proj1 (lookup_replicate_None _ _ _)) by lia.
    rewrite lookup_seq_ge by lia. reflexivity.
Qed.

(** *** What the score of a field reads and writes *)

Lemma add_group_scores_kept this bs :
  forall ixs olds fs li,
    length ixs = length bs -> length olds = length bs ->
    snd (add_group_scores this bs ixs olds fs li) = zip_with Qmaxb olds bs.
Proof.
  induction bs as [|sc bs IH]; intros [|tmp ixs] [|old olds] fs li Hi Ho;
    try discriminate; [reflexivity|].
  cbn [add_group_scores length] in *.
  destruct (if Qgtb sc (minimum_match this)
            then ((if tmp >? li then fs + sc + bonus_token_order this
                   else fs + sc)%Q, tmp)
            else ((fs + sc)%Q, li)) as [fs2 li2].
  specialize (IH ixs olds fs2 li2 ltac:(lia) ltac:(lia)).
  destruct (add_group_scores this bs ixs olds fs2 li2) as [[fs' li'] items].
  cbn [fst snd] in IH |- *. subst items. reflexivity.
Qed.

(** The score of the field and the last index do not depend on the scores
    kept for the item. *)
Lemma add_group_scores_value this bs :
  forall ixs olds olds' fs li,
    length olds = length olds' ->
    fst (add_group_scores this bs ixs olds fs li)
    = fst (add_group_scores this bs ixs olds' fs li).
Proof.
  induction bs as [|sc bs IH]; intros [|tmp ixs] [|old olds] [|old' olds'] fs li Ho;
    try discriminate; try reflexivity.
  cbn [add_group_scores length] in *.
  destruct (if Qgtb sc (minimum_match this)
            then ((if tmp >? li then fs + sc + bonus_token_order this
                   else fs + sc)%Q, tmp)
            else ((fs + sc)%Q, li)) as [fs2 li2].
  specialize (IH ixs olds olds' fs2 li2 ltac:(lia)).
  destruct (add_group_scores this bs ixs olds fs2 li2) as [[fs1 li1] items1].
  destruct (add_group_scores this bs ixs olds' fs2 li2) as [[fs1' li1'] items1'].
  cbn [fst snd] in IH |- *. exact IH.
Qed.

Lemma best_of_tokens_static this g g0 field_tokens :
  same_group g g0 ->
  forall i bs ixs,
    best_of_tokens this g field_tokens i bs ixs
    = best_of_tokens this g0 field_tokens i bs ixs.
Proof.
  intros (Ht & Hm & Hg).
  induction field_tokens as [|token rest IH]; intros i bs ixs; [reflexivity|].
  cbn [best_of_tokens].
  assert (Hp : score_pack g token this = score_pack g0 token this).
  { unfold score_pack. rewrite Ht, Hm, Hg. reflexivity. }
  rewrite Hp, Ht, Hm.
  destruct (update_best _ _ _ _) as [bs' ixs']. apply IH.
Qed.

(** The turn of a group: for a group [g] in the state of the group [g0] of
    the query, up to the scores. *)
Lemma score_group_lanes this field g g0 fs li :
  same_group g g0 ->
  length (score_item g) = length (tokens g) ->
  length (score_item g0) = length (tokens g0) ->
  let r := score_group this field g fs li in
  let r0 := score_group this field g0 fs li in
  (snd (fst r), snd r) = (snd (fst r0), snd r0)
  /\ same_group (fst (fst r)) g0
  /\ length (score_item (fst (fst r))) = length (tokens (fst (fst r)))
  /\ score_item (fst (fst r))
     = zip_with Qmaxb (score_item g) (field_lanes this g0 field).
Proof.
  intros Hsame Hlen Hlen0. cbn zeta. unfold score_group.
  rewrite (best_of_tokens_static this g g0 field Hsame).
  destruct Hsame as (Ht & Hm & Hg). rewrite Ht in *.
  destruct (best_of_tokens_lanes this g0 field) as [Hb Hi].
  destruct (best_of_tokens this g0 field 0 _ _) as [bs ixs].
  cbn [fst snd] in Hb, Hi. subst bs.
  assert (Hfl : length (field_lanes this g0 field) = length (tokens g0)).
  { unfold field_lanes. rewrite length_fmap, length_seq. reflexivity. }
  pose proof (add_group_scores_kept this (field_lanes this g0 field) ixs
                (score_item g) fs li ltac:(lia) ltac:(lia)) as Hk.
  pose proof (add_group_scores_value this (field_lanes this g0 field) ixs
                (score_item g) (score_item g0) fs li ltac:(lia)) as Hv.
  destruct (add_group_scores this (field_lanes this g0 field) ixs (score_item g) fs li)
    as [[fs1 li1] items].
  destruct (add_group_scores this (field_lanes this g0 field) ixs (score_item g0) fs li)
    as [[fs1' li1'] items'].
  cbn [fst snd] in *. subst items. inversion Hv; subst.
  split; [reflexivity|]. split; [repeat split; assumption|].
  split; [|reflexivity]. cbn [score_item tokens]. rewrite length_zip_with. lia.
Qed.

Lemma score_groups_lanes this field gs gs0 :
  Forall2 same_group gs gs0 ->
  Forall (fun g => length (score_item g) = length (tokens g)) gs ->
  Forall (fun g => length (score_item g) = length (tokens g)) gs0 ->
  forall fs li,
    snd (score_groups this field gs fs li) = snd (score_groups this field gs0 fs li)
    /\ Forall2 same_group (fst (score_groups this field gs fs li)) gs0
    /\ Forall (fun g => length (score_item g) = length (tokens g))
         (fst (score_groups this field gs fs li))
    /\ score_item <$> fst (score_groups this field gs fs li)
       = zip_with (fun olds g0 => zip_with Qmaxb olds (field_lanes this g0 field))
           (score_item <$> gs) gs0.
Proof.
  induction 1 as [|g g0 gs gs0 Hg _ IH]; intros Hl Hl0 fs li.
  - cbn. repeat split; constructor.
  - inversion Hl as [|? ? Hlg Hlgs]; inversion Hl0 as [|? ? Hlg0 Hlgs0]; subst.
    cbn [score_groups].
    destruct (score_group_lanes this field g g0 fs li Hg Hlg Hlg0)
      as (Hv & Hs & Hlen & Hitems).
    cbn zeta in Hv, Hs, Hlen, Hitems.
    destruct (score_group this field g fs li) as [[g1 fs1] li1].
    destruct (score_group this field g0 fs li) as [[g1' fs1'] li1'].
    cbn [fst snd] in Hv, Hs, Hlen, Hitems. inversion Hv; subst fs1' li1'.
    destruct (IH Hlgs Hlgs0 fs1 li1) as (I1 & I2 & I3 & I4).
    destruct (score_groups this field gs fs1 li1) as [rest fs2].
    destruct (score_groups this field gs0 fs1 li1) as [rest' fs2'].
    cbn [fst snd] in *.
    split; [exact I1|]. split; [constructor; assumption|].
    split; [constructor; assumption|].
    rewrite !fmap_cons. cbn [zip_with]. rewrite Hitems, I4. reflexivity.
Qed.

Lemma test_fused_value this field q' q groups groups0 fs :
  same_static q' q ->
  fst (test_fused this field q' groups fs) = fst (test_fused this field q groups0 fs).
Proof.
  intros (_ & Hf & Hm & _ & _). unfold test_fused. rewrite Hf, Hm.
  destruct (score_test_fused this); reflexivity.
Qed.

Lemma test_fused_state this field q' groups fs :
  tokens_groups (snd (test_fused this field q' groups fs)) = groups
  /\ fused_score (snd (test_fused this field q' groups fs))
     = (if score_test_fused this then
          Qmaxb (fused_score q')
            (score_map (fused_str q') (join_space field) (fused_map q') this)
        else fused_score q').
Proof. unfold test_fused. destruct (score_test_fused this); split; reflexivity. Qed.

(** The score of a field, and what it leaves in the query, for a query in
    the state [q'] of the query [q], up to the scores. *)
Lemma field_score_of_lanes this field q' q :
  same_static q' q -> well_shaped q' -> well_shaped q ->
  let r := field_score_of this field q' in
  fst r = field_value this q field
  /\ same_static (snd r) q
  /\ well_shaped (snd r)
  /\ (score_per_token this = true -> single q = false ->
      score_item <$> tokens_groups (snd r)
      = lanes_after_field this q field (score_item <$> tokens_groups q')
      /\ fused_score (snd r)
         = (if score_test_fused this then
              Qmaxb (fused_score q')
                (score_map (fused_str q) (join_space field) (fused_map q) this)
            else fused_score q')).
Proof.
  intros Hst Hw' Hw. cbn zeta. unfold field_value.
  pose proof Hst as (Hn & Hf & Hm & Hsi & Hg).
  unfold field_score_of. rewrite Hsi.
  destruct (score_per_token this) eqn:Ept.
  - destruct (single q) eqn:Esi.
    + unfold _scoreFieldSingle. rewrite Hf, Hm.
      split; [apply test_fused_value; exact Hst|].
      destruct (test_fused_state this field q' (tokens_groups q')
                  (fold_left
                     (fun field_score token =>
                        let sc := score_map (fused_str q) token (fused_map q) this in
                        if Qgtb sc field_score then sc else field_score) field 0%Q))
        as [Hgr _].
      split; [|split; [|discriminate]].
      * eapply same_static_trans; [|exact Hst]. apply test_fused_same.
        apply Forall2_same_length_lookup_2; [reflexivity|].
        intros i x y Hx Hy. rewrite Hx in Hy. inversion Hy; subst. repeat split.
      * unfold well_shaped, test_fused.
        destruct (score_test_fused this); cbn; exact Hw'.
    + unfold _scoreField.
      destruct (score_groups_lanes this field (tokens_groups q') (tokens_groups q)
                  Hg Hw' Hw 0%Q (-1)) as (Hv & Hs & Hl & Hitems).
      destruct (score_groups this field (tokens_groups q') 0 (-1)) as [groups fs].
      destruct (score_groups this field (tokens_groups q) 0 (-1)) as [groups0 fs0].
      cbn [fst snd] in Hv, Hs, Hl, Hitems. subst fs0.
      destruct (test_fused_state this field q' groups fs) as [Hgr Hfu].
      split; [apply test_fused_value; exact Hst|].
      split; [|split].
      * unfold test_fused. destruct (score_test_fused this); repeat split;
          cbn; try assumption; congruence.
      * unfold well_shaped, test_fused.
        destruct (score_test_fused this); cbn; exact Hl.
      * intros _ _. rewrite Hgr, Hfu, Hf, Hm. split; [exact Hitems|reflexivity].
  - cbn [fst snd]. rewrite Hf, Hm. split; [reflexivity|].
    split; [exact Hst|]. split; [exact Hw'|discriminate].
Qed.

(** *** The loop over the fields *)

Lemma zip_with_twice {A B : Type} (f h : A -> B -> A) :
  forall (l : list A) (k : list B),
    zip_with f (zip_with h l k) k = zip_with (fun x y => f (h x y) y) l k.
Proof.
  induction l as [|x l IH]; intros [|y k]; cbn; try reflexivity.
  rewrite IH. reflexivity.
Qed.

Lemma zip_with_keep {A B : Type} (l : list A) (k : list B) :
  length l = length k -> zip_with (fun x _ => x) l k = l.
Proof.
  revert k. induction l as [|x l IH]; intros [|y k] H; cbn in *; try discriminate;
    [reflexivity|].
  rewrite IH by lia. reflexivity.
Qed.

Lemma lanes_after_nil this q lanes :
  length lanes = length (tokens_groups q) -> lanes_after this q [] lanes = lanes.
Proof. intros H. unfold lanes_after, pointwise_best. cbn. apply zip_with_keep. exact H. Qed.

Lemma lanes_after_cons this q field rest lanes :
  lanes_after this q (field :: rest) lanes
  = lanes_after this q rest (lanes_after_field this q field lanes).
Proof.
  unfold lanes_after, lanes_after_field. rewrite zip_with_twice. reflexivity.
Qed.

Lemma same_static_groups q' q :
  same_static q' q ->
  length (score_item <$> tokens_groups q') = length (tokens_groups q).
Proof.
  intros (_ & _ & _ & _ & H). rewrite length_fmap.
  eapply Forall2_length. exact H.
Qed.

Lemma Qmaxb_gt (x y : Q) : Qgtb y x = true -> Qmaxb x y = y.
Proof. intros H. unfold Qmaxb. rewrite H. reflexivity. Qed.

Lemma Qmaxb_le (x y : Q) : Qgtb y x = false -> Qmaxb x y = x.
Proof. intros H. unfold Qmaxb. rewrite H. reflexivity. Qed.

(** The loop over the fields of an item evaluates the fields of
    [evaluated_fields]; it leaves the best boosted score of these fields,
    and in the query the best scores of the lanes and of the fused query
    over these fields. *)
Lemma field_loop_lanes this q item_fields :
  well_shaped q ->
  forall field_index st,
    same_static (fl_query st) q -> well_shaped (fl_query st) ->
    let ev := evaluated_fields this q item_fields
                (fl_position_bonus st) (fl_item_score st) in
    let st' := field_loop this item_fields field_index st in
    fl_item_score st'
    = best_boosted this q ev (fl_position_bonus st) (fl_item_score st)
    /\ (score_per_token this = true -> single q = false ->
        score_item <$> tokens_groups (fl_query st')
        = lanes_after this q ev (score_item <$> tokens_groups (fl_query st))
        /\ fused_score (fl_query st')
           = fused_after this q ev (fused_score (fl_query st))).
Proof.
  intros Hw.
  induction item_fields as [|field rest IH]; intros field_index st Hst Hw'; cbn zeta.
  - cbn [evaluated_fields field_loop best_boosted]. split; [reflexivity|].
    intros _ _. rewrite lanes_after_nil by (apply same_static_groups; exact Hst).
    unfold fused_after. destruct (score_test_fused this); split; reflexivity.
  - cbn [evaluated_fields field_loop].
    destruct (field_score_of_lanes this field (fl_query st) q Hst Hw' Hw)
      as (Hv & Hst1 & Hw1 & Hmulti).
    cbn zeta in Hv, Hst1, Hw1, Hmulti.
    destruct (field_score_of this field (fl_query st)) as [fs query].
    cbn [fst snd] in Hv, Hst1, Hw1, Hmulti. subst fs.
    set (boosted := (field_value this q field * (1 + fl_position_bonus st))%Q) in *.
    assert (Hstep : score_per_token this = true -> single q = false ->
              forall ev',
                lanes_after this q ev' (score_item <$> tokens_groups query)
                = lanes_after this q (field :: ev')
                    (score_item <$> tokens_groups (fl_query st))
                /\ fused_after this q ev' (fused_score query)
                   = fused_after this q (field :: ev') (fused_score (fl_query st))).
    { intros Hpt Hsi ev'. destruct (Hmulti Hpt Hsi) as [Hl Hf].
      rewrite lanes_after_cons, Hl, Hf. split; [reflexivity|].
      unfold fused_after. destruct (score_test_fused this); reflexivity. }
    destruct (Qgtb boosted (fl_item_score st)) eqn:Ebest.
    + destruct (Qgtb boosted (field_good_enough this)) eqn:Egood; cbn [andb].
      * cbn [best_boosted fl_item_score fl_query]. fold boosted.
        rewrite (Qmaxb_gt _ _ Ebest). split; [reflexivity|].
        intros Hpt Hsi. destruct (Hstep Hpt Hsi []) as [H1 H2].
        rewrite <- H1, <- H2.
        rewrite lanes_after_nil by (apply same_static_groups; exact Hst1).
        unfold fused_after. destruct (score_test_fused this); split; reflexivity.
      * rewrite (Qmaxb_gt _ _ Ebest).
        destruct (IH (field_index + 1)
                    (mkFieldLoop query boosted field_index
                       (fl_position_bonus st * bonus_position_decay this))
                    Hst1 Hw1) as [I1 I2].
        cbn zeta in I1, I2. cbn [fl_item_score fl_position_bonus fl_query] in I1, I2.
        cbn [best_boosted]. fold boosted. rewrite (Qmaxb_gt _ _ Ebest).
        split; [exact I1|].
        intros Hpt Hsi. destruct (I2 Hpt Hsi) as [J1 J2].
        destruct (Hstep Hpt Hsi
                    (evaluated_fields this q rest
                       (fl_position_bonus st * bonus_position_decay this) boosted))
          as [H1 H2].
        rewrite J1, J2, H1, H2. split; reflexivity.
    + cbn [andb]. rewrite (Qmaxb_le _ _ Ebest).
      destruct (IH (field_index + 1)
                  (mkFieldLoop query (fl_item_score st) (fl_matched_field_index st)
                     (fl_position_bonus st * bonus_position_decay this))
                  Hst1 Hw1) as [I1 I2].
      cbn zeta in I1, I2. cbn [fl_item_score fl_position_bonus fl_query] in I1, I2.
      cbn [best_boosted]. fold boosted. rewrite (Qmaxb_le _ _ Ebest).
      split; [exact I1|].
      intros Hpt Hsi. destruct (I2 Hpt Hsi) as [J1 J2].
      destruct (Hstep Hpt Hsi
                  (evaluated_fields this q rest
                     (fl_position_bonus st * bonus_position_decay this)
                     (fl_item_score st)))
        as [H1 H2].
      rewrite J1, J2, H1, H2. split; reflexivity.
Qed.

(** *** The score of an item *)

Lemma zip_with_fmap_same {A B C : Type} (f : B -> A -> C) (h : A -> B) (l : list A) :
  zip_with f (h <$> l) l = (fun x => f (h x) x) <$> l.
Proof. induction l as [|x l IH]; cbn; [reflexivity|]. rewrite IH. reflexivity. Qed.

Lemma field_lanes_length this g field :
  length (field_lanes this g field) = length (tokens g).
Proof. unfold field_lanes. rewrite length_fmap, length_seq. reflexivity. Qed.

Lemma pointwise_best_lanes this g fields :
  pointwise_best (field_lanes this g) fields (replicate (length (tokens g)) 0%Q)
  = lanes_best this g fields.
Proof.
  apply list_eq. intros i.
  rewrite pointwise_best_lookup
    by (intros x; rewrite length_replicate; apply field_lanes_length).
  unfold lanes_best. rewrite list_lookup_fmap.
  destruct (decide (i < length (tokens g))%nat) as [Hlt|Hge].
  - rewrite lookup_replicate_2 by exact Hlt.
    rewrite lookup_seq_lt by exact Hlt. cbn. f_equal. unfold lane_best.
    apply fold_left_pointwise. intros best field. f_equal.
    unfold field_lanes. rewrite list_lookup_fmap, lookup_seq_lt by exact Hlt.
    reflexivity.
  - rewrite (proj1 (lookup_replicate_None _ _ _)) by lia.
    rewrite lookup_seq_ge by lia. reflexivity.
Qed.

Lemma lanes_after_reset this q fields :
  well_shaped q ->
  lanes_after this q fields (score_item <$> tokens_groups (reset_scores q))
  = (fun g => lanes_best this g fields) <$> tokens_groups q.
Proof.
  intros Hw. unfold lanes_after, reset_scores. cbn [tokens_groups].
  rewrite <- list_fmap_compose, zip_with_fmap_same.
  apply list_fmap_ext. intros i g Hg. cbn.
  unfold well_shaped in Hw. rewrite Forall_lookup in Hw. rewrite (Hw i g Hg).
  apply pointwise_best_lanes.
Qed.

Lemma sum_scores_lists (gs : list PackInfo) :
  sum_scores gs = sum_lists (score_item <$> gs).
Proof.
  unfold sum_scores, sum_lists. generalize 0%Q.
  induction gs as [|g gs IH]; intros acc; cbn; [reflexivity|]. apply IH.
Qed.

Lemma lanes_sum_lists this q fields :
  fold_left (fun acc g => fold_left Qplus (lanes_best this g fields) acc)
    (tokens_groups q) 0%Q
  = sum_lists ((fun g => lanes_best this g fields) <$> tokens_groups q).
Proof.
  unfold sum_lists. generalize 0%Q.
  induction (tokens_groups q) as [|g gs IH]; intros acc; cbn; [reflexivity|]. apply IH.
Qed.

Lemma reset_scores_shaped q : well_shaped q -> well_shaped (reset_scores q).
Proof.
  unfold well_shaped, reset_scores. cbn [tokens_groups]. intros H.
  apply Forall_fmap. eapply Forall_impl; [exact H|].
  intros g Hg. cbn. rewrite length_replicate. exact Hg.
Qed.

(** The score of an item is the score that the specification gives from
    the fields that are evaluated. *)
Lemma item_score_of_mixed this q item_fields :
  well_shaped q ->
  fst (fst (item_score_of this q item_fields))
  = mixed_score this q (evaluated_fields this q item_fields 1 0).
Proof.
  intros Hw. unfold item_score_of, mixed_score, lanes_query_score.
  destruct (field_loop_lanes this q item_fields Hw 0
              (mkFieldLoop (reset_scores q) 0 (-1) 1)
              (reset_scores_same q) (reset_scores_shaped q Hw)) as [H1 H2].
  cbn zeta in H1, H2. cbn [fl_item_score fl_position_bonus fl_query] in H1, H2.
  set (ev := evaluated_fields this q item_fields 1 0) in *.
  set (st := field_loop this item_fields 0 _) in *.
  destruct (score_per_token this) eqn:Ept; cbn [andb]; [|cbn [fst]; exact H1].
  destruct (single q) eqn:Esi; cbn [negb fst]; [exact H1|].
  destruct (H2 eq_refl eq_refl) as [Hl Hf].
  rewrite sum_scores_lists, Hl, (lanes_after_reset this q ev Hw), Hf, H1.
  rewrite lanes_sum_lists.
  unfold fused_after, fused_best. cbn [reset_scores fused_score]. reflexivity.
Qed.

(** The fields evaluated are the first fields of the item. *)
Lemma evaluated_fields_prefix this q item_fields :
  forall position_bonus best,
    evaluated_fields this q item_fields position_bonus best `prefix_of` item_fields.
Proof.
  induction item_fields as [|field rest IH]; intros pb best; cbn [evaluated_fields].
  - reflexivity.
  - destruct (_ && _).
    + exists rest. reflexivity.
    + apply prefix_cons. apply IH.
Qed.

(** *** The queries made by [_prepQuery] *)

Lemma close_group_shaped groups gt gm gate :
  Forall (fun g => length (score_item g) = length (tokens g)) groups ->
  Forall (fun g => length (score_item g) = length (tokens g))
    (close_group groups gt gm gate).
Proof.
  intros H. unfold close_group. destruct gt as [|t gt]; [exact H|].
  apply Forall_app. split; [exact H|]. constructor; [|constructor].
  cbn. rewrite length_replicate. reflexivity.
Qed.

Lemma pack_loop_shaped toks :
  forall groups gt gm offset gate,
    Forall (fun g => length (score_item g) = length (tokens g)) groups ->
    Forall (fun g => length (score_item g) = length (tokens g))
      (pack_loop toks groups gt gm offset gate).
Proof.
  induction toks as [|token rest IH]; intros groups gt gm offset gate H;
    cbn [pack_loop]; [apply close_group_shaped; exact H|].
  destruct (Z.of_nat (length token) >=? INT_SIZE).
  - apply IH. apply Forall_app. split; [apply close_group_shaped; exact H|].
    constructor; [reflexivity|constructor].
  - destruct (Z.of_nat (length token) + offset >=? INT_SIZE); cbn.
    + apply IH. apply close_group_shaped. exact H.
    + apply IH. exact H.
Qed.

Lemma prepQuery_shaped this norm_query : well_shaped (_prepQuery this norm_query).
Proof.
  unfold well_shaped, _prepQuery. cbn [tokens_groups new_Query].
  destruct (_ <? _)%nat; [constructor|].
  apply pack_loop_shaped. constructor.
Qed.

(** C5 (amended).  The score that [_searchIndex] gives to an item, after
    any items, for the query prepared from a query string, is the score
    of the specification, computed on the fields that the loop evaluates:
    the fields up to the first one whose boosted score is a new best over
    [field_good_enough].  For a query of at least two tokens with per-token
    scoring, it is half the best position-boosted field score plus half
    [query_score], the sum over the groups of the best score of each lane
    across these fields, or the best fused score when it is greater;
    otherwise it is the best boosted field score alone. *)
Theorem item_score_mixed {Item : Type} (this : Options) (norm_query : Token)
    (before : list (Indexed Item)) (results : list (SearchResult Item))
    (item_fields : list (list Token)) :
  let q := _prepQuery this norm_query in
  let run := fst (_searchIndex this q before results) in
  let evaluated := evaluated_fields this q item_fields 1 0 in
  fst (fst (item_score_of this (sl_query run) item_fields))
  = mixed_score this q evaluated
  /\ evaluated `prefix_of` item_fields.
Proof.
  cbn zeta. split; [|apply evaluated_fields_prefix].
  unfold _searchIndex.
  destruct (search_items_query this (_prepQuery this norm_query) before
              (mkSearchLoop (_prepQuery this norm_query) (thresh_include this) 0 results)
              (same_static_refl _) eq_refl) as [Hs Hsh].
  rewrite (item_score_of_scores this _ (_prepQuery this norm_query) item_fields Hs Hsh).
  apply item_score_of_mixed. apply prepQuery_shaped.
Qed.

(** C5 (as stated).  For the query ["painting walls"] and an item with the
    fields ["painting wall"] and ["walls"], the first field has the boosted
    score [216/5], over [field_good_enough = 20], and the loop stops: the
    lane of ["walls"] keeps its best score in the first field, [28/5], and
    not its best score across the fields, [15/2]; the item has the score
    [152/5], and the score of the specification from the two fields is
    [627/20]. *)
Lemma item_score_good_enough :
  let q := _prepQuery defaultOptions (tok "painting walls") in
  let item_fields := [[tok "painting"; tok "wall"]; [tok "walls"]] in
  score_per_token defaultOptions = true /\ single q = false
  /\ evaluated_fields defaultOptions q item_fields 1 0 = [[tok "painting"; tok "wall"]]
  /\ (fst (fst (item_score_of defaultOptions q item_fields)) == 152 # 5)%Q
  /\ (mixed_score defaultOptions q item_fields == 627 # 20)%Q
  /\ ~ (fst (fst (item_score_of defaultOptions q item_fields))
        == mixed_score defaultOptions q item_fields)%Q.
Proof.
  cbn zeta. split; [reflexivity|]. split; [reflexivity|].
  split; [vm_compute; reflexivity|].
  split; [vm_compute; reflexivity|]. split; [vm_compute; reflexivity|].
  vm_compute. discriminate.
Qed.
